(** * van Emde Boas tree (vEBTree.c): shallow embedding and verification

    The C program keeps a tree of heap nodes

      typedef struct vEBNode { int u; int min, max;
                               struct vEBNode* summary; struct vEBNode** cluster;
                               int lower_sqrt; int upper_sqrt; } vEBNode;

    and mutates it in place.  Nodes are never shared (every node has one
    parent), so the heap is embedded as a value of an inductive type and the
    mutating procedures as functions that return the new tree.

    - [int] is embedded as [Z].  On the trees [vEB_create] builds, every
      value the procedures compute lies in [-1, u), so no [int] operation
      overflows; C's [/] and [%] truncate towards zero and are [Z.quot] and
      [Z.rem].
    - A procedure returns [option]: [None] stands for a run that leaves
      defined behaviour (an index outside the [cluster] array, a NULL
      [summary] dereferenced) or, for [vEB_create], that ends in
      [exit(EXIT_FAILURE)].
    - [vEB_create] is the run in which every allocation succeeds; the exits
      after a failed [malloc] or [calloc] are in [Alloc.vEB_create].
    - [vEB_insert] and [vEB_delete] are the procedures without the lines
      they print to stderr; [Stderr.vEB_insert] and [Stderr.vEB_delete]
      have them. *)

From Stdlib Require Import ZArith Lia Bool.
From stdpp Require Import base option list.

Local Open Scope Z_scope.

(** ** Data model *)

Unset Elimination Schemes.
Inductive vEBNode : Type :=
  mkNode (u : Z) (min max : Z)
         (summary : option vEBNode)   (* NULL when u <= 2 *)
         (cluster : list vEBNode)     (* NULL (no cells) when u <= 2 *)
         (lower_sqrt upper_sqrt : Z).
Set Elimination Schemes.

Definition u (V : vEBNode) : Z := match V with mkNode u _ _ _ _ _ _ => u end.
Definition min (V : vEBNode) : Z := match V with mkNode _ mn _ _ _ _ _ => mn end.
Definition max (V : vEBNode) : Z := match V with mkNode _ _ mx _ _ _ _ => mx end.
Definition summary (V : vEBNode) : option vEBNode :=
  match V with mkNode _ _ _ s _ _ _ => s end.
Definition cluster (V : vEBNode) : list vEBNode :=
  match V with mkNode _ _ _ _ cl _ _ => cl end.
Definition lower_sqrt (V : vEBNode) : Z := match V with mkNode _ _ _ _ _ lo _ => lo end.
Definition upper_sqrt (V : vEBNode) : Z := match V with mkNode _ _ _ _ _ _ up => up end.

(** ** Array cells

    [cell cl i] is [cluster[i]] for an [int] index [i]: undefined outside
    the array, also for a negative index. *)
Definition cell (cl : list vEBNode) (i : Z) : option vEBNode :=
  if i <? 0 then None else cl !! Z.to_nat i.

(** [cluster[i] = c], inside the array. *)
Definition set_cell (cl : list vEBNode) (i : Z) (c : vEBNode) : list vEBNode :=
  <[Z.to_nat i := c]> cl.

(** A recursive call [f(cluster[i], ...)] that reads: written as a
    traversal of the array so that the recursion is structural. *)
Definition call_cell {B : Type} (f : vEBNode → option B) : list vEBNode → nat → option B :=
  fix go cl n :=
    match cl with
    | [] => None
    | c :: cl' => match n with O => f c | S n' => go cl' n' end
    end.

(** A recursive call [f(cluster[i], ...)] that mutates the cell. *)
Definition update_cell (f : vEBNode → option vEBNode)
  : list vEBNode → nat → option (list vEBNode) :=
  fix go cl n :=
    match cl with
    | [] => None
    | c :: cl' =>
      match n with
      | O => match f c with Some c' => Some (c' :: cl') | None => None end
      | S n' => match go cl' n' with Some r => Some (c :: r) | None => None end
      end
    end.

Definition on_cell {B : Type} (f : vEBNode → option B) (cl : list vEBNode) (i : Z) : option B :=
  if i <? 0 then None else call_cell f cl (Z.to_nat i).

Definition in_cell (f : vEBNode → option vEBNode) (cl : list vEBNode) (i : Z)
  : option (list vEBNode) :=
  if i <? 0 then None else update_cell f cl (Z.to_nat i).

(** ** Construction *)

(** [log2_int]: [(int)round(log2(x))].  It is called only after the
    power-of-two test of [vEB_create], where the rounded logarithm is the
    exact one. *)
Definition log2_int (x : Z) : Z := Z.log2 x.

(** The loop [for (i = 0; i < upper_sqrt; i++) cluster[i] = vEB_create(lower_sqrt)];
    [create] is what the call [vEB_create(lower_sqrt)] returns, the same in
    every round. *)
Fixpoint create_clusters (create : option vEBNode) (n : nat) : option (list vEBNode) :=
  match n with
  | O => Some []
  | S n' => c ← create; cs ← create_clusters create n'; Some (c :: cs)
  end.

(** [vEB_create]; the recursion is on the universe size, which the fuel
    bounds.  [None]: the process exits, or the fuel ran out; with the fuel
    [vEB_create] gives, only the former ([vEB_create_defined]). *)
Fixpoint vEB_create_fuel (fuel : nat) (U : Z) : option vEBNode :=
  match fuel with
  | O => None
  | S fuel' =>
    if U <? 2 then None
    else if negb (Z.land U (U - 1) =? 0) then None
    else if U <=? 2 then Some (mkNode U (-1) (-1) None [] 0 0)
    else
      let lg := log2_int U in
      let half := lg ÷ 2 in
      let lo := Z.shiftl 1 half in
      let up := Z.shiftl 1 (lg - half) in
      s ← vEB_create_fuel fuel' up;
      cl ← create_clusters (vEB_create_fuel fuel' lo) (Z.to_nat up);
      Some (mkNode U (-1) (-1) (Some s) cl lo up)
  end.

Definition vEB_create (U : Z) : option vEBNode := vEB_create_fuel (Z.to_nat U) U.

(** ** Helpers to split and join keys *)

Definition high (V : vEBNode) (x : Z) : Z := x ÷ lower_sqrt V.
Definition low (V : vEBNode) (x : Z) : Z := Z.rem x (lower_sqrt V).
Definition idx (V : vEBNode) (h l : Z) : Z := h * lower_sqrt V + l.

Definition vEB_min (V : vEBNode) : Z := min V.
Definition vEB_max (V : vEBNode) : Z := max V.

(** ** Operations *)

Definition vEB_empty_insert (V : vEBNode) (x : Z) : vEBNode :=
  match V with mkNode u _ _ s cl lo up => mkNode u x x s cl lo up end.

(** [vEB_member].  The [!V] guard of the C function is never taken: a node
    value is never NULL here, and a missing cell is an undefined read. *)
Fixpoint vEB_member (V : vEBNode) (x : Z) : option bool :=
  match V with
  | mkNode u mn mx s cl lo up =>
    if (x =? mn) || (x =? mx) then Some true
    else if u <=? 2 then Some false
    else on_cell (λ c, vEB_member c (low V x)) cl (high V x)
  end.

Fixpoint vEB_insert (V : vEBNode) (x : Z) : option vEBNode :=
  match V with
  | mkNode u mn mx s cl lo up =>
    if (x <? 0) || (x >=? u) then Some V
    else
      b ← vEB_member V x;
      if b : bool then Some V
      else if mn =? -1 then Some (vEB_empty_insert V x)
      else
        (* if (x < V->min) { tmp = x; x = V->min; V->min = tmp; } *)
        let '(x, mn) := if x <? mn then (mn, x) else (x, mn) in
        children ←
          (if u >? 2 then
             let h := high V x in
             let l := low V x in
             c ← cell cl h;
             if min c =? -1 then
               s' ← (sm ← s; vEB_insert sm h);
               Some (Some s', set_cell cl h (vEB_empty_insert c l))
             else
               cl' ← in_cell (λ c, vEB_insert c l) cl h;
               Some (s, cl')
           else Some (s, cl));
        let '(s, cl) := children in
        (* if (x > V->max) V->max = x; *)
        Some (mkNode u mn (if x >? mx then x else mx) s cl lo up)
  end.

Fixpoint vEB_successor (V : vEBNode) (x : Z) : option Z :=
  match V with
  | mkNode u mn mx s cl lo up =>
    if u <=? 2 then
      if (x =? 0) && (mx =? 1) then Some 1 else Some (-1)
    else if negb (mn =? -1) && (x <? mn) then Some mn
    else
      let h := high V x in
      let l := low V x in
      c ← cell cl h;
      let max_low := vEB_max c in
      if negb (max_low =? -1) && (l <? max_low) then
        off ← on_cell (λ c, vEB_successor c l) cl h;
        Some (idx V h off)
      else
        succ_c ← (sm ← s; vEB_successor sm h);
        if succ_c =? -1 then Some (-1)
        else
          c' ← cell cl succ_c;
          Some (idx V succ_c (vEB_min c'))
  end.

Fixpoint vEB_predecessor (V : vEBNode) (x : Z) : option Z :=
  match V with
  | mkNode u mn mx s cl lo up =>
    if u <=? 2 then
      if (x =? 1) && (mn =? 0) then Some 0 else Some (-1)
    else if negb (mx =? -1) && (x >? mx) then Some mx
    else
      let h := high V x in
      let l := low V x in
      c ← cell cl h;
      let min_low := vEB_min c in
      if negb (min_low =? -1) && (l >? min_low) then
        off ← on_cell (λ c, vEB_predecessor c l) cl h;
        Some (idx V h off)
      else
        pred_c ← (sm ← s; vEB_predecessor sm h);
        if pred_c =? -1 then
          if negb (mn =? -1) && (x >? mn) then Some mn else Some (-1)
        else
          c' ← cell cl pred_c;
          Some (idx V pred_c (vEB_max c'))
  end.

Fixpoint vEB_delete (V : vEBNode) (x : Z) : option vEBNode :=
  match V with
  | mkNode u mn mx s cl lo up =>
    if (x <? 0) || (x >=? u) then Some V
    else if mn =? mx then Some (mkNode u (-1) (-1) s cl lo up)
    else if u =? 2 then
      let v := if x =? 0 then 1 else 0 in
      Some (mkNode u v v s cl lo up)
    else
      (* if (x == V->min) { x = idx(first, off); V->min = x; } *)
      x' ← (if x =? mn then
              sm ← s;
              let first := vEB_min sm in
              c ← cell cl first;
              Some (idx V first (vEB_min c))
            else Some x);
      let mn' := if x =? mn then x' else mn in
      let h := high V x' in
      let l := low V x' in
      cl' ← in_cell (λ c, vEB_delete c l) cl h;
      c ← cell cl' h;
      if vEB_min c =? -1 then
        s' ← (sm ← s; vEB_delete sm h);
        if x' =? mx then
          let smax := vEB_max s' in
          if smax =? -1 then Some (mkNode u mn' mn' (Some s') cl' lo up)
          else
            c' ← cell cl' smax;
            Some (mkNode u mn' (idx V smax (vEB_max c')) (Some s') cl' lo up)
        else Some (mkNode u mn' mx (Some s') cl' lo up)
      else if x' =? mx then Some (mkNode u mn' (idx V h (vEB_max c)) s cl' lo up)
      else Some (mkNode u mn' mx s cl' lo up)
  end.

(** ** Runs of the public operations *)

Inductive op : Type := Insert (x : Z) | Delete (x : Z).

Definition step (V : vEBNode) (o : op) : option vEBNode :=
  match o with
  | Insert x => vEB_insert V x
  | Delete x => vEB_delete V x
  end.

Fixpoint run (V : vEBNode) (os : list op) : option vEBNode :=
  match os with
  | [] => Some V
  | o :: os' => V' ← step V o; run V' os'
  end.

(** The tree after [vEB_create(U)] and the calls [os], in order. *)
Definition build (U : Z) (os : list op) : option vEBNode :=
  V ← vEB_create U; run V os.

(** A query on the tree a run has built, and the fields a caller reads. *)
Definition ask {A : Type} (f : vEBNode → Z → option A) (t : option vEBNode) (x : Z)
  : option A :=
  V ← t; f V x.

Definition min_max (t : option vEBNode) : option (Z * Z) :=
  V ← t; Some (min V, max V).

(** The trees a caller can hold: made by [vEB_create] and changed by any
    calls of [vEB_insert] and [vEB_delete] that return. *)
Inductive reachable : vEBNode → Prop :=
| reachable_create U V : vEB_create U = Some V → reachable V
| reachable_insert V x V' : reachable V → vEB_insert V x = Some V' → reachable V'
| reachable_delete V x V' : reachable V → vEB_delete V x = Some V' → reachable V'.

(** ** Shape of a tree

    [wf k V]: [V] has the shape [vEB_create (2^k)] gives it, and every
    [min] and [max] is the sentinel or a key of the node's universe.  The
    operations keep this also where they lose elements. *)
Definition pow2 (k : nat) : Z := 2 ^ Z.of_nat k.

#[warnings="-register-all"]
Inductive wf : nat → vEBNode → Prop :=
| wf_leaf mn mx :
    -1 ≤ mn < 2 → -1 ≤ mx < 2 →
    wf 1 (mkNode 2 mn mx None [] 0 0)
| wf_node k mn mx s cl :
    (2 ≤ k)%nat →
    -1 ≤ mn < pow2 k → -1 ≤ mx < pow2 k →
    wf (k - k / 2) s →
    length cl = Z.to_nat (pow2 (k - k / 2)) →
    Forall (wf (k / 2)) cl →
    wf k (mkNode (pow2 k) mn mx (Some s) cl (pow2 (k / 2)) (pow2 (k - k / 2))).

(** The nodes of a tree: the tree itself, and the nodes of its summary and
    of its clusters. *)
Inductive node_of : vEBNode → vEBNode → Prop :=
| node_here V : node_of V V
| node_summary N V s : summary V = Some s → node_of N s → node_of N V
| node_cluster N V c : c ∈ cluster V → node_of N c → node_of N V.

(** The number of nodes on the longest path from a node down to a base
    case: a bound on the depth of the recursion of every operation. *)
Fixpoint depth (V : vEBNode) : nat :=
  match V with
  | mkNode _ _ _ s cl _ _ =>
    S (Nat.max (from_option depth O s) (foldr (λ c d, Nat.max (depth c) d) O cl))
  end.

(** ** The set a tree represents

    [repr k V S]: the tree [V] of universe [2^k] holds exactly the keys of
    the set [S].  [min] and [max] are the least and the greatest key of
    [S], or both the sentinel; the minimum is kept in the node only, every
    other key [x] is held by the cell [high x] as [low x], and the summary
    holds the indices of the cells that hold a key. *)
Definition extremes (S : Z → Prop) (mn mx : Z) : Prop :=
  (mn = -1 ∧ mx = -1 ∧ ∀ x, ¬ S x) ∨
  (S mn ∧ S mx ∧ ∀ y, S y → mn ≤ y ≤ mx).

(** The keys held by cell [i], as offsets. *)
Definition sub (S : Z → Prop) (mn lo i : Z) : Z → Prop :=
  λ l, 0 ≤ l < lo ∧ S (i * lo + l) ∧ i * lo + l ≠ mn.

(** The cells that hold a key. *)
Definition occupied (S : Z → Prop) (mn lo up : Z) : Z → Prop :=
  λ i, 0 ≤ i < up ∧ ∃ l, sub S mn lo i l.

Inductive repr : nat → vEBNode → (Z → Prop) → Prop :=
| repr_leaf S mn mx :
    (∀ x, S x → 0 ≤ x < 2) → extremes S mn mx →
    repr 1 (mkNode 2 mn mx None [] 0 0) S
| repr_node k S mn mx s cl :
    (2 ≤ k)%nat →
    (∀ x, S x → 0 ≤ x < pow2 k) → extremes S mn mx →
    length cl = Z.to_nat (pow2 (k - k / 2)) →
    (∀ i c, cell cl i = Some c → repr (k / 2) c (sub S mn (pow2 (k / 2)) i)) →
    repr (k - k / 2) s (occupied S mn (pow2 (k / 2)) (pow2 (k - k / 2))) →
    repr k (mkNode (pow2 k) mn mx (Some s) cl (pow2 (k / 2)) (pow2 (k - k / 2))) S.

(** The trees made by [vEB_create], [vEB_insert] and [vEB_delete] of a
    member. *)
Inductive built : vEBNode → Prop :=
| built_create U V : vEB_create U = Some V → built V
| built_insert V x V' : built V → vEB_insert V x = Some V' → built V'
| built_delete V x V' :
    built V → vEB_member V x = Some true → vEB_delete V x = Some V' → built V'.

(** A key of the universe that [vEB_member] finds. *)
Definition stored (V : vEBNode) (x : Z) : Prop :=
  0 ≤ x < u V ∧ vEB_member V x = Some true.

(** ** The report on stderr

    [vEB_insert] and [vEB_delete] with what they print: the procedures
    above, with the lines the run writes to stderr, in order.  The nested
    calls print as well. *)

(** A line [fprintf(stderr, "Error: Value %d out of bounds (U = %d)\n", x, V->u)]. *)
Inductive report : Type := out_of_bounds (x U : Z).

Module Stderr.

(** A recursive call [f(cluster[i], ...)] that mutates the cell and may
    print. *)
Definition update_cell (f : vEBNode → option (vEBNode * list report))
  : list vEBNode → nat → option (list vEBNode * list report) :=
  fix go cl n :=
    match cl with
    | [] => None
    | c :: cl' =>
      match n with
      | O => match f c with Some (c', w) => Some (c' :: cl', w) | None => None end
      | S n' => match go cl' n' with Some (r, w) => Some (c :: r, w) | None => None end
      end
    end.

Definition in_cell (f : vEBNode → option (vEBNode * list report)) (cl : list vEBNode) (i : Z)
  : option (list vEBNode * list report) :=
  if i <? 0 then None else update_cell f cl (Z.to_nat i).

Fixpoint vEB_insert (V : vEBNode) (x : Z) : option (vEBNode * list report) :=
  match V with
  | mkNode u mn mx s cl lo up =>
    if (x <? 0) || (x >=? u) then Some (V, [out_of_bounds x u])
    else
      b ← vEB_member V x;
      if b : bool then Some (V, [])
      else if mn =? -1 then Some (vEB_empty_insert V x, [])
      else
        let '(x, mn) := if x <? mn then (mn, x) else (x, mn) in
        children ←
          (if u >? 2 then
             let h := high V x in
             let l := low V x in
             c ← cell cl h;
             if min c =? -1 then
               r ← (sm ← s; vEB_insert sm h);
               Some (Some r.1, set_cell cl h (vEB_empty_insert c l), r.2)
             else
               r ← in_cell (λ c, vEB_insert c l) cl h;
               Some (s, r.1, r.2)
           else Some (s, cl, []));
        let '(s, cl, w) := children in
        Some (mkNode u mn (if x >? mx then x else mx) s cl lo up, w)
  end.

Fixpoint vEB_delete (V : vEBNode) (x : Z) : option (vEBNode * list report) :=
  match V with
  | mkNode u mn mx s cl lo up =>
    if (x <? 0) || (x >=? u) then Some (V, [out_of_bounds x u])
    else if mn =? mx then Some (mkNode u (-1) (-1) s cl lo up, [])
    else if u =? 2 then
      let v := if x =? 0 then 1 else 0 in
      Some (mkNode u v v s cl lo up, [])
    else
      x' ← (if x =? mn then
              sm ← s;
              let first := vEB_min sm in
              c ← cell cl first;
              Some (idx V first (vEB_min c))
            else Some x);
      let mn' := if x =? mn then x' else mn in
      let h := high V x' in
      let l := low V x' in
      r ← in_cell (λ c, vEB_delete c l) cl h;
      let cl' := r.1 in
      c ← cell cl' h;
      if vEB_min c =? -1 then
        r' ← (sm ← s; vEB_delete sm h);
        let s' := r'.1 in
        let w := r.2 ++ r'.2 in
        if x' =? mx then
          let smax := vEB_max s' in
          if smax =? -1 then Some (mkNode u mn' mn' (Some s') cl' lo up, w)
          else
            c' ← cell cl' smax;
            Some (mkNode u mn' (idx V smax (vEB_max c')) (Some s') cl' lo up, w)
        else Some (mkNode u mn' mx (Some s') cl' lo up, w)
      else if x' =? mx then Some (mkNode u mn' (idx V h (vEB_max c)) s cl' lo up, r.2)
      else Some (mkNode u mn' mx s cl' lo up, r.2)
  end.

End Stderr.

(** ** Allocation

    [vEB_create] with its calls of [malloc] and [calloc]: [ok i] tells
    whether the [i]-th allocation of the run succeeds, [n] counts the
    allocations made so far.  A failed allocation ends the run in
    [exit(EXIT_FAILURE)].  [vEB_create] above is the run in which every
    allocation succeeds. *)
Module Alloc.

Fixpoint create_clusters (create : nat → option (vEBNode * nat)) (k n : nat)
  : option (list vEBNode * nat) :=
  match k with
  | O => Some ([], n)
  | S k' =>
    r ← create n;
    rs ← create_clusters create k' r.2;
    Some (r.1 :: rs.1, rs.2)
  end.

Fixpoint vEB_create_fuel (ok : nat → bool) (fuel : nat) (n : nat) (U : Z)
  : option (vEBNode * nat) :=
  match fuel with
  | O => None
  | S fuel' =>
    if U <? 2 then None
    else if negb (Z.land U (U - 1) =? 0) then None
    else if negb (ok n) then None                (* malloc(sizeof(vEBNode)) *)
    else if U <=? 2 then Some (mkNode U (-1) (-1) None [] 0 0, S n)
    else
      let lg := log2_int U in
      let half := lg ÷ 2 in
      let lo := Z.shiftl 1 half in
      let up := Z.shiftl 1 (lg - half) in
      r ← vEB_create_fuel ok fuel' (S n) up;
      if negb (ok r.2) then None                 (* calloc(upper_sqrt, ...) *)
      else
        rs ← create_clusters (λ m, vEB_create_fuel ok fuel' m lo) (Z.to_nat up) (S r.2);
        Some (mkNode U (-1) (-1) (Some r.1) rs.1 lo up, rs.2)
  end.

Definition vEB_create (ok : nat → bool) (n : nat) (U : Z) : option (vEBNode * nat) :=
  vEB_create_fuel ok (Z.to_nat U) n U.

End Alloc.

(** ** Teardown and shape *)

(** The heap blocks of a tree, by the path from the root to the node they
    belong to: the struct of the node, and its [cluster] array. *)
Inductive edge : Type := summary_of | cluster_of (i : nat).

Inductive block : Type := node_block (p : list edge) | array_block (p : list edge).

(** A block of a child, seen from the parent. *)
Definition under (e : edge) (b : block) : block :=
  match b with
  | node_block p => node_block (e :: p)
  | array_block p => array_block (e :: p)
  end.

(** The loop [for (i = 0; i < upper_sqrt; i++) vEB_free(cluster[i])]: the
    blocks released in the rounds [l], [f i] those of round [i]. *)
Fixpoint free_loop (f : nat → option (list block)) (l : list nat) : option (list block) :=
  match l with
  | [] => Some []
  | i :: l' => b ← f i; r ← free_loop f l'; Some (b ++ r)
  end.

(** [vEB_free], as the blocks it passes to [free], in order: for a node
    with a cluster array, the blocks of the cells [0 .. upper_sqrt - 1] and
    the array; then the blocks of the summary ([vEB_free(NULL)] returns at
    once); then the node. *)
Fixpoint vEB_free (V : vEBNode) : option (list block) :=
  match V with
  | mkNode u mn mx s cl lo up =>
    cells ←
      match cl with
      | [] => Some []
      | _ =>
        bs ← free_loop (λ i, bs ← on_cell vEB_free cl (Z.of_nat i);
                             Some (fmap (M:=list) (under (cluster_of i)) bs))
               (seq 0 (Z.to_nat up));
        Some (bs ++ [array_block []])
      end;
    sm ← match s with
         | None => Some []
         | Some sm => bs ← vEB_free sm; Some (fmap (M:=list) (under summary_of) bs)
         end;
    Some (cells ++ sm ++ [node_block []])
  end.

(** The blocks a tree is made of. *)
Inductive has_block : vEBNode → block → Prop :=
| block_node V : has_block V (node_block [])
| block_array V : cluster V ≠ [] → has_block V (array_block [])
| block_summary V s b :
    summary V = Some s → has_block s b → has_block V (under summary_of b)
| block_cluster V i c b :
    cluster V !! i = Some c → has_block c b → has_block V (under (cluster_of i) b).

(** The tree with every [min] and [max] reset to the sentinel: what
    [vEB_insert] and [vEB_delete] never write to. *)
Fixpoint skeleton (V : vEBNode) : vEBNode :=
  match V with
  | mkNode u mn mx s cl lo up =>
    mkNode u (-1) (-1) (skeleton <$> s) (skeleton <$> cl) lo up
  end.

(** The heap blocks of a tree: one for each node, and one for each
    cluster array. *)
Fixpoint blocks (V : vEBNode) : nat :=
  match V with
  | mkNode u mn mx s cl lo up =>
    (1 + from_option blocks O s +
     match cl with [] => O | _ => 1 + foldr (λ c n, blocks c + n) O cl end)%nat
  end.

(** * Proofs *)

(** ** Array cells *)

Lemma on_cell_cell {B} (f : vEBNode → option B) cl i :
  on_cell f cl i = cell cl i ≫= f.
Proof.
  unfold on_cell, cell. destruct (i <? 0); [reflexivity|].
  generalize (Z.to_nat i) as n. induction cl as [|c cl IH]; intros [|n]; simpl; auto.
Qed.

Lemma in_cell_cell f cl i :
  in_cell f cl i = c ← cell cl i; c' ← f c; Some (set_cell cl i c').
Proof.
  unfold in_cell, cell, set_cell. destruct (i <? 0); [reflexivity|].
  generalize (Z.to_nat i) as n. induction cl as [|c cl IH]; intros [|n]; simpl; auto.
  rewrite IH. destruct (cl !! n) as [d|]; simpl; [|reflexivity]. destruct (f d); reflexivity.
Qed.

Lemma cell_Some cl i c :
  cell cl i = Some c ↔ 0 ≤ i ∧ cl !! Z.to_nat i = Some c.
Proof.
  unfold cell. destruct (Z.ltb_spec i 0); split.
  - discriminate.
  - intros [? _]; lia.
  - intros ?; split; [lia|assumption].
  - intros [_ ?]; assumption.
Qed.

Lemma cell_lookup cl i :
  0 ≤ i < Z.of_nat (length cl) → ∃ c, cell cl i = Some c ∧ c ∈ cl.
Proof.
  intros Hi. destruct (lookup_lt_is_Some_2 cl (Z.to_nat i)) as [c Hc]; [lia|].
  exists c. split; [apply cell_Some; split; [lia|done]|].
  eapply list_elem_of_lookup_2; eauto.
Qed.

Lemma cell_None_ge cl i : Z.of_nat (length cl) ≤ i → cell cl i = None.
Proof.
  intros Hi. unfold cell. destruct (Z.ltb_spec i 0); [done|].
  apply lookup_ge_None_2. lia.
Qed.

Lemma cell_None_neg cl i : i < 0 → cell cl i = None.
Proof. intros Hi. unfold cell. destruct (Z.ltb_spec i 0); [done|lia]. Qed.

Lemma cell_set_eq cl i c d :
  cell cl i = Some d → cell (set_cell cl i c) i = Some c.
Proof.
  rewrite !cell_Some. intros [? Hd]. split; [done|].
  unfold set_cell. apply list_lookup_insert_eq. eapply lookup_lt_Some; eauto.
Qed.

Lemma cell_set_ne cl i j c :
  0 ≤ i → 0 ≤ j → i ≠ j → cell (set_cell cl i c) j = cell cl j.
Proof.
  intros Hi Hj Hne. unfold cell, set_cell.
  destruct (j <? 0); [done|]. apply list_lookup_insert_ne. lia.
Qed.

(** ** Powers of two and the key split *)

Lemma pow2_pos k : 0 < pow2 k.
Proof. unfold pow2. apply Z.pow_pos_nonneg; lia. Qed.

Lemma pow2_S k : pow2 (S k) = 2 * pow2 k.
Proof. unfold pow2. rewrite Nat2Z.inj_succ, Z.pow_succ_r; lia. Qed.

Lemma pow2_add a b : pow2 (a + b) = pow2 a * pow2 b.
Proof. unfold pow2. rewrite Nat2Z.inj_add, Z.pow_add_r; lia. Qed.

Lemma pow2_ge_2 k : (1 ≤ k)%nat → 2 ≤ pow2 k.
Proof. destruct k; [lia|]. intros _. rewrite pow2_S. pose proof (pow2_pos k). lia. Qed.

Lemma pow2_lt a b : (a < b)%nat → pow2 a < pow2 b.
Proof. intros H. unfold pow2. apply Z.pow_lt_mono_r; lia. Qed.

Lemma pow2_1 : pow2 1 = 2.
Proof. reflexivity. Qed.

Lemma half_bounds k : (2 ≤ k)%nat → (1 ≤ k / 2 ∧ k / 2 < k ∧ 1 ≤ k - k / 2 ∧ k - k / 2 < k)%nat.
Proof.
  intros Hk. pose proof (Nat.div_mod_eq k 2) as E.
  pose proof (Nat.mod_upper_bound k 2 ltac:(lia)). lia.
Qed.

Lemma pow2_split k : (2 ≤ k)%nat → pow2 (k - k / 2) * pow2 (k / 2) = pow2 k.
Proof.
  intros Hk. rewrite <- pow2_add. f_equal. pose proof (half_bounds k Hk). lia.
Qed.

Lemma pow2_gt_2 k : (2 ≤ k)%nat → 2 < pow2 k.
Proof. intros Hk. pose proof (pow2_lt 1 k ltac:(lia)). rewrite pow2_1 in *. lia. Qed.

Lemma split_range lo up x :
  0 < lo → 0 ≤ x < up * lo →
  0 ≤ x ÷ lo < up ∧ 0 ≤ Z.rem x lo < lo ∧ x = (x ÷ lo) * lo + Z.rem x lo.
Proof.
  intros Hlo Hx.
  rewrite Z.quot_div_nonneg, Z.rem_mod_nonneg by lia.
  pose proof (Z.mod_pos_bound x lo Hlo).
  pose proof (Z.div_mod x lo ltac:(lia)).
  repeat split; try lia.
  - apply Z.div_pos; lia.
  - apply Z.div_lt_upper_bound; lia.
Qed.

Lemma join_split lo h l :
  0 ≤ h → 0 ≤ l < lo → (h * lo + l) ÷ lo = h ∧ Z.rem (h * lo + l) lo = l.
Proof.
  intros Hh Hl.
  rewrite Z.quot_div_nonneg, Z.rem_mod_nonneg by nia.
  split.
  - rewrite Z.add_comm, Z.div_add by lia. rewrite Z.div_small by lia. lia.
  - rewrite Z.add_comm, Z.mod_add by lia. apply Z.mod_small; lia.
Qed.

Lemma land_pow2 k : Z.land (pow2 k) (pow2 k - 1) = 0.
Proof.
  unfold pow2. replace (2 ^ Z.of_nat k - 1) with (Z.ones (Z.of_nat k)).
  - rewrite Z.land_ones by lia. apply Z.mod_same.
    pose proof (pow2_pos k). unfold pow2 in *. lia.
  - rewrite Z.ones_equiv. lia.
Qed.

(** The test [(U & (U - 1)) != 0] of [vEB_create] lets only powers of two
    pass. *)
Lemma land_pred_pow2 U : 0 < U → Z.land U (U - 1) = 0 → U = 2 ^ Z.log2 U.
Proof.
  intros HU Hland.
  destruct (Z.log2_spec U HU) as [Hlo Hhi].
  destruct (Z.eq_dec U (2 ^ Z.log2 U)) as [|Hne]; [assumption|exfalso].
  pose proof (Z.log2_nonneg U) as Hk.
  assert (Hl : Z.log2 (U - 1) = Z.log2 U).
  { apply Z.log2_unique; [assumption|]. lia. }
  assert (Hb1 : Z.testbit U (Z.log2 U) = true) by (apply Z.bit_log2; lia).
  assert (Hb2 : Z.testbit (U - 1) (Z.log2 U) = true).
  { rewrite <- Hl. apply Z.bit_log2.
    assert (0 < 2 ^ Z.log2 U) by (apply Z.pow_pos_nonneg; lia). lia. }
  assert (Hb : Z.testbit (Z.land U (U - 1)) (Z.log2 U) = true)
    by (rewrite Z.land_spec, Hb1, Hb2; reflexivity).
  rewrite Hland, Z.bits_0 in Hb. discriminate.
Qed.

(** ** Unfolding equations of the operations *)

Lemma vEB_member_eq V x :
  vEB_member V x =
  if (x =? min V) || (x =? max V) then Some true
  else if u V <=? 2 then Some false
  else c ← cell (cluster V) (high V x); vEB_member c (low V x).
Proof.
  destruct V as [U mn mx s cl lo up]. cbn [vEB_member]. unfold high, low.
  cbn [u min max summary cluster lower_sqrt upper_sqrt].
  rewrite on_cell_cell. reflexivity.
Qed.

Lemma vEB_insert_eq V x :
  vEB_insert V x =
  if (x <? 0) || (x >=? u V) then Some V
  else
    b ← vEB_member V x;
    if b : bool then Some V
    else if min V =? -1 then Some (vEB_empty_insert V x)
    else
      let x' := if x <? min V then min V else x in
      let mn' := if x <? min V then x else min V in
      let mx' := if x' >? max V then x' else max V in
      if u V >? 2 then
        c ← cell (cluster V) (high V x');
        if min c =? -1 then
          s' ← (sm ← summary V; vEB_insert sm (high V x'));
          Some (mkNode (u V) mn' mx' (Some s')
                  (set_cell (cluster V) (high V x') (vEB_empty_insert c (low V x')))
                  (lower_sqrt V) (upper_sqrt V))
        else
          c' ← vEB_insert c (low V x');
          Some (mkNode (u V) mn' mx' (summary V)
                  (set_cell (cluster V) (high V x') c') (lower_sqrt V) (upper_sqrt V))
      else Some (mkNode (u V) mn' mx' (summary V) (cluster V) (lower_sqrt V) (upper_sqrt V)).
Proof.
  destruct V as [U mn mx s cl lo up]. cbn [vEB_insert]. unfold high, low.
  cbn [u min max summary cluster lower_sqrt upper_sqrt].
  destruct ((x <? 0) || (x >=? U)); [reflexivity|].
  destruct (vEB_member _ x) as [[|]|]; try reflexivity. cbn [mbind option_bind].
  destruct (mn =? -1); [reflexivity|].
  destruct (x <? mn); cbn zeta;
    (destruct (U >? 2); [|reflexivity]);
    rewrite in_cell_cell;
    (destruct (cell cl _) as [c|]; [|reflexivity]); cbn [mbind option_bind];
    (destruct (min c =? -1);
      [destruct s as [sm|]; [|reflexivity]; cbn [mbind option_bind];
       destruct (vEB_insert sm _); reflexivity
      |destruct (vEB_insert c _); reflexivity]).
Qed.

Lemma vEB_delete_eq V x :
  vEB_delete V x =
  if (x <? 0) || (x >=? u V) then Some V
  else if min V =? max V then
    Some (mkNode (u V) (-1) (-1) (summary V) (cluster V) (lower_sqrt V) (upper_sqrt V))
  else if u V =? 2 then
    let v := if x =? 0 then 1 else 0 in
    Some (mkNode (u V) v v (summary V) (cluster V) (lower_sqrt V) (upper_sqrt V))
  else
    x' ← (if x =? min V then
            sm ← summary V;
            c ← cell (cluster V) (vEB_min sm);
            Some (idx V (vEB_min sm) (vEB_min c))
          else Some x);
    let mn' := if x =? min V then x' else min V in
    c0 ← cell (cluster V) (high V x');
    c ← vEB_delete c0 (low V x');
    let cl' := set_cell (cluster V) (high V x') c in
    if vEB_min c =? -1 then
      s' ← (sm ← summary V; vEB_delete sm (high V x'));
      if x' =? max V then
        if vEB_max s' =? -1 then
          Some (mkNode (u V) mn' mn' (Some s') cl' (lower_sqrt V) (upper_sqrt V))
        else
          c' ← cell cl' (vEB_max s');
          Some (mkNode (u V) mn' (idx V (vEB_max s') (vEB_max c')) (Some s') cl'
                  (lower_sqrt V) (upper_sqrt V))
      else Some (mkNode (u V) mn' (max V) (Some s') cl' (lower_sqrt V) (upper_sqrt V))
    else if x' =? max V then
      Some (mkNode (u V) mn' (idx V (high V x') (vEB_max c)) (summary V) cl'
              (lower_sqrt V) (upper_sqrt V))
    else Some (mkNode (u V) mn' (max V) (summary V) cl' (lower_sqrt V) (upper_sqrt V)).
Proof.
  destruct V as [U mn mx s cl lo up].
  cbn [vEB_delete]. unfold high, low, idx.
  cbn [u min max summary cluster lower_sqrt upper_sqrt].
  destruct ((x <? 0) || (x >=? U)); [reflexivity|].
  destruct (mn =? mx); [reflexivity|].
  destruct (U =? 2); [reflexivity|].
  match goal with |- (?a ≫= _) = (?b ≫= _) => change b with a; destruct a as [x'|] end;
    [|reflexivity].
  cbn [mbind option_bind]. rewrite in_cell_cell.
  destruct (cell cl (x' ÷ lo)) as [c0|] eqn:Hc0; [|reflexivity]. cbn [mbind option_bind].
  destruct (vEB_delete c0 _) as [c|]; [|reflexivity]. cbn [mbind option_bind].
  erewrite cell_set_eq by eassumption. cbn [mbind option_bind].
  reflexivity.
Qed.

Lemma vEB_successor_eq V x :
  vEB_successor V x =
  if u V <=? 2 then
    if (x =? 0) && (max V =? 1) then Some 1 else Some (-1)
  else if negb (min V =? -1) && (x <? min V) then Some (min V)
  else
    c ← cell (cluster V) (high V x);
    if negb (vEB_max c =? -1) && (low V x <? vEB_max c) then
      off ← vEB_successor c (low V x);
      Some (idx V (high V x) off)
    else
      succ_c ← (sm ← summary V; vEB_successor sm (high V x));
      if succ_c =? -1 then Some (-1)
      else
        c' ← cell (cluster V) succ_c;
        Some (idx V succ_c (vEB_min c')).
Proof.
  destruct V as [U mn mx s cl lo up].
  cbn [vEB_successor]. unfold high, low, idx.
  cbn [u min max summary cluster lower_sqrt upper_sqrt].
  destruct (U <=? 2); [reflexivity|].
  destruct (negb (mn =? -1) && (x <? mn)); [reflexivity|].
  rewrite on_cell_cell.
  destruct (cell cl _) as [c|]; reflexivity.
Qed.

Lemma vEB_predecessor_eq V x :
  vEB_predecessor V x =
  if u V <=? 2 then
    if (x =? 1) && (min V =? 0) then Some 0 else Some (-1)
  else if negb (max V =? -1) && (x >? max V) then Some (max V)
  else
    c ← cell (cluster V) (high V x);
    if negb (vEB_min c =? -1) && (low V x >? vEB_min c) then
      off ← vEB_predecessor c (low V x);
      Some (idx V (high V x) off)
    else
      pred_c ← (sm ← summary V; vEB_predecessor sm (high V x));
      if pred_c =? -1 then
        if negb (min V =? -1) && (x >? min V) then Some (min V) else Some (-1)
      else
        c' ← cell (cluster V) pred_c;
        Some (idx V pred_c (vEB_max c')).
Proof.
  destruct V as [U mn mx s cl lo up].
  cbn [vEB_predecessor]. unfold high, low, idx.
  cbn [u min max summary cluster lower_sqrt upper_sqrt].
  destruct (U <=? 2); [reflexivity|].
  destruct (negb (mx =? -1) && (x >? mx)); [reflexivity|].
  rewrite on_cell_cell.
  destruct (cell cl _) as [c|]; reflexivity.
Qed.

Global Arguments vEB_member : simpl never.
Global Arguments vEB_insert : simpl never.
Global Arguments vEB_delete : simpl never.
Global Arguments vEB_successor : simpl never.
Global Arguments vEB_predecessor : simpl never.

(** ** Shape: what [wf] gives *)

Ltac fields :=
  cbn [u min max summary cluster lower_sqrt upper_sqrt vEB_min vEB_max vEB_empty_insert] in *.

Lemma wf_u k V : wf k V → u V = pow2 k.
Proof. destruct 1; reflexivity. Qed.

Lemma wf_k k V : wf k V → (1 ≤ k)%nat.
Proof. destruct 1; lia. Qed.

Lemma wf_min k V : wf k V → -1 ≤ min V < u V.
Proof. destruct 1; fields; lia. Qed.

Lemma wf_max k V : wf k V → -1 ≤ max V < u V.
Proof. destruct 1; fields; lia. Qed.

Lemma wf_u_ge k V : wf k V → 2 ≤ u V.
Proof. intros H. rewrite (wf_u _ _ H). apply pow2_ge_2. eapply wf_k; eauto. Qed.

(** A node with [u > 2]: its fields, its summary and its cells. *)
Lemma wf_node_inv k V :
  wf k V → 2 < u V →
  (2 ≤ k)%nat ∧ lower_sqrt V = pow2 (k / 2) ∧ upper_sqrt V = pow2 (k - k / 2) ∧
  (∃ s, summary V = Some s ∧ wf (k - k / 2) s) ∧
  Z.of_nat (length (cluster V)) = pow2 (k - k / 2) ∧
  Forall (wf (k / 2)) (cluster V).
Proof.
  destruct 1 as [|k mn mx s cl Hk Hmn Hmx Hs Hlen Hcl]; fields; [intros ?; lia|]. intros _.
  repeat split; eauto. rewrite Hlen. pose proof (pow2_pos (k - k / 2)). lia.
Qed.

Lemma wf_cell k V i :
  wf k V → 2 < u V → 0 ≤ i < upper_sqrt V →
  ∃ c, cell (cluster V) i = Some c ∧ wf (k / 2) c.
Proof.
  intros Hwf Hu Hi. destruct (wf_node_inv _ _ Hwf Hu) as (_ & _ & Hup & _ & Hlen & Hcl).
  destruct (cell_lookup (cluster V) i) as (c & Hc & Hin); [lia|].
  exists c. split; [assumption|]. rewrite Forall_forall in Hcl. auto.
Qed.

Lemma wf_cell_Some k V i c :
  wf k V → 2 < u V → cell (cluster V) i = Some c →
  0 ≤ i < upper_sqrt V ∧ wf (k / 2) c.
Proof.
  intros Hwf Hu Hc. destruct (wf_node_inv _ _ Hwf Hu) as (_ & _ & Hup & _ & Hlen & Hcl).
  apply cell_Some in Hc as [Hi Hc]. pose proof (lookup_lt_Some _ _ _ Hc).
  split; [lia|]. rewrite Forall_forall in Hcl. apply Hcl.
  eapply list_elem_of_lookup_2; eauto.
Qed.

(** The key split of a node with [u > 2] stays inside the node. *)
Lemma wf_split k V x :
  wf k V → 2 < u V → 0 ≤ x < u V →
  0 ≤ high V x < upper_sqrt V ∧ 0 ≤ low V x < lower_sqrt V ∧
  x = idx V (high V x) (low V x).
Proof.
  intros Hwf Hu Hx. destruct (wf_node_inv _ _ Hwf Hu) as (Hk & Hlo & Hup & _).
  unfold high, low, idx. rewrite Hlo, Hup. apply split_range; [apply pow2_pos|].
  rewrite pow2_split by assumption. rewrite <- (wf_u _ _ Hwf). assumption.
Qed.

Lemma wf_idx k V h l :
  wf k V → 2 < u V → 0 ≤ h < upper_sqrt V → -1 ≤ l < lower_sqrt V →
  -1 ≤ idx V h l < u V.
Proof.
  intros Hwf Hu Hh Hl. destruct (wf_node_inv _ _ Hwf Hu) as (Hk & Hlo & Hup & _).
  rewrite (wf_u _ _ Hwf), <- (pow2_split k Hk), <- Hlo, <- Hup. unfold idx. nia.
Qed.

Lemma wf_set_fields k V mn mx :
  wf k V → -1 ≤ mn < u V → -1 ≤ mx < u V →
  wf k (mkNode (u V) mn mx (summary V) (cluster V) (lower_sqrt V) (upper_sqrt V)).
Proof. destruct 1; fields; intros; constructor; auto. Qed.

Lemma wf_set_node k V mn mx s cl :
  wf k V → 2 < u V → -1 ≤ mn < u V → -1 ≤ mx < u V →
  wf (k - k / 2) s → length cl = length (cluster V) → Forall (wf (k / 2)) cl →
  wf k (mkNode (u V) mn mx (Some s) cl (lower_sqrt V) (upper_sqrt V)).
Proof.
  destruct 1; fields; intros; [lia|]. constructor; auto. congruence.
Qed.

Lemma wf_set_cell k cl i c :
  Forall (wf k) cl → wf k c → Forall (wf k) (set_cell cl i c).
Proof. intros. unfold set_cell. apply Forall_insert; assumption. Qed.

Lemma length_set_cell cl i c : length (set_cell cl i c) = length cl.
Proof. apply length_insert. Qed.

Lemma wf_empty_insert k V x :
  wf k V → 0 ≤ x < u V → wf k (vEB_empty_insert V x).
Proof. destruct 1; fields; intros; constructor; auto; lia. Qed.

(** ** [vEB_create] returns, and what it returns *)

Lemma create_clusters_Some c n : create_clusters (Some c) n = Some (replicate n c).
Proof. induction n as [|n IH]; simpl; [reflexivity|]. rewrite IH. reflexivity. Qed.

Lemma create_clusters_inv o n cl :
  create_clusters o n = Some cl → n = O ∧ cl = [] ∨ ∃ c, o = Some c ∧ cl = replicate n c.
Proof.
  destruct o as [c|].
  - rewrite create_clusters_Some. intros [= <-]. eauto.
  - destruct n; simpl; [intros [= <-]; auto|discriminate].
Qed.

Lemma create_step_eq fuel U :
  vEB_create_fuel (S fuel) U =
  if U <? 2 then None
  else if negb (Z.land U (U - 1) =? 0) then None
  else if U <=? 2 then Some (mkNode U (-1) (-1) None [] 0 0)
  else
    let lg := log2_int U in
    let half := lg ÷ 2 in
    let lo := Z.shiftl 1 half in
    let up := Z.shiftl 1 (lg - half) in
    s ← vEB_create_fuel fuel up;
    cl ← create_clusters (vEB_create_fuel fuel lo) (Z.to_nat up);
    Some (mkNode U (-1) (-1) (Some s) cl lo up).
Proof. reflexivity. Qed.

Lemma create_sqrt k :
  (2 ≤ k)%nat →
  Z.shiftl 1 (log2_int (pow2 k) ÷ 2) = pow2 (k / 2) ∧
  Z.shiftl 1 (log2_int (pow2 k) - log2_int (pow2 k) ÷ 2) = pow2 (k - k / 2).
Proof.
  intros Hk. unfold log2_int, pow2. rewrite Z.log2_pow2 by lia.
  rewrite Z.quot_div_nonneg by lia.
  assert (Z.of_nat k `div` 2 = Z.of_nat (k / 2)) as ->
    by (rewrite Nat2Z.inj_div; reflexivity).
  pose proof (half_bounds k Hk).
  rewrite <- Nat2Z.inj_sub by lia.
  rewrite !Z.shiftl_1_l. auto.
Qed.

Lemma vEB_create_fuel_wf fuel : ∀ k,
  (1 ≤ k ≤ fuel)%nat → ∃ V, vEB_create_fuel fuel (pow2 k) = Some V ∧ wf k V.
Proof.
  induction fuel as [|fuel IH]; intros k Hk; [lia|].
  rewrite create_step_eq.
  pose proof (pow2_ge_2 k ltac:(lia)) as H2.
  destruct (Z.ltb_spec (pow2 k) 2); [lia|].
  rewrite land_pow2. cbn [Z.eqb negb].
  destruct (Z.leb_spec (pow2 k) 2) as [Hle|Hgt].
  - assert (k = 1%nat) as ->.
    { destruct (decide (k = 1%nat)); [assumption|].
      pose proof (pow2_gt_2 k ltac:(lia)). lia. }
    rewrite pow2_1. eexists; split; [reflexivity|]. constructor; lia.
  - assert (2 ≤ k)%nat as Hk2.
    { destruct (decide (k = 1%nat)) as [->|]; [rewrite pow2_1 in Hgt|]; lia. }
    destruct (create_sqrt k Hk2) as [-> ->]. cbn zeta.
    pose proof (half_bounds k Hk2).
    destruct (IH (k - k / 2)%nat ltac:(lia)) as (s & -> & Hs).
    destruct (IH (k / 2)%nat ltac:(lia)) as (c & -> & Hc).
    rewrite create_clusters_Some. cbn [mbind option_bind].
    eexists; split; [reflexivity|].
    constructor; auto; try lia.
    + apply length_replicate.
    + apply Forall_replicate. assumption.
Qed.

Lemma pow2_fuel k : (k ≤ Z.to_nat (pow2 k))%nat.
Proof.
  induction k as [|k IH]; [lia|]. rewrite pow2_S. pose proof (pow2_pos k). lia.
Qed.

Lemma vEB_create_wf k :
  (1 ≤ k)%nat → ∃ V, vEB_create (pow2 k) = Some V ∧ wf k V.
Proof.
  intros Hk. apply vEB_create_fuel_wf. pose proof (pow2_fuel k). lia.
Qed.

Lemma pow2_inj a b : pow2 a = pow2 b → a = b.
Proof.
  intros H. destruct (lt_eq_lt_dec a b) as [[Hlt|]|Hlt]; [|assumption|];
    apply pow2_lt in Hlt; lia.
Qed.

Lemma vEB_create_fuel_inv fuel : ∀ U V,
  vEB_create_fuel fuel U = Some V → ∃ k, wf k V ∧ U = pow2 k.
Proof.
  induction fuel as [|fuel IH]; intros U V; [discriminate|].
  rewrite create_step_eq.
  destruct (Z.ltb_spec U 2); [discriminate|].
  destruct (Z.eqb_spec (Z.land U (U - 1)) 0) as [Hland|]; [|discriminate]. cbn [negb].
  apply land_pred_pow2 in Hland; [|lia].
  pose proof (Z.log2_nonneg U) as Hnn.
  assert (U = pow2 (Z.to_nat (Z.log2 U))) as HU.
  { unfold pow2. rewrite Z2Nat.id by assumption. assumption. }
  set (k := Z.to_nat (Z.log2 U)) in *. clearbody k.
  destruct (Z.leb_spec U 2) as [Hle|Hgt].
  - intros [= <-]. assert (U = 2) as -> by lia.
    exists 1%nat. split; [constructor; lia|reflexivity].
  - subst U. assert (2 ≤ k)%nat as Hk2.
    { destruct k as [|[|k]]; [| |lia]; vm_compute in Hgt; discriminate. }
    destruct (create_sqrt k Hk2) as [-> ->]. cbn zeta.
    pose proof (half_bounds k Hk2).
    destruct (vEB_create_fuel fuel (pow2 (k - k / 2))) as [s|] eqn:Hs; [|discriminate].
    cbn [mbind option_bind].
    destruct (create_clusters _ _) as [cl|] eqn:Hcl; [|discriminate].
    cbn [mbind option_bind]. intros [= <-].
    exists k. split; [|reflexivity].
    destruct (IH _ _ Hs) as (k1 & Hwfs & Hk1). apply pow2_inj in Hk1. subst k1.
    pose proof (pow2_pos (k - k / 2)).
    apply create_clusters_inv in Hcl as [[Hn _]|(c & Hc & ->)]; [lia|].
    destruct (IH _ _ Hc) as (k2 & Hwfc & Hk2'). apply pow2_inj in Hk2'. subst k2.
    constructor; auto; try lia.
    + apply length_replicate.
    + apply Forall_replicate. assumption.
Qed.

Lemma vEB_create_inv U V : vEB_create U = Some V → ∃ k, wf k V ∧ U = pow2 k.
Proof. apply vEB_create_fuel_inv. Qed.

(** [vEB_create] exits exactly on the sizes its two tests refuse. *)
Lemma vEB_create_defined U :
  is_Some (vEB_create U) ↔ 2 ≤ U ∧ Z.land U (U - 1) = 0.
Proof.
  split.
  - intros [V HV]. destruct (vEB_create_inv _ _ HV) as (k & Hwf & ->).
    split; [apply pow2_ge_2; eapply wf_k; eauto|apply land_pow2].
  - intros [HU Hland]. apply land_pred_pow2 in Hland; [|lia].
    pose proof (Z.log2_nonneg U) as Hnn.
    assert (U = pow2 (Z.to_nat (Z.log2 U))) as ->.
    { unfold pow2. rewrite Z2Nat.id by assumption. assumption. }
    destruct (vEB_create_wf (Z.to_nat (Z.log2 U))) as (V & -> & _); [|eauto].
    assert (1 ≤ Z.log2 U) by (apply Z.log2_le_pow2; lia). lia.
Qed.

(** ** The operations on any tree of the right shape *)

(** Where the recursive calls go: the cell of a key, and the summary. *)
Lemma wf_descend k V x :
  wf k V → 2 < u V → 0 ≤ x < u V →
  (k / 2 < k)%nat ∧
  ∃ c, cell (cluster V) (high V x) = Some c ∧ wf (k / 2) c ∧ 0 ≤ low V x < u c.
Proof.
  intros Hwf Hu Hx. destruct (wf_split _ _ _ Hwf Hu Hx) as (Hh & Hl & _).
  destruct (wf_cell _ _ _ Hwf Hu Hh) as (c & Hc & Hwfc).
  destruct (wf_node_inv _ _ Hwf Hu) as (Hk & Hlo & _).
  split; [apply half_bounds; assumption|].
  exists c. rewrite (wf_u _ _ Hwfc), <- Hlo. auto.
Qed.

Lemma wf_summary k V x :
  wf k V → 2 < u V → 0 ≤ x < u V →
  (k - k / 2 < k)%nat ∧
  ∃ s, summary V = Some s ∧ wf (k - k / 2) s ∧ 0 ≤ high V x < u s.
Proof.
  intros Hwf Hu Hx. destruct (wf_split _ _ _ Hwf Hu Hx) as (Hh & _).
  destruct (wf_node_inv _ _ Hwf Hu) as (Hk & _ & Hup & (s & Hs & Hwfs) & _).
  split; [apply half_bounds; assumption|].
  exists s. rewrite (wf_u _ _ Hwfs), <- Hup. auto.
Qed.

Lemma vEB_member_cached V x :
  x = min V ∨ x = max V → vEB_member V x = Some true.
Proof.
  intros H. rewrite vEB_member_eq.
  destruct (Z.eqb_spec x (min V)); [reflexivity|].
  destruct (Z.eqb_spec x (max V)); [reflexivity|]. tauto.
Qed.

(** [vEB_member] answers every key of the universe. *)
Lemma vEB_member_total k : ∀ V x,
  wf k V → 0 ≤ x < u V → ∃ b, vEB_member V x = Some b.
Proof.
  induction k as [k IH] using lt_wf_ind. intros V x Hwf Hx.
  rewrite vEB_member_eq.
  destruct (_ || _); [eauto|].
  destruct (Z.leb_spec (u V) 2) as [|Hu]; [eauto|].
  destruct (wf_descend _ _ _ Hwf Hu Hx) as (Hlt & c & -> & Hwfc & Hl).
  cbn [mbind option_bind]. eapply IH; eauto.
Qed.

(** [vEB_insert] returns on every tree of the right shape, keeps the
    shape, and the key is a member afterwards. *)
Lemma vEB_insert_wf k : ∀ V x,
  wf k V →
  ∃ V', vEB_insert V x = Some V' ∧ wf k V' ∧
        (0 ≤ x < u V → vEB_member V' x = Some true).
Proof.
  induction k as [k IH] using lt_wf_ind. intros V x Hwf.
  rewrite vEB_insert_eq.
  destruct (Z.ltb_spec x 0) as [|Hx0]; [exists V; split; [reflexivity|split; [assumption|lia]]|].
  destruct (Z.geb_spec x (u V)) as [|HxU]; [exists V; split; [reflexivity|split; [assumption|lia]]|].
  cbn [orb].
  destruct (vEB_member_total k V x Hwf ltac:(lia)) as [b Hb]. rewrite Hb.
  cbn [mbind option_bind].
  destruct b; [exists V; auto|].
  pose proof (wf_min _ _ Hwf) as Hmn. pose proof (wf_max _ _ Hwf) as Hmx.
  destruct (Z.eqb_spec (min V) (-1)) as [|Hne].
  { eexists; split; [reflexivity|]. split; [apply wf_empty_insert; auto; lia|].
    intros _. apply vEB_member_cached. left. destruct V; reflexivity. }
  cbn zeta.
  set (x' := if x <? min V then min V else x).
  set (mn' := if x <? min V then x else min V).
  set (mx' := if x' >? max V then x' else max V).
  assert (Hx' : 0 ≤ x' < u V) by (subst x'; destruct (Z.ltb_spec x (min V)); lia).
  assert (Hmn' : 0 ≤ mn' < u V) by (subst mn'; destruct (Z.ltb_spec x (min V)); lia).
  assert (Hmx' : -1 ≤ mx' < u V) by (subst mx'; destruct (Z.gtb_spec x' (max V)); lia).
  assert (Hcases : x = mn' ∨ x = x').
  { subst mn' x'. destruct (Z.ltb_spec x (min V)); auto. }
  destruct (Z.gtb_spec (u V) 2) as [Hu|Hu].
  - destruct (wf_descend _ _ _ Hwf Hu Hx') as (Hlt & c & Hc & Hwfc & Hl).
    destruct (wf_summary _ _ _ Hwf Hu Hx') as (Hlts & s & Hs & Hwfs & Hh).
    destruct (wf_node_inv _ _ Hwf Hu) as (_ & _ & _ & _ & _ & Hcl).
    rewrite Hc. cbn [mbind option_bind].
    assert (Hfin : ∀ s1 c1, wf (k - k / 2) s1 → wf (k / 2) c1 →
               vEB_member c1 (low V x') = Some true →
               let V' := mkNode (u V) mn' mx' (Some s1)
                           (set_cell (cluster V) (high V x') c1)
                           (lower_sqrt V) (upper_sqrt V) in
               wf k V' ∧ (0 ≤ x < u V → vEB_member V' x = Some true)).
    { intros s1 c1 Hs1 Hc1 Hm V'. split.
      - apply wf_set_node; auto; try lia.
        + apply length_set_cell.
        + apply wf_set_cell; assumption.
      - intros _. rewrite vEB_member_eq. subst V'. fields.
        destruct (Z.eqb_spec x mn'); [reflexivity|].
        destruct (Z.eqb_spec x mx'); [reflexivity|]. cbn [orb].
        destruct (Z.leb_spec (u V) 2); [lia|].
        assert (x = x') as Hxx by tauto.
        unfold high, low in *; fields. rewrite Hxx.
        erewrite cell_set_eq by eassumption. assumption. }
    destruct (Z.eqb_spec (min c) (-1)) as [Hce|Hce].
    + rewrite Hs. cbn [mbind option_bind].
      destruct (IH _ Hlts s (high V x') Hwfs) as (s' & -> & Hwfs' & _).
      cbn [mbind option_bind]. eexists; split; [reflexivity|].
      apply Hfin; auto.
      * apply wf_empty_insert; auto.
      * apply vEB_member_cached. left. destruct c; reflexivity.
    + destruct (IH _ Hlt c (low V x') Hwfc) as (c' & -> & Hwfc' & Hm).
      cbn [mbind option_bind]. eexists; split; [reflexivity|].
      rewrite Hs. apply Hfin; auto.
  - eexists; split; [reflexivity|]. split; [apply wf_set_fields; auto; lia|].
    intros _. rewrite vEB_member_eq. fields.
    destruct (Z.eqb_spec x mn'); [reflexivity|].
    destruct (Z.eqb_spec x mx'); [reflexivity|]. exfalso.
    assert (x = x') by tauto. subst mx'.
    destruct (Z.gtb_spec x' (max V)); [lia|].
    (* u = 2, x is neither min nor max, and min <= x <= max *)
    pose proof (wf_u_ge _ _ Hwf).
    assert (x ≠ min V ∧ x ≠ max V) as [? ?].
    { rewrite vEB_member_eq in Hb.
      destruct (Z.eqb_spec x (min V)); [discriminate|].
      destruct (Z.eqb_spec x (max V)); [discriminate|]. auto. }
    subst x' mn'. destruct (Z.ltb_spec x (min V)); lia.
Qed.

Lemma cell_Forall (P : vEBNode → Prop) cl i c :
  Forall P cl → cell cl i = Some c → P c ∧ 0 ≤ i < Z.of_nat (length cl).
Proof.
  intros HP Hc. apply cell_Some in Hc as [Hi Hc].
  pose proof (lookup_lt_Some _ _ _ Hc). split; [|lia].
  rewrite Forall_forall in HP. apply HP. eapply list_elem_of_lookup_2; eauto.
Qed.

(** [vEB_delete] keeps the shape whenever it returns. *)
Lemma vEB_delete_wf k : ∀ V x V',
  wf k V → vEB_delete V x = Some V' → wf k V'.
Proof.
  induction k as [k IH] using lt_wf_ind. intros V x V' Hwf.
  rewrite vEB_delete_eq.
  pose proof (wf_min _ _ Hwf) as Hmn. pose proof (wf_max _ _ Hwf) as Hmx.
  pose proof (wf_u_ge _ _ Hwf) as Hu2.
  destruct (Z.ltb_spec x 0) as [|Hx0]; [intros [= <-]; assumption|].
  destruct (Z.geb_spec x (u V)) as [|HxU]; [intros [= <-]; assumption|].
  cbn [orb].
  destruct (Z.eqb_spec (min V) (max V)).
  { intros [= <-]. apply wf_set_fields; auto; lia. }
  destruct (Z.eqb_spec (u V) 2).
  { intros [= <-]. cbn zeta. apply wf_set_fields; auto; destruct (x =? 0); lia. }
  assert (Hu : 2 < u V) by lia.
  destruct (wf_node_inv _ _ Hwf Hu) as (Hk & Hlo & Hup & (s & Hs & Hwfs) & Hlen & Hcl).
  destruct (half_bounds k Hk) as (_ & Hlt & _ & Hlts).
  rewrite Hs. cbn [mbind option_bind].
  set (ox := if x =? min V then _ else _).
  destruct ox as [x'|] eqn:Hox; [|discriminate]. cbn [mbind option_bind]. cbn zeta.
  set (mn' := if x =? min V then x' else min V).
  assert (Hx' : -1 ≤ x' < u V).
  { subst ox. destruct (x =? min V); [|injection Hox as <-; lia].
    destruct (cell (cluster V) (vEB_min s)) as [c1|] eqn:Hc1; [|discriminate].
    injection Hox as <-.
    destruct (wf_cell_Some _ _ _ _ Hwf Hu Hc1) as [Hi Hwfc1].
    apply wf_idx with k; auto. pose proof (wf_min _ _ Hwfc1) as H1.
    rewrite (wf_u _ _ Hwfc1), <- Hlo in H1. exact H1. }
  assert (Hmn' : -1 ≤ mn' < u V) by (subst mn'; destruct (x =? min V); lia).
  clearbody mn'. clear Hox. clearbody ox.
  destruct (cell (cluster V) (high V x')) as [c0|] eqn:Hc0; [|discriminate].
  cbn [mbind option_bind].
  destruct (wf_cell_Some _ _ _ _ Hwf Hu Hc0) as [Hh Hwfc0].
  destruct (vEB_delete c0 (low V x')) as [c|] eqn:Hdel; [|discriminate].
  cbn [mbind option_bind].
  pose proof (IH _ Hlt _ _ _ Hwfc0 Hdel) as Hwfc.
  pose proof (wf_set_cell _ _ (high V x') _ Hcl Hwfc) as Hcl'.
  pose proof (length_set_cell (cluster V) (high V x') c) as Hlen'.
  assert (Hfin : ∀ mx1 s1, -1 ≤ mx1 < u V → wf (k - k / 2) s1 →
             wf k (mkNode (u V) mn' mx1 (Some s1) (set_cell (cluster V) (high V x') c)
                     (lower_sqrt V) (upper_sqrt V))).
  { intros. apply wf_set_node; auto. }
  assert (Hmaxc : ∀ i c1, 0 ≤ i < upper_sqrt V → wf (k / 2) c1 →
             -1 ≤ idx V i (vEB_max c1) < u V).
  { intros i c1 Hi Hc1. apply wf_idx with k; auto.
    pose proof (wf_max _ _ Hc1) as H1. rewrite (wf_u _ _ Hc1), <- Hlo in H1. exact H1. }
  destruct (vEB_min c =? -1).
  - destruct (vEB_delete s (high V x')) as [s'|] eqn:Hdels; [|discriminate].
    cbn [mbind option_bind].
    pose proof (IH _ Hlts _ _ _ Hwfs Hdels) as Hwfs'.
    destruct (x' =? max V); [|intros [= <-]; auto].
    destruct (vEB_max s' =? -1); [intros [= <-]; auto|].
    destruct (cell _ (vEB_max s')) as [c'|] eqn:Hc'; [|discriminate].
    cbn [mbind option_bind]. intros [= <-].
    destruct (cell_Forall _ _ _ _ Hcl' Hc') as [Hwfc' Hi].
    apply Hfin; auto. apply Hmaxc; auto. rewrite Hlen' in Hi. lia.
  - destruct (x' =? max V); intros [= <-]; auto.
Qed.

(** Every reachable tree has the shape of a created tree. *)
Lemma reachable_wf V : reachable V → ∃ k, wf k V.
Proof.
  induction 1 as [U V Hc|V x V' _ [k Hwf] Hins|V x V' _ [k Hwf] Hdel].
  - destruct (vEB_create_inv _ _ Hc) as (k & Hwf & _). eauto.
  - destruct (vEB_insert_wf k V x Hwf) as (V1 & Hins' & Hwf' & _).
    exists k. congruence.
  - exists k. eapply vEB_delete_wf; eauto.
Qed.

Lemma run_reachable os : ∀ V V', reachable V → run V os = Some V' → reachable V'.
Proof.
  induction os as [|o os IH]; intros V V' HV; simpl.
  - intros [= <-]. assumption.
  - destruct (step V o) as [V1|] eqn:Hstep; [|discriminate]. cbn [mbind option_bind].
    apply IH. destruct o; simpl in Hstep;
      [eapply reachable_insert|eapply reachable_delete]; eauto.
Qed.

Lemma build_reachable U os V : build U os = Some V → reachable V.
Proof.
  unfold build. destruct (vEB_create U) as [V0|] eqn:Hc; [|discriminate].
  cbn [mbind option_bind]. apply run_reachable. eapply reachable_create; eauto.
Qed.

(** ** Recursion depth *)

Lemma depth_cells (k : nat) cl :
  Forall (λ c, depth c ≤ k)%nat cl →
  (foldr (λ c d, Nat.max (depth c) d) O cl ≤ k)%nat.
Proof. induction 1; simpl; lia. Qed.

Lemma wf_depth k : ∀ V, wf k V → (depth V ≤ k)%nat.
Proof.
  induction k as [k IH] using lt_wf_ind. intros V Hwf.
  destruct Hwf as [mn mx ? ?|k mn mx s cl Hk Hmn Hmx Hs Hlen Hcl]; [simpl; lia|].
  pose proof (half_bounds k Hk) as (? & ? & ? & ?).
  cbn [depth from_option].
  pose proof (IH _ ltac:(eassumption) _ Hs).
  assert (foldr (λ c d, Nat.max (depth c) d) O cl ≤ k / 2)%nat.
  { apply depth_cells. eapply Forall_impl; [exact Hcl|]. intros c Hc. apply IH; auto. }
  lia.
Qed.

Lemma wf_node_of k V N : wf k V → node_of N V → ∃ k', wf k' N.
Proof.
  intros Hwf Hn. revert k Hwf.
  induction Hn as [V|N V s Hs _ IH|N V c Hc _ IH]; intros k Hwf; [eauto| |].
  - destruct Hwf; fields; [discriminate|]. injection Hs as <-. eauto.
  - destruct Hwf; fields; [inversion Hc|].
    eapply IH. eapply Forall_forall; eauto.
Qed.

(** ** Queries return on every tree of the right shape *)

Lemma vEB_successor_wf k : ∀ V x,
  wf k V → 0 ≤ x < u V → ∃ r, vEB_successor V x = Some r ∧ -1 ≤ r < u V.
Proof.
  induction k as [k IH] using lt_wf_ind. intros V x Hwf Hx.
  rewrite vEB_successor_eq.
  pose proof (wf_min _ _ Hwf) as Hmn. pose proof (wf_u_ge _ _ Hwf) as Hu2.
  destruct (Z.leb_spec (u V) 2) as [|Hu].
  { destruct (_ && _); eexists; (split; [reflexivity|lia]). }
  destruct (negb (min V =? -1) && (x <? min V)) eqn:Hshort.
  { apply andb_prop in Hshort as [H1 _]. apply negb_true_iff, Z.eqb_neq in H1.
    eexists; split; [reflexivity|lia]. }
  destruct (wf_descend _ _ _ Hwf Hu Hx) as (Hlt & c & Hc & Hwfc & Hl).
  destruct (wf_summary _ _ _ Hwf Hu Hx) as (Hlts & s & Hs & Hwfs & Hh).
  destruct (wf_node_inv _ _ Hwf Hu) as (_ & Hlo & Hup & _).
  rewrite Hc, Hs. cbn [mbind option_bind]. clear Hshort.
  match goal with |- context [if ?b then _ ≫= _ else _] => destruct b end.
  - destruct (IH _ Hlt c (low V x) Hwfc Hl) as (off & -> & Hoff).
    cbn [mbind option_bind]. eexists; split; [reflexivity|].
    apply wf_idx with k; auto.
    + rewrite (wf_u _ _ Hwfs), <- Hup in Hh. exact Hh.
    + rewrite (wf_u _ _ Hwfc), <- Hlo in Hoff. exact Hoff.
  - destruct (IH _ Hlts s (high V x) Hwfs Hh) as (sc & -> & Hsc).
    cbn [mbind option_bind].
    destruct (Z.eqb_spec sc (-1)); [eexists; split; [reflexivity|lia]|].
    rewrite (wf_u _ _ Hwfs), <- Hup in Hsc.
    destruct (wf_cell _ _ sc Hwf Hu ltac:(lia)) as (c' & -> & Hwfc').
    cbn [mbind option_bind]. eexists; split; [reflexivity|].
    apply wf_idx with k; auto; [lia|].
    pose proof (wf_min _ _ Hwfc') as H1. rewrite (wf_u _ _ Hwfc'), <- Hlo in H1. exact H1.
Qed.

Lemma vEB_predecessor_wf k : ∀ V x,
  wf k V → 0 ≤ x < u V → ∃ r, vEB_predecessor V x = Some r ∧ -1 ≤ r < u V.
Proof.
  induction k as [k IH] using lt_wf_ind. intros V x Hwf Hx.
  rewrite vEB_predecessor_eq.
  pose proof (wf_min _ _ Hwf) as Hmn. pose proof (wf_max _ _ Hwf) as Hmx.
  pose proof (wf_u_ge _ _ Hwf) as Hu2.
  destruct (Z.leb_spec (u V) 2) as [|Hu].
  { destruct (_ && _); eexists; (split; [reflexivity|lia]). }
  destruct (negb (max V =? -1) && (x >? max V)) eqn:Hshort.
  { eexists; split; [reflexivity|lia]. }
  destruct (wf_descend _ _ _ Hwf Hu Hx) as (Hlt & c & Hc & Hwfc & Hl).
  destruct (wf_summary _ _ _ Hwf Hu Hx) as (Hlts & s & Hs & Hwfs & Hh).
  destruct (wf_node_inv _ _ Hwf Hu) as (_ & Hlo & Hup & _).
  rewrite Hc, Hs. cbn [mbind option_bind]. clear Hshort.
  match goal with |- context [if ?b then _ ≫= _ else _] => destruct b end.
  - destruct (IH _ Hlt c (low V x) Hwfc Hl) as (off & -> & Hoff).
    cbn [mbind option_bind]. eexists; split; [reflexivity|].
    apply wf_idx with k; auto.
    + rewrite (wf_u _ _ Hwfs), <- Hup in Hh. exact Hh.
    + rewrite (wf_u _ _ Hwfc), <- Hlo in Hoff. exact Hoff.
  - destruct (IH _ Hlts s (high V x) Hwfs Hh) as (pc & -> & Hpc).
    cbn [mbind option_bind].
    destruct (Z.eqb_spec pc (-1)).
    { destruct (negb (min V =? -1) && _); eexists; (split; [reflexivity|lia]). }
    rewrite (wf_u _ _ Hwfs), <- Hup in Hpc.
    destruct (wf_cell _ _ pc Hwf Hu ltac:(lia)) as (c' & -> & Hwfc').
    cbn [mbind option_bind]. eexists; split; [reflexivity|].
    apply wf_idx with k; auto; [lia|].
    pose proof (wf_max _ _ Hwfc') as H1. rewrite (wf_u _ _ Hwfc'), <- Hlo in H1. exact H1.
Qed.

(** ** Keys outside the universe *)

Lemma quot_outside lo x :
  2 ≤ lo → x < -1 →
  x ÷ lo < 0 ∨ (x ÷ lo = 0 ∧ Z.rem x lo = x ∧ 2 < lo).
Proof.
  intros Hlo Hx.
  replace x with (- - x) at 1 2 3 by lia.
  rewrite Z.quot_opp_l, Z.rem_opp_l by lia.
  destruct (Z_lt_le_dec (- x) lo) as [Hs|Hb].
  - right. rewrite Z.quot_small, Z.rem_small by lia. lia.
  - left. rewrite Z.quot_div_nonneg by lia.
    assert (1 ≤ Z.div (- x) lo) by (apply Z.div_le_lower_bound; lia). lia.
Qed.

Lemma vEB_member_outside k : ∀ V x,
  wf k V → x < -1 ∨ u V ≤ x →
  vEB_member V x = if u V <=? 2 then Some false else None.
Proof.
  induction k as [k IH] using lt_wf_ind. intros V x Hwf Hx.
  rewrite vEB_member_eq.
  pose proof (wf_min _ _ Hwf) as Hmn. pose proof (wf_max _ _ Hwf) as Hmx.
  destruct (Z.eqb_spec x (min V)); [lia|].
  destruct (Z.eqb_spec x (max V)); [lia|]. cbn [orb].
  destruct (Z.leb_spec (u V) 2) as [|Hu]; [reflexivity|].
  destruct (wf_node_inv _ _ Hwf Hu) as (Hk & Hlo & Hup & _ & Hlen & Hcl).
  destruct (half_bounds k Hk) as (Hk1 & Hlt & _).
  pose proof (pow2_ge_2 _ Hk1) as Hlo2. pose proof (pow2_pos (k - k / 2)) as Hup0.
  unfold high, low. rewrite Hlo.
  destruct Hx as [Hx|Hx].
  - destruct (quot_outside _ _ Hlo2 Hx) as [Hneg|(-> & -> & Hlo3)].
    + rewrite cell_None_neg by assumption. reflexivity.
    + destruct (wf_cell _ _ 0 Hwf Hu ltac:(lia)) as (c & -> & Hwfc).
      cbn [mbind option_bind]. rewrite (IH _ Hlt c x Hwfc) by auto.
      rewrite (wf_u _ _ Hwfc). destruct (Z.leb_spec (pow2 (k / 2)) 2); [lia|reflexivity].
  - rewrite cell_None_ge; [reflexivity|]. rewrite Hlen.
    rewrite Z.quot_div_nonneg by lia. apply Z.div_le_lower_bound; [lia|].
    rewrite Z.mul_comm, pow2_split by assumption. rewrite <- (wf_u _ _ Hwf). assumption.
Qed.

(** * The represented set *)

Lemma extremes_ext S S' mn mx :
  (∀ x, S x ↔ S' x) → extremes S mn mx → extremes S' mn mx.
Proof.
  intros E [(-> & -> & He)|(H1 & H2 & H3)]; [left|right].
  - repeat split; auto. intros x Hx. apply (He x), E, Hx.
  - repeat split; try (apply E; assumption); apply H3, E; assumption.
Qed.

Lemma sub_ext S S' mn lo i :
  (∀ x, S x ↔ S' x) → ∀ l, sub S mn lo i l ↔ sub S' mn lo i l.
Proof. intros E l. unfold sub. rewrite E. reflexivity. Qed.

Lemma occupied_ext S S' mn lo up :
  (∀ x, S x ↔ S' x) → ∀ i, occupied S mn lo up i ↔ occupied S' mn lo up i.
Proof.
  intros E i. unfold occupied.
  split; intros (Hi & l & Hl); (split; [assumption|]); exists l.
  - apply (sub_ext S S'); assumption.
  - apply (sub_ext S S'); assumption.
Qed.

(** Only the keys matter, not how the set is written. *)
Lemma repr_ext k V S : repr k V S → ∀ S', (∀ x, S x ↔ S' x) → repr k V S'.
Proof.
  induction 1 as [S mn mx Hr He|k S mn mx s cl Hk Hr He Hlen Hcl IHcl Hs IHs];
    intros S' E.
  - constructor; [intros x Hx; apply Hr, E, Hx|eapply extremes_ext; eauto].
  - constructor; auto.
    + intros x Hx. apply Hr, E, Hx.
    + eapply extremes_ext; eauto.
    + intros i c Hc. eapply IHcl; [eassumption|]. apply sub_ext, E.
    + apply IHs. apply occupied_ext, E.
Qed.

Lemma repr_wf k V S : repr k V S → wf k V.
Proof.
  induction 1 as [S mn mx Hr He|k S mn mx s cl Hk Hr He Hlen Hcl IHcl Hs IHs].
  - constructor; destruct He as [(-> & -> & _)|(H1 & H2 & _)];
      try lia; apply Hr in H1; apply Hr in H2; lia.
  - constructor; auto.
    + destruct He as [(-> & -> & _)|(H1 & H2 & _)]; [pose proof (pow2_pos k); lia|].
      apply Hr in H1. lia.
    + destruct He as [(-> & -> & _)|(H1 & H2 & _)]; [pose proof (pow2_pos k); lia|].
      apply Hr in H2. lia.
    + apply Forall_forall. intros c Hin.
      apply list_elem_of_lookup in Hin as [n Hn].
      apply (IHcl (Z.of_nat n)). apply cell_Some. rewrite Nat2Z.id. split; [lia|assumption].
Qed.

Lemma repr_range k V S x : repr k V S → S x → 0 ≤ x < u V.
Proof. destruct 1; fields; auto. Qed.

Lemma repr_extremes k V S : repr k V S → extremes S (min V) (max V).
Proof. destruct 1; fields; auto. Qed.

(** [min] is the sentinel exactly when no key is held. *)
Lemma repr_empty k V S : repr k V S → (min V = -1 ↔ ∀ x, ¬ S x).
Proof.
  intros H. pose proof (repr_extremes _ _ _ H) as [(? & ? & ?)|(H1 & H2 & H3)].
  - tauto.
  - pose proof (repr_range _ _ _ _ H H1). split; [lia|]. intros He. destruct (He _ H1).
Qed.

Lemma repr_max_empty k V S : repr k V S → (max V = -1 ↔ ∀ x, ¬ S x).
Proof.
  intros H. pose proof (repr_extremes _ _ _ H) as [(? & ? & ?)|(H1 & H2 & H3)].
  - tauto.
  - pose proof (repr_range _ _ _ _ H H2). split; [lia|]. intros He. destruct (He _ H1).
Qed.

Lemma repr_min k V S :
  repr k V S → min V ≠ -1 → S (min V) ∧ ∀ y, S y → min V ≤ y.
Proof.
  intros H Hne. pose proof (repr_extremes _ _ _ H) as [(? & ? & ?)|(H1 & H2 & H3)];
    [lia|]. split; [assumption|]. intros y Hy. apply H3 in Hy. lia.
Qed.

Lemma repr_max k V S :
  repr k V S → max V ≠ -1 → S (max V) ∧ ∀ y, S y → y ≤ max V.
Proof.
  intros H Hne. pose proof (repr_extremes _ _ _ H) as [(? & ? & ?)|(H1 & H2 & H3)];
    [lia|]. split; [assumption|]. intros y Hy. apply H3 in Hy. lia.
Qed.

(** A node with [u > 2]: what its cells and its summary represent. *)
Lemma repr_node_inv k V S :
  repr k V S → 2 < u V →
  (∀ i c, cell (cluster V) i = Some c →
          repr (k / 2) c (sub S (min V) (lower_sqrt V) i)) ∧
  ∃ s, summary V = Some s ∧
       repr (k - k / 2) s (occupied S (min V) (lower_sqrt V) (upper_sqrt V)).
Proof. destruct 1; fields; [intros ?; lia|]. eauto. Qed.

Lemma repr_leaf_range k V S x : repr k V S → u V ≤ 2 → S x → 0 ≤ x < 2.
Proof.
  destruct 1 as [|k ? ? ? ? ? Hk]; fields; auto.
  pose proof (pow2_gt_2 k Hk). intros ?; lia.
Qed.

(** The same node with new fields represents [S'] when the fields do. *)
Lemma repr_set_leaf k V S mn mx (S' : Z → Prop) :
  repr k V S → u V ≤ 2 →
  (∀ x, S' x → 0 ≤ x < 2) → extremes S' mn mx →
  repr k (mkNode (u V) mn mx (summary V) (cluster V) (lower_sqrt V) (upper_sqrt V)) S'.
Proof.
  destruct 1 as [|k ? ? ? ? ? Hk]; fields; [intros; constructor; auto|].
  pose proof (pow2_gt_2 k Hk). intros ?; lia.
Qed.

Lemma repr_set_node k V mn mx s cl (S' : Z → Prop) :
  wf k V → 2 < u V →
  (∀ x, S' x → 0 ≤ x < u V) → extremes S' mn mx →
  length cl = length (cluster V) →
  (∀ i c, cell cl i = Some c → repr (k / 2) c (sub S' mn (lower_sqrt V) i)) →
  repr (k - k / 2) s (occupied S' mn (lower_sqrt V) (upper_sqrt V)) →
  repr k (mkNode (u V) mn mx (Some s) cl (lower_sqrt V) (upper_sqrt V)) S'.
Proof.
  destruct 1; fields; intros; [lia|]. constructor; auto. congruence.
Qed.

(** [vEB_create] returns the empty tree. *)
Lemma vEB_create_fuel_repr fuel : ∀ k,
  (1 ≤ k ≤ fuel)%nat →
  ∃ V, vEB_create_fuel fuel (pow2 k) = Some V ∧ repr k V (λ _, False).
Proof.
  induction fuel as [|fuel IH]; intros k Hk; [lia|].
  rewrite create_step_eq.
  pose proof (pow2_ge_2 k ltac:(lia)) as H2.
  destruct (Z.ltb_spec (pow2 k) 2); [lia|].
  rewrite land_pow2. cbn [Z.eqb negb].
  destruct (Z.leb_spec (pow2 k) 2) as [Hle|Hgt].
  - assert (k = 1%nat) as ->.
    { destruct (decide (k = 1%nat)); [assumption|].
      pose proof (pow2_gt_2 k ltac:(lia)). lia. }
    rewrite pow2_1. eexists; split; [reflexivity|].
    constructor; [tauto|]. left. auto.
  - assert (2 ≤ k)%nat as Hk2.
    { destruct (decide (k = 1%nat)) as [->|]; [rewrite pow2_1 in Hgt|]; lia. }
    destruct (create_sqrt k Hk2) as [-> ->]. cbn zeta.
    pose proof (half_bounds k Hk2).
    destruct (IH (k - k / 2)%nat ltac:(lia)) as (s & -> & Hs).
    destruct (IH (k / 2)%nat ltac:(lia)) as (c & -> & Hc).
    rewrite create_clusters_Some. cbn [mbind option_bind].
    eexists; split; [reflexivity|].
    constructor; auto.
    + tauto.
    + left. auto.
    + apply length_replicate.
    + intros i c' Hc'. apply cell_Some in Hc' as [_ Hc'].
      apply lookup_replicate in Hc' as [-> _].
      eapply repr_ext; [exact Hc|]. unfold sub. tauto.
    + eapply repr_ext; [exact Hs|]. unfold occupied, sub. intros i.
      split; [tauto|]. intros (_ & l & _ & [] & _).
Qed.

Lemma vEB_create_repr U V :
  vEB_create U = Some V → ∃ k, U = pow2 k ∧ repr k V (λ _, False).
Proof.
  intros Hc. destruct (vEB_create_inv _ _ Hc) as (k & Hwf & ->).
  exists k. split; [reflexivity|].
  destruct (vEB_create_fuel_repr (Z.to_nat (pow2 k)) k) as (V' & Hc' & Hr).
  { pose proof (wf_k _ _ Hwf). pose proof (pow2_fuel k). lia. }
  unfold vEB_create in Hc. congruence.
Qed.

(** Where a key of a node with [u > 2] lives. *)
Lemma repr_descend k V S x :
  repr k V S → 2 < u V → 0 ≤ x < u V →
  (k / 2 < k)%nat ∧ x = high V x * lower_sqrt V + low V x ∧
  0 ≤ high V x < upper_sqrt V ∧ 0 ≤ low V x < lower_sqrt V ∧
  ∃ c, cell (cluster V) (high V x) = Some c ∧
       repr (k / 2) c (sub S (min V) (lower_sqrt V) (high V x)) ∧ u c = lower_sqrt V.
Proof.
  intros Hr Hu Hx. pose proof (repr_wf _ _ _ Hr) as Hwf.
  destruct (wf_descend _ _ _ Hwf Hu Hx) as (Hlt & c & Hc & Hwfc & Hl).
  destruct (wf_split _ _ _ Hwf Hu Hx) as (Hh & Hl' & Hidx).
  destruct (repr_node_inv _ _ _ Hr Hu) as (Hcl & _).
  destruct (wf_node_inv _ _ Hwf Hu) as (_ & Hlo & _).
  repeat split; try tauto; try lia.
  exists c. repeat split; auto. rewrite (wf_u _ _ Hwfc). auto.
Qed.

Lemma repr_cell k V S i :
  repr k V S → 2 < u V → 0 ≤ i < upper_sqrt V →
  ∃ c, cell (cluster V) i = Some c ∧
       repr (k / 2) c (sub S (min V) (lower_sqrt V) i) ∧ u c = lower_sqrt V.
Proof.
  intros Hr Hu Hi. pose proof (repr_wf _ _ _ Hr) as Hwf.
  destruct (wf_cell _ _ _ Hwf Hu Hi) as (c & Hc & Hwfc).
  destruct (repr_node_inv _ _ _ Hr Hu) as (Hcl & _).
  destruct (wf_node_inv _ _ Hwf Hu) as (_ & Hlo & _).
  exists c. repeat split; auto. rewrite (wf_u _ _ Hwfc). auto.
Qed.

Lemma repr_summary k V S :
  repr k V S → 2 < u V →
  (k - k / 2 < k)%nat ∧
  ∃ s, summary V = Some s ∧ u s = upper_sqrt V ∧
       repr (k - k / 2) s (occupied S (min V) (lower_sqrt V) (upper_sqrt V)).
Proof.
  intros Hr Hu. pose proof (repr_wf _ _ _ Hr) as Hwf.
  destruct (repr_node_inv _ _ _ Hr Hu) as (_ & s & Hs & Hrs).
  destruct (wf_node_inv _ _ Hwf Hu) as (Hk & _ & Hup & _).
  split; [apply half_bounds; assumption|].
  exists s. repeat split; auto. rewrite (wf_u _ _ (repr_wf _ _ _ Hrs)). auto.
Qed.

(** [vEB_member] decides the represented set. *)
Lemma vEB_member_repr k : ∀ V S x,
  repr k V S → 0 ≤ x < u V →
  ∃ b, vEB_member V x = Some b ∧ (b = true ↔ S x).
Proof.
  induction k as [k IH] using lt_wf_ind. intros V S x Hr Hx.
  rewrite vEB_member_eq.
  pose proof (repr_extremes _ _ _ Hr) as He.
  destruct (Z.eqb_spec x (min V)) as [Hmn|Hmn].
  { exists true. split; [reflexivity|]. split; [|reflexivity]. intros _.
    destruct He as [(? & _)|(? & _)]; [lia|subst x; assumption]. }
  destruct (Z.eqb_spec x (max V)) as [Hmx|Hmx].
  { exists true. split; [reflexivity|]. split; [|reflexivity]. intros _.
    destruct He as [(_ & ? & _)|(_ & ? & _)]; [lia|subst x; assumption]. }
  cbn [orb].
  destruct (Z.leb_spec (u V) 2) as [Hu|Hu].
  { exists false. split; [reflexivity|]. split; [discriminate|]. intros HS. exfalso.
    destruct He as [(_ & _ & He)|(H1 & H2 & H3)]; [exact (He _ HS)|].
    pose proof (repr_leaf_range _ _ _ _ Hr Hu H1).
    pose proof (repr_leaf_range _ _ _ _ Hr Hu H2).
    apply H3 in HS. lia. }
  destruct (repr_descend _ _ _ _ Hr Hu Hx) as (Hlt & Hidx & Hh & Hl & c & -> & Hrc & Huc).
  cbn [mbind option_bind].
  destruct (IH _ Hlt c _ (low V x) Hrc ltac:(lia)) as (b & -> & Hb).
  exists b. split; [reflexivity|]. rewrite Hb. unfold sub. rewrite <- Hidx. tauto.
Qed.

(** ** Insert adds the key *)

Lemma idx_inj lo i1 l1 i2 l2 :
  0 ≤ l1 < lo → 0 ≤ l2 < lo → i1 * lo + l1 = i2 * lo + l2 → i1 = i2 ∧ l1 = l2.
Proof.
  intros H1 H2 E.
  assert (i1 = i2); [|subst; lia].
  destruct (Z.lt_trichotomy i1 i2) as [Hlt|[Heq|Hgt]]; [exfalso|assumption|exfalso]; nia.
Qed.

Lemma idx_lt lo i1 l1 i2 l2 :
  0 ≤ l1 < lo → 0 ≤ l2 < lo →
  (i1 * lo + l1 < i2 * lo + l2 ↔ i1 < i2 ∨ (i1 = i2 ∧ l1 < l2)).
Proof.
  intros H1 H2. split.
  - intros Hlt. destruct (Z.lt_trichotomy i1 i2) as [?|[->|Hgt]]; [auto|right; lia|].
    exfalso. nia.
  - intros [Hlt|[-> Hlt]]; [nia|lia].
Qed.

(** Replacing one cell: the other cells keep what they held. *)
Lemma cells_repr_set k cl h c0 c1 (T T' : Z → Z → Prop) :
  (∀ i c, cell cl i = Some c → repr k c (T i)) →
  cell cl h = Some c0 → repr k c1 (T' h) →
  (∀ i l, i ≠ h → T i l ↔ T' i l) →
  ∀ i c, cell (set_cell cl h c1) i = Some c → repr k c (T' i).
Proof.
  intros Hcl Hc0 Hc1 Hoth i c Hc.
  destruct (Z.eq_dec i h) as [->|Hne].
  - erewrite cell_set_eq in Hc by eassumption. injection Hc as <-. assumption.
  - assert (0 ≤ i) by (apply cell_Some in Hc; tauto).
    assert (0 ≤ h) by (apply cell_Some in Hc0; tauto).
    rewrite cell_set_ne in Hc by auto.
    eapply repr_ext; [eapply Hcl; eassumption|]. intros l. apply Hoth. assumption.
Qed.

Lemma repr_empty_insert k V S x :
  repr k V S → (∀ y, ¬ S y) → 0 ≤ x < u V →
  repr k (vEB_empty_insert V x) (λ y, y = x).
Proof.
  intros Hr He Hx.
  assert (Hext : extremes (λ y, y = x) x x) by (right; repeat split; lia).
  destruct Hr as [S mn mx Hr _|k S mn mx s cl Hk Hr _ Hlen Hcl Hs]; fields.
  - constructor; [intros y ->; lia|assumption].
  - constructor; auto.
    + intros y ->. assumption.
    + intros i c Hc. eapply repr_ext; [eapply Hcl; eassumption|].
      intros l. unfold sub. split; [intros (_ & HS & _); destruct (He _ HS)|lia].
    + eapply repr_ext; [exact Hs|]. intros i. unfold occupied, sub.
      split; [intros (_ & l & _ & HS & _); destruct (He _ HS)|intros (_ & l & ?); lia].
Qed.

Lemma vEB_insert_repr k : ∀ V S x,
  repr k V S → 0 ≤ x < u V →
  ∃ V', vEB_insert V x = Some V' ∧ repr k V' (λ y, S y ∨ y = x).
Proof.
  induction k as [k IH] using lt_wf_ind. intros V S x Hr Hx.
  rewrite vEB_insert_eq.
  destruct (Z.ltb_spec x 0); [lia|]. destruct (Z.geb_spec x (u V)); [lia|]. cbn [orb].
  destruct (vEB_member_repr k V S x Hr Hx) as (b & -> & Hb). cbn [mbind option_bind].
  destruct b.
  { exists V. split; [reflexivity|]. eapply repr_ext; [exact Hr|].
    intros y. split; [auto|]. intros [?| ->]; [assumption|]. apply Hb. reflexivity. }
  assert (HnS : ¬ S x) by (intros HS; apply Hb in HS; discriminate).
  destruct (Z.eqb_spec (min V) (-1)) as [Hmn|Hmn].
  { eexists. split; [reflexivity|].
    pose proof (proj1 (repr_empty _ _ _ Hr) Hmn) as He.
    eapply repr_ext; [apply (repr_empty_insert k V S x); eauto|].
    intros y. split; [auto|]. intros [HS| ->]; [destruct (He _ HS)|reflexivity]. }
  destruct (repr_min _ _ _ Hr Hmn) as [Smn Hle].
  assert (Hmx : max V ≠ -1).
  { intros E. exact (proj1 (repr_max_empty _ _ _ Hr) E _ Smn). }
  destruct (repr_max _ _ _ Hr Hmx) as [Smx Hge].
  assert (Hxmn : x ≠ min V) by congruence.
  pose proof (repr_range _ _ _ _ Hr Smn) as Rmn.
  pose proof (repr_range _ _ _ _ Hr Smx) as Rmx.
  cbn zeta.
  set (x' := if x <? min V then min V else x).
  set (mn' := if x <? min V then x else min V).
  set (mx' := if x' >? max V then x' else max V).
  set (S' := λ y, S y ∨ y = x).
  assert (Hx' : 0 ≤ x' < u V ∧ mn' < x' ∧ (x = mn' ∨ x = x') ∧
                (min V = mn' ∨ min V = x') ∧ mn' ≤ min V).
  { subst x' mn'. destruct (Z.ltb_spec x (min V)); lia. }
  destruct Hx' as (Rx' & Hlt' & Hxc & Hmc & Hmn'le).
  assert (Hext : extremes S' mn' mx').
  { right. subst S' mx'. pose proof (Hle _ Smx) as Hmm.
    assert (Hm1 : S mn' ∨ mn' = x) by (destruct Hmc as [<-|?]; [auto|right; lia]).
    destruct (Z.gtb_spec x' (max V)) as [Hg|Hg].
    - split; [exact Hm1|]. split; [right; lia|].
      intros y [HS| ->]; [pose proof (Hle _ HS); pose proof (Hge _ HS); lia|lia].
    - split; [exact Hm1|]. split; [auto|].
      intros y [HS| ->]; [pose proof (Hle _ HS); pose proof (Hge _ HS); lia|lia]. }
  assert (Hrange : ∀ y, S' y → 0 ≤ y < u V).
  { intros y [HS| ->]; [eapply repr_range; eauto|assumption]. }
  assert (Hkeep : ∀ y, S' y ∧ y ≠ mn' ↔ (S y ∧ y ≠ min V) ∨ y = x').
  { intros y. subst S'. cbn beta. split.
    - intros [[HS|?] Hne]; [|right; lia].
      destruct (Z.eq_dec y (min V)); [right; lia|auto].
    - intros [[HS Hne]| ->].
      + split; [auto|]. apply Hle in HS. lia.
      + split; [|lia]. destruct Hxc as [?|?]; [|right; lia].
        left. replace x' with (min V) by lia. assumption. }
  clearbody x' mn' mx' S'.
  destruct (Z.gtb_spec (u V) 2) as [Hu|Hu].
  - destruct (repr_descend _ _ _ _ Hr Hu Rx') as (Hlt & Hidx & Hh & Hl & c & Hc & Hrc & Huc).
    destruct (repr_summary _ _ _ Hr Hu) as (Hlts & s & Hs & Hus & Hrs).
    destruct (repr_node_inv _ _ _ Hr Hu) as (Hcl & _).
    pose proof (repr_wf _ _ _ Hr) as Hwf.
    rewrite Hc. cbn [mbind option_bind].
    set (h := high V x') in *. set (l := low V x') in *. set (lo := lower_sqrt V) in *.
    assert (Hsub : ∀ i l0, sub S' mn' lo i l0 ↔ sub S (min V) lo i l0 ∨ (i = h ∧ l0 = l)).
    { intros i l0. unfold sub. split.
      - intros (R & HS & Hne). destruct (proj1 (Hkeep _) (conj HS Hne)) as [[? ?]|E]; [auto|].
        right. rewrite Hidx in E. apply idx_inj in E; auto.
      - intros [(R & HS & Hne)|[-> ->]].
        + split; [assumption|]. apply Hkeep. auto.
        + split; [assumption|]. rewrite <- Hidx. apply Hkeep. auto. }
    assert (Hcells : ∀ c1, repr (k / 2) c1 (sub S' mn' lo h) →
              ∀ i c2, cell (set_cell (cluster V) h c1) i = Some c2 →
                      repr (k / 2) c2 (sub S' mn' lo i)).
    { intros c1 Hc1. eapply cells_repr_set; eauto.
      intros i l0 Hne. rewrite Hsub. tauto. }
    destruct (Z.eqb_spec (min c) (-1)) as [Hce|Hce].
    + rewrite Hs. cbn [mbind option_bind].
      destruct (IH _ Hlts s _ h Hrs ltac:(lia)) as (s' & -> & Hrs').
      cbn [mbind option_bind]. eexists. split; [reflexivity|].
      pose proof (proj1 (repr_empty _ _ _ Hrc) Hce) as He.
      apply repr_set_node; auto.
      * apply length_set_cell.
      * apply Hcells. eapply repr_ext; [apply (repr_empty_insert _ c _ l Hrc); auto; lia|].
        intros l0. rewrite Hsub. split; [auto|]. intros [HT|[_ ?]]; [destruct (He _ HT)|auto].
      * eapply repr_ext; [exact Hrs'|]. intros i. unfold occupied. cbn beta. split.
        -- intros [(R & l0 & HT)| ->].
           ++ split; [assumption|]. exists l0. apply Hsub. auto.
           ++ split; [assumption|]. exists l. apply Hsub. auto.
        -- intros (R & l0 & HT). apply Hsub in HT as [HT|[-> _]]; [left|right; auto].
           split; [assumption|]. eauto.
    + destruct (IH _ Hlt c _ l Hrc ltac:(lia)) as (c' & -> & Hrc').
      cbn [mbind option_bind]. eexists. split; [reflexivity|]. rewrite Hs.
      destruct (repr_min _ _ _ Hrc Hce) as [Tmin _].
      apply repr_set_node; auto.
      * apply length_set_cell.
      * apply Hcells. eapply repr_ext; [exact Hrc'|].
        intros l0. rewrite Hsub. cbn beta. tauto.
      * eapply repr_ext; [exact Hrs|]. intros i. unfold occupied. split.
        -- intros (R & l0 & HT). split; [assumption|]. exists l0. apply Hsub. auto.
        -- intros (R & l0 & HT). split; [assumption|].
           apply Hsub in HT as [HT|[-> _]]; eauto.
  - eexists. split; [reflexivity|]. apply repr_set_leaf with S; auto.
    intros y Hy. apply Hrange in Hy. lia.
Qed.

(** ** Delete of a member removes the key *)

Lemma repr_clear k V S :
  repr k V S → (∀ y, S y → y = min V) →
  repr k (mkNode (u V) (-1) (-1) (summary V) (cluster V) (lower_sqrt V) (upper_sqrt V))
       (λ _, False).
Proof.
  intros Hr Hone.
  assert (Hext : extremes (λ _ : Z, False) (-1) (-1)) by (left; auto).
  destruct Hr as [S mn mx Hr _|k S mn mx s cl Hk Hr _ Hlen Hcl Hs]; fields.
  - constructor; [tauto|assumption].
  - constructor; auto; [tauto| |].
    + intros i c Hc. eapply repr_ext; [eapply Hcl; eassumption|].
      intros l. unfold sub. split; [intros (_ & HS & Hne); apply Hone in HS; lia|tauto].
    + eapply repr_ext; [exact Hs|]. intros i. unfold occupied, sub.
      split; [intros (_ & l & _ & HS & Hne); apply Hone in HS; lia|intros (_ & l & ?); tauto].
Qed.

(** The keys of a node with [u > 2] other than its minimum, by cell. *)
Lemma repr_key_cell k V S y :
  repr k V S → 2 < u V → S y → y ≠ min V →
  0 ≤ high V y < upper_sqrt V ∧
  y = high V y * lower_sqrt V + low V y ∧
  sub S (min V) (lower_sqrt V) (high V y) (low V y).
Proof.
  intros Hr Hu HS Hne. pose proof (repr_range _ _ _ _ Hr HS) as Hy.
  destruct (repr_descend _ _ _ _ Hr Hu Hy) as (_ & Hidx & Hh & Hl & _).
  repeat split; try tauto; try lia; rewrite <- Hidx; assumption.
Qed.

(** When the minimum is deleted, the least key of the least occupied cell
    takes its place. *)
Lemma repr_second k V S :
  repr k V S → 2 < u V → min V ≠ max V → min V ≠ -1 →
  ∃ s c, summary V = Some s ∧ cell (cluster V) (min s) = Some c ∧
         let x' := idx V (min s) (min c) in
         S x' ∧ x' ≠ min V ∧ ∀ y, S y → y ≠ min V → x' ≤ y.
Proof.
  intros Hr Hu Hneq Hmn.
  destruct (repr_min _ _ _ Hr Hmn) as [Smn Hle].
  assert (Hmx : max V ≠ -1) by (intros E; exact (proj1 (repr_max_empty _ _ _ Hr) E _ Smn)).
  destruct (repr_max _ _ _ Hr Hmx) as [Smx Hge].
  destruct (repr_summary _ _ _ Hr Hu) as (_ & s & Hs & Hus & Hrs).
  destruct (repr_key_cell _ _ _ _ Hr Hu Smx ltac:(lia)) as (Hhm & Him & HTm).
  assert (Hocc : occupied S (min V) (lower_sqrt V) (upper_sqrt V) (high V (max V)))
    by (split; [assumption|eauto]).
  assert (Hsne : min s ≠ -1) by (intros E; exact (proj1 (repr_empty _ _ _ Hrs) E _ Hocc)).
  destruct (repr_min _ _ _ Hrs Hsne) as [[Hfr (l1 & HT1)] Hfle].
  destruct (repr_cell _ _ _ (min s) Hr Hu Hfr) as (c & Hc & Hrc & Huc).
  assert (Hcne : min c ≠ -1) by (intros E; exact (proj1 (repr_empty _ _ _ Hrc) E _ HT1)).
  destruct (repr_min _ _ _ Hrc Hcne) as [(Roff & HSoff & Hneoff) Hoffle].
  exists s, c. split; [assumption|]. split; [assumption|].
  unfold idx. cbn zeta. split; [assumption|]. split; [assumption|].
  intros y HSy Hney.
  destruct (repr_key_cell _ _ _ _ Hr Hu HSy Hney) as (Hhy & Hiy & HTy).
  assert (Hoy : occupied S (min V) (lower_sqrt V) (upper_sqrt V) (high V y))
    by (split; [assumption|eauto]).
  apply Hfle in Hoy. rewrite Hiy.
  destruct (Z.eq_dec (min s) (high V y)) as [E|E].
  - rewrite <- E in *. apply Hoffle in HTy. lia.
  - apply Z.lt_le_incl. apply idx_lt; [lia|destruct HTy; lia|]. left. lia.
Qed.

(** The greatest key of a node, from the greatest occupied cell. *)
Lemma sub_key (S : Z → Prop) mn lo up y :
  0 < lo → 0 ≤ y < up * lo → S y → y ≠ mn →
  occupied S mn lo up (y ÷ lo) ∧ sub S mn lo (y ÷ lo) (Z.rem y lo) ∧
  y = y ÷ lo * lo + Z.rem y lo.
Proof.
  intros Hlo Hy HS Hne. destruct (split_range lo up y Hlo Hy) as (Hh & Hl & Hidx).
  assert (sub S mn lo (y ÷ lo) (Z.rem y lo)) by (unfold sub; rewrite <- Hidx; auto).
  unfold occupied. eauto 6.
Qed.

Lemma greatest_by_cell (S : Z → Prop) mn lo up i m :
  0 < lo → (∀ y, S y → 0 ≤ y < up * lo) → (∀ y, S y → mn ≤ y) →
  (∀ j, occupied S mn lo up j → j ≤ i) →
  sub S mn lo i m → (∀ l, sub S mn lo i l → l ≤ m) →
  S (i * lo + m) ∧ ∀ y, S y → y ≤ i * lo + m.
Proof.
  intros Hlo Hr Hmin Hi (Rm & HSm & Hnem) Hm. split; [assumption|].
  intros y HS. destruct (Z.eq_dec y mn) as [->|Hne]; [apply Hmin; assumption|].
  destruct (sub_key S mn lo up y Hlo (Hr _ HS) HS Hne) as (Hocc & Hsub & Hidx).
  rewrite Hidx. apply Hi in Hocc.
  destruct (Z.eq_dec (y ÷ lo) i) as [E|E].
  - rewrite E in *. apply Hm in Hsub. lia.
  - apply Z.lt_le_incl. apply idx_lt; [destruct Hsub; lia|lia|]. left. lia.
Qed.

Lemma no_cell_single (S : Z → Prop) mn lo up :
  0 < lo → (∀ y, S y → 0 ≤ y < up * lo) →
  (∀ i, ¬ occupied S mn lo up i) → ∀ y, S y → y = mn.
Proof.
  intros Hlo Hr He y HS. destruct (Z.eq_dec y mn) as [|Hne]; [assumption|].
  destruct (sub_key S mn lo up y Hlo (Hr _ HS) HS Hne) as (Hocc & _).
  destruct (He _ Hocc).
Qed.

Lemma wf_u_split k V : wf k V → 2 < u V → u V = upper_sqrt V * lower_sqrt V ∧ 0 < lower_sqrt V.
Proof.
  intros Hwf Hu. destruct (wf_node_inv _ _ Hwf Hu) as (Hk & -> & -> & _).
  rewrite pow2_split by assumption. split; [apply (wf_u _ _ Hwf)|apply pow2_pos].
Qed.

Lemma vEB_delete_repr k : ∀ V S x,
  repr k V S → S x →
  ∃ V', vEB_delete V x = Some V' ∧ repr k V' (λ y, S y ∧ y ≠ x).
Proof.
  induction k as [k IH] using lt_wf_ind. intros V S x Hr HSx.
  pose proof (repr_range _ _ _ _ Hr HSx) as Hx.
  rewrite vEB_delete_eq. unfold vEB_min, vEB_max.
  destruct (Z.ltb_spec x 0); [lia|]. destruct (Z.geb_spec x (u V)); [lia|]. cbn [orb].
  assert (Hmn : min V ≠ -1) by (intros E; exact (proj1 (repr_empty _ _ _ Hr) E _ HSx)).
  assert (Hmx : max V ≠ -1) by (intros E; exact (proj1 (repr_max_empty _ _ _ Hr) E _ HSx)).
  destruct (repr_min _ _ _ Hr Hmn) as [Smn Hle].
  destruct (repr_max _ _ _ Hr Hmx) as [Smx Hge].
  pose proof (repr_wf _ _ _ Hr) as Hwf.
  set (S' := λ y, S y ∧ y ≠ x).
  assert (Hrange : ∀ y, S' y → 0 ≤ y < u V) by (intros y [Hy _]; eapply repr_range; eauto).
  destruct (Z.eqb_spec (min V) (max V)) as [Heq|Hneq].
  { eexists. split; [reflexivity|]. eapply repr_ext; [apply (repr_clear _ _ _ Hr)|].
    - intros y HS. pose proof (Hle _ HS). pose proof (Hge _ HS). lia.
    - intros y. subst S'. cbn beta. split; [tauto|]. intros [HS Hne].
      pose proof (Hle _ HS). pose proof (Hge _ HS).
      pose proof (Hle _ HSx). pose proof (Hge _ HSx). lia. }
  assert (Hltm : min V < max V) by (pose proof (Hle _ Smx); lia).
  destruct (Z.eqb_spec (u V) 2) as [Hu2|Hu2].
  { cbn zeta. eexists. split; [reflexivity|].
    assert (Hleaf : ∀ y, S y → 0 ≤ y < 2) by (intros y Hy; eapply repr_leaf_range; eauto; lia).
    pose proof (Hleaf _ Smn). pose proof (Hleaf _ Smx).
    assert (min V = 0 ∧ max V = 1) as [E0 E1] by lia.
    rewrite E0 in Smn. rewrite E1 in Smx.
    apply repr_set_leaf with S; auto; [lia|intros y [Hy _]; auto|].
    right. subst S'. cbn beta.
    destruct (Z.eqb_spec x 0) as [->|Hx0].
    - split; [split; [assumption|lia]|]. split; [split; [assumption|lia]|].
      intros y [Hy Hne]. apply Hleaf in Hy. lia.
    - assert (x = 1) as -> by lia.
      split; [split; [assumption|lia]|]. split; [split; [assumption|lia]|].
      intros y [Hy Hne]. apply Hleaf in Hy. lia. }
  assert (Hu : 2 < u V) by (pose proof (wf_u_ge _ _ Hwf); lia).
  destruct (wf_u_split _ _ Hwf Hu) as [HU Hlo0].
  destruct (repr_second _ _ _ Hr Hu Hneq Hmn) as (s & c1 & Hs & Hc1 & HS2 & Hne2 & Hmin2).
  destruct (repr_summary _ _ _ Hr Hu) as (Hlts & s0 & Hs0 & Hus & Hrs).
  assert (s0 = s) as -> by congruence. clear Hs0.
  destruct (repr_node_inv _ _ _ Hr Hu) as (Hcl & _).
  rewrite Hs. cbn [mbind option_bind]. rewrite Hc1. cbn [mbind option_bind].
  set (x2 := idx V (min s) (min c1)) in *.
  set (x' := if x =? min V then x2 else x).
  replace (if x =? min V then Some x2 else Some x) with (Some x')
    by (subst x'; destruct (x =? min V); reflexivity).
  cbn [mbind option_bind]. cbn zeta.
  set (mn' := if x =? min V then x' else min V).
  assert (Hfacts : S x' ∧ x' ≠ min V ∧ S' mn' ∧ (∀ y, S' y → mn' ≤ y) ∧
                   (∀ y, S' y ∧ y ≠ mn' ↔ S y ∧ y ≠ min V ∧ y ≠ x') ∧
                   (x' ≠ max V → S' (max V))).
  { subst x' mn' S'. cbn beta. destruct (Z.eqb_spec x (min V)) as [E|E].
    - split; [assumption|]. split; [assumption|]. split; [split; [assumption|lia]|].
      split; [intros y [Hy Hne]; apply Hmin2; [assumption|lia]|].
      split; [intros y; split; intros; repeat split; try tauto; lia|].
      intros _. split; [assumption|lia].
    - split; [assumption|]. split; [assumption|]. split; [split; [assumption|lia]|].
      split; [intros y [Hy _]; auto|].
      split; [intros y; tauto|].
      intros Hne. split; [assumption|lia]. }
  destruct Hfacts as (HSx' & Hx'ne & HSmn' & Hmn'le & Hkeep & Hmxkeep).
  clearbody x' mn'. clear x2 HS2 Hne2 Hmin2 Hc1 c1.
  pose proof (repr_range _ _ _ _ Hr HSx') as Rx'.
  destruct (repr_descend _ _ _ _ Hr Hu Rx') as (Hlt & Hidx & Hh & Hl & c0 & Hc0 & Hrc0 & Huc0).
  rewrite Hc0. cbn [mbind option_bind].
  set (h := high V x') in *. set (l := low V x') in *.
  set (lo := lower_sqrt V) in *. set (up := upper_sqrt V) in *.
  assert (HTl : sub S (min V) lo h l) by (unfold sub; rewrite <- Hidx; auto).
  destruct (IH _ Hlt c0 _ l Hrc0 HTl) as (c & -> & Hrc). cbn [mbind option_bind].
  assert (Hsub : ∀ i l0, sub S' mn' lo i l0 ↔ sub S (min V) lo i l0 ∧ ¬ (i = h ∧ l0 = l)).
  { intros i l0. unfold sub. split.
    - intros (R & HS & Hne). destruct (proj1 (Hkeep _) (conj HS Hne)) as (HS1 & Hne1 & Hne').
      split; [split; [assumption|split; assumption]|].
      intros [-> ->]. apply Hne'. symmetry. exact Hidx.
    - intros ((R & HS & Hne) & Hnhl). split; [assumption|]. apply Hkeep.
      split; [assumption|]. split; [assumption|].
      intros E. apply Hnhl. rewrite Hidx in E. apply idx_inj in E; assumption. }
  assert (Hrc' : repr (k / 2) c (sub S' mn' lo h)).
  { eapply repr_ext; [exact Hrc|]. intros l0. rewrite Hsub. cbn beta.
    split; [intros [? ?]; split; [assumption|tauto]|intros [? Hn]; split; [assumption|]].
    intros ->. apply Hn. auto. }
  assert (Hcells : ∀ i c2, cell (set_cell (cluster V) h c) i = Some c2 →
                           repr (k / 2) c2 (sub S' mn' lo i)).
  { eapply cells_repr_set; eauto. intros i l0 Hne. rewrite Hsub. tauto. }
  assert (Hlen : length (set_cell (cluster V) h c) = length (cluster V))
    by apply length_set_cell.
  assert (Hrange' : ∀ y, S' y → 0 ≤ y < up * lo) by (intros y Hy; apply Hrange in Hy; lia).
  assert (Hsame : x' ≠ max V → extremes S' mn' (max V)).
  { intros Hne. right. split; [assumption|]. split; [auto|].
    intros y Hy. split; [auto|]. destruct Hy as [Hy _]. auto. }
  assert (Hocc_h : occupied S (min V) lo up h) by (split; [assumption|eauto]).
  destruct (Z.eqb_spec (min c) (-1)) as [Hce|Hce].
  - pose proof (proj1 (repr_empty _ _ _ Hrc') Hce) as Hempty.
    destruct (IH _ Hlts s _ h Hrs Hocc_h) as (s' & -> & Hrs'). cbn [mbind option_bind].
    assert (Hrs'' : repr (k - k / 2) s' (occupied S' mn' lo up)).
    { eapply repr_ext; [exact Hrs'|]. intros i. unfold occupied. cbn beta. split.
      - intros [(R & l0 & HT) Hne]. split; [assumption|]. exists l0. apply Hsub. tauto.
      - intros (R & l0 & HT). destruct (Z.eq_dec i h) as [->|Hne];
          [destruct (Hempty _ HT)|]. apply Hsub in HT as [HT _]. eauto. }
    assert (Hfin : ∀ mx', extremes S' mn' mx' →
              repr k (mkNode (u V) mn' mx' (Some s') (set_cell (cluster V) h c) lo up) S').
    { intros mx' He. apply repr_set_node; auto. }
    destruct (Z.eqb_spec x' (max V)) as [Exm|Exm]; [|eexists; split; [reflexivity|auto]].
    destruct (Z.eqb_spec (max s') (-1)) as [Hse|Hse].
    + eexists. split; [reflexivity|]. apply Hfin.
      pose proof (proj1 (repr_max_empty _ _ _ Hrs'') Hse) as Hnone.
      pose proof (no_cell_single S' mn' lo up Hlo0 Hrange' Hnone) as Hone.
      right. split; [assumption|]. split; [assumption|].
      intros y Hy. apply Hone in Hy. lia.
    + destruct (repr_max _ _ _ Hrs'' Hse) as [[Rsm (lm & HTm)] Hsmax].
      destruct (cell_lookup (set_cell (cluster V) h c) (max s')) as (c' & Hc' & _).
      { rewrite Hlen. destruct (wf_node_inv _ _ Hwf Hu) as (_ & _ & Hup & _ & Hl0 & _).
        subst up. lia. }
      rewrite Hc'. cbn [mbind option_bind]. eexists. split; [reflexivity|].
      apply Hfin. pose proof (Hcells _ _ Hc') as Hrc''.
      assert (Hc'ne : max c' ≠ -1)
        by (intros E; exact (proj1 (repr_max_empty _ _ _ Hrc'') E _ HTm)).
      destruct (repr_max _ _ _ Hrc'' Hc'ne) as [HTmax Hcmax].
      destruct (greatest_by_cell S' mn' lo up (max s') (max c')) as [HSg Hg]; auto.
      right. unfold idx. split; [assumption|]. split; [assumption|]. auto.
  - destruct (repr_min _ _ _ Hrc' Hce) as [HTmin _].
    assert (Hrs'' : repr (k - k / 2) s (occupied S' mn' lo up)).
    { eapply repr_ext; [exact Hrs|]. intros i. unfold occupied. split.
      - intros (R & l0 & HT). split; [assumption|].
        destruct (Z.eq_dec i h) as [->|Hne]; [eauto|]. exists l0. apply Hsub. tauto.
      - intros (R & l0 & HT). split; [assumption|]. apply Hsub in HT as [HT _]. eauto. }
    assert (Hfin : ∀ mx', extremes S' mn' mx' →
              repr k (mkNode (u V) mn' mx' (Some s) (set_cell (cluster V) h c) lo up) S').
    { intros mx' He. apply repr_set_node; auto. }
    destruct (Z.eqb_spec x' (max V)) as [Exm|Exm]; [|eexists; split; [reflexivity|auto]].
    eexists. split; [reflexivity|]. apply Hfin.
    assert (Hcne : max c ≠ -1)
      by (intros E; exact (proj1 (repr_max_empty _ _ _ Hrc') E _ HTmin)).
    destruct (repr_max _ _ _ Hrc' Hcne) as [HTmax Hcmax].
    destruct (greatest_by_cell S' mn' lo up h (max c)) as [HSg Hg]; auto.
    { intros j (Rj & l0 & (Rl0 & [HSj _] & _)). apply Hge in HSj.
      rewrite <- Exm, Hidx in HSj.
      destruct (Z_le_gt_dec j h) as [|Hgt]; [assumption|exfalso].
      assert (h * lo + l < j * lo + l0) by (apply idx_lt; auto; lia). lia. }
    right. unfold idx. split; [assumption|]. split; [assumption|]. auto.
Qed.

(** ** Successor and predecessor on the represented set *)

Lemma vEB_successor_repr k : ∀ V S x,
  repr k V S → 0 ≤ x < u V →
  ∃ r, vEB_successor V x = Some r ∧
       ((r = -1 ∧ ∀ y, S y → y ≤ x) ∨
        (S r ∧ x < r ∧ ∀ y, S y → x < y → r ≤ y)).
Proof.
  induction k as [k IH] using lt_wf_ind. intros V S x Hr Hx.
  rewrite vEB_successor_eq. unfold vEB_min, vEB_max.
  pose proof (repr_wf _ _ _ Hr) as Hwf.
  destruct (Z.leb_spec (u V) 2) as [Hu|Hu].
  { assert (Hleaf : ∀ y, S y → 0 ≤ y < 2) by (intros y Hy; eapply repr_leaf_range; eauto).
    destruct (Z.eqb_spec x 0) as [->|Hx0]; cbn [andb].
    - destruct (Z.eqb_spec (max V) 1) as [E|E].
      + eexists. split; [reflexivity|]. right.
        destruct (repr_max _ _ _ Hr ltac:(lia)) as [Smx _]. rewrite E in Smx.
        split; [assumption|]. split; [lia|]. intros y Hy ?. lia.
      + eexists. split; [reflexivity|]. left. split; [reflexivity|].
        intros y Hy. pose proof (Hleaf _ Hy).
        assert (Hmx : max V ≠ -1)
          by (intros E'; exact (proj1 (repr_max_empty _ _ _ Hr) E' _ Hy)).
        destruct (repr_max _ _ _ Hr Hmx) as [Smx Hge].
        pose proof (Hleaf _ Smx). apply Hge in Hy. lia.
    - eexists. split; [reflexivity|]. left. split; [reflexivity|].
      intros y Hy. apply Hleaf in Hy. lia. }
  destruct (negb (min V =? -1) && (x <? min V)) eqn:Hshort.
  { apply andb_prop in Hshort as [H1 H2].
    apply negb_true_iff, Z.eqb_neq in H1. apply Z.ltb_lt in H2.
    destruct (repr_min _ _ _ Hr H1) as [Smn Hle].
    eexists. split; [reflexivity|]. right. split; [assumption|]. split; [assumption|].
    intros y Hy _. auto. }
  assert (Hminle : ∀ y, S y → min V ≤ x).
  { intros y Hy.
    assert (Hmn : min V ≠ -1) by (intros E; exact (proj1 (repr_empty _ _ _ Hr) E _ Hy)).
    apply andb_false_iff in Hshort as [H1|H1].
    - apply negb_false_iff, Z.eqb_eq in H1. lia.
    - apply Z.ltb_ge in H1. assumption. }
  clear Hshort.
  destruct (wf_u_split _ _ Hwf Hu) as [HU Hlo0].
  destruct (repr_descend _ _ _ _ Hr Hu Hx) as (Hlt' & Hidx & Hh & Hl & c & Hc & Hrc & Huc).
  destruct (repr_summary _ _ _ Hr Hu) as (Hlts & s & Hs & Hus & Hrs).
  rewrite Hc, Hs. cbn [mbind option_bind].
  set (h := high V x) in *. set (l := low V x) in *.
  set (lo := lower_sqrt V) in *. set (up := upper_sqrt V) in *.
  assert (Hrange : ∀ y, S y → 0 ≤ y < up * lo)
    by (intros y Hy; pose proof (repr_range _ _ _ _ Hr Hy); lia).
  assert (Hkey : ∀ y, S y → y ≠ min V →
            ∃ i l0, y = i * lo + l0 ∧ occupied S (min V) lo up i ∧ sub S (min V) lo i l0).
  { intros y Hy Hne.
    destruct (sub_key S (min V) lo up y Hlo0 (Hrange _ Hy) Hy Hne) as (? & ? & ?). eauto. }
  assert (Habove : ∀ y, S y → x < y →
            ∃ i l0, y = i * lo + l0 ∧ occupied S (min V) lo up i ∧ sub S (min V) lo i l0 ∧
                    (h < i ∨ (i = h ∧ l < l0))).
  { intros y Hy Hxy. pose proof (Hminle _ Hy).
    destruct (Hkey y Hy ltac:(lia)) as (i & l0 & -> & Hocc & HTy).
    exists i, l0. split; [reflexivity|]. split; [assumption|]. split; [assumption|].
    rewrite Hidx in Hxy. apply idx_lt in Hxy; [lia|lia|destruct HTy; lia]. }
  destruct (negb (max c =? -1) && (l <? max c)) eqn:Hin.
  - apply andb_prop in Hin as [Hcm Hlm].
    apply negb_true_iff, Z.eqb_neq in Hcm. apply Z.ltb_lt in Hlm.
    destruct (repr_max _ _ _ Hrc Hcm) as [HTmax _].
    destruct (IH _ Hlt' c _ l Hrc ltac:(lia))
      as (off & -> & [[_ Hno]|(HT & Hloff & Hleast)]);
      [apply Hno in HTmax; lia|].
    cbn [mbind option_bind]. eexists. split; [reflexivity|]. right. unfold idx.
    assert (Roff : 0 ≤ off < lo) by (destruct HT; assumption).
    split; [destruct HT as (? & ? & ?); assumption|].
    split; [rewrite Hidx; apply idx_lt; [lia|lia|right; lia]|].
    intros y Hy Hxy.
    destruct (Habove y Hy Hxy) as (i & l0 & -> & Hocc & HTy & [Hih|[-> Hll]]).
    + apply Z.lt_le_incl. apply idx_lt; [lia|destruct HTy; lia|left; lia].
    + apply Hleast in HTy; [lia|assumption].
  - assert (Hbelow : ∀ l0, sub S (min V) lo h l0 → l0 ≤ l).
    { intros l0 HT0.
      assert (Hcm : max c ≠ -1)
        by (intros E; exact (proj1 (repr_max_empty _ _ _ Hrc) E _ HT0)).
      destruct (repr_max _ _ _ Hrc Hcm) as [_ Hge]. apply Hge in HT0.
      apply andb_false_iff in Hin as [H1|H1].
      - apply negb_false_iff, Z.eqb_eq in H1. lia.
      - apply Z.ltb_ge in H1. lia. }
    clear Hin.
    destruct (IH _ Hlts s _ h Hrs ltac:(lia))
      as (sc & -> & [[-> Hnone]|(Hocc & Hhsc & Hleast)]); cbn [mbind option_bind].
    + cbn [Z.eqb]. eexists. split; [reflexivity|]. left. split; [reflexivity|].
      intros y Hy. destruct (Z_le_gt_dec y x) as [|Hxy]; [assumption|exfalso].
      destruct (Habove y Hy ltac:(lia)) as (i & l0 & -> & Hocc & HTy & [Hih|[-> Hll]]).
      * apply Hnone in Hocc. lia.
      * apply Hbelow in HTy. lia.
    + destruct (Z.eqb_spec sc (-1)) as [E|_]; [lia|].
      destruct Hocc as (Rsc & lsc & HTsc).
      destruct (repr_cell _ _ _ sc Hr Hu Rsc) as (c' & -> & Hrc' & _).
      cbn [mbind option_bind].
      assert (Hc'ne : min c' ≠ -1)
        by (intros E; exact (proj1 (repr_empty _ _ _ Hrc') E _ HTsc)).
      destruct (repr_min _ _ _ Hrc' Hc'ne) as [HTmin Hcmin].
      assert (Rmin : 0 ≤ min c' < lo) by (destruct HTmin; assumption).
      eexists. split; [reflexivity|]. right. unfold idx.
      split; [destruct HTmin as (? & ? & ?); assumption|].
      split; [rewrite Hidx; apply idx_lt; [lia|lia|left; lia]|].
      intros y Hy Hxy.
      destruct (Habove y Hy Hxy) as (i & l0 & -> & Hocci & HTy & [Hih|[-> Hll]]);
        [|apply Hbelow in HTy; lia].
      apply Hleast in Hocci; [|assumption].
      destruct (Z.eq_dec i sc) as [->|Hne]; [apply Hcmin in HTy; lia|].
      apply Z.lt_le_incl. apply idx_lt; [lia|destruct HTy; lia|left; lia].
Qed.

Lemma vEB_predecessor_repr k : ∀ V S x,
  repr k V S → 0 ≤ x < u V →
  ∃ r, vEB_predecessor V x = Some r ∧
       ((r = -1 ∧ ∀ y, S y → x ≤ y) ∨
        (S r ∧ r < x ∧ ∀ y, S y → y < x → y ≤ r)).
Proof.
  induction k as [k IH] using lt_wf_ind. intros V S x Hr Hx.
  rewrite vEB_predecessor_eq. unfold vEB_min, vEB_max.
  pose proof (repr_wf _ _ _ Hr) as Hwf.
  destruct (Z.leb_spec (u V) 2) as [Hu|Hu].
  { assert (Hleaf : ∀ y, S y → 0 ≤ y < 2) by (intros y Hy; eapply repr_leaf_range; eauto).
    destruct (Z.eqb_spec x 1) as [->|Hx1]; cbn [andb].
    - destruct (Z.eqb_spec (min V) 0) as [E|E].
      + eexists. split; [reflexivity|]. right.
        destruct (repr_min _ _ _ Hr ltac:(lia)) as [Smn _]. rewrite E in Smn.
        split; [assumption|]. split; [lia|]. intros y Hy ?. lia.
      + eexists. split; [reflexivity|]. left. split; [reflexivity|].
        intros y Hy. pose proof (Hleaf _ Hy).
        assert (Hmn : min V ≠ -1)
          by (intros E'; exact (proj1 (repr_empty _ _ _ Hr) E' _ Hy)).
        destruct (repr_min _ _ _ Hr Hmn) as [Smn Hle].
        pose proof (Hleaf _ Smn). apply Hle in Hy. lia.
    - eexists. split; [reflexivity|]. left. split; [reflexivity|].
      intros y Hy. apply Hleaf in Hy. lia. }
  destruct (negb (max V =? -1) && (x >? max V)) eqn:Hshort.
  { apply andb_prop in Hshort as [H1 H2].
    apply negb_true_iff, Z.eqb_neq in H1. apply Z.gtb_lt in H2.
    destruct (repr_max _ _ _ Hr H1) as [Smx Hge].
    eexists. split; [reflexivity|]. right. split; [assumption|]. split; [assumption|].
    intros y Hy _. auto. }
  destruct (wf_u_split _ _ Hwf Hu) as [HU Hlo0].
  destruct (repr_descend _ _ _ _ Hr Hu Hx) as (Hlt' & Hidx & Hh & Hl & c & Hc & Hrc & Huc).
  destruct (repr_summary _ _ _ Hr Hu) as (Hlts & s & Hs & Hus & Hrs).
  rewrite Hc, Hs. cbn [mbind option_bind]. clear Hshort.
  set (h := high V x) in *. set (l := low V x) in *.
  set (lo := lower_sqrt V) in *. set (up := upper_sqrt V) in *.
  assert (Hrange : ∀ y, S y → 0 ≤ y < up * lo)
    by (intros y Hy; pose proof (repr_range _ _ _ _ Hr Hy); lia).
  assert (Hbelow : ∀ y, S y → y < x → y ≠ min V →
            ∃ i l0, y = i * lo + l0 ∧ occupied S (min V) lo up i ∧ sub S (min V) lo i l0 ∧
                    (i < h ∨ (i = h ∧ l0 < l))).
  { intros y Hy Hxy Hne.
    destruct (sub_key S (min V) lo up y Hlo0 (Hrange _ Hy) Hy Hne) as (Hocc & HTy & E).
    exists (y ÷ lo), (Z.rem y lo). split; [assumption|]. split; [assumption|].
    split; [assumption|].
    rewrite Hidx, E in Hxy. apply idx_lt in Hxy; [lia|destruct HTy; lia|lia]. }
  assert (Hminr : ∀ r y, S r → S y → y = min V → y ≤ r).
  { intros r y Sr Hy ->.
    assert (Hmn : min V ≠ -1) by (intros E; exact (proj1 (repr_empty _ _ _ Hr) E _ Hy)).
    destruct (repr_min _ _ _ Hr Hmn) as [_ Hle]. auto. }
  destruct (negb (min c =? -1) && (l >? min c)) eqn:Hin.
  - apply andb_prop in Hin as [Hcm Hlm].
    apply negb_true_iff, Z.eqb_neq in Hcm. apply Z.gtb_lt in Hlm.
    destruct (repr_min _ _ _ Hrc Hcm) as [HTmin _].
    destruct (IH _ Hlt' c _ l Hrc ltac:(lia))
      as (off & -> & [[_ Hno]|(HT & Hloff & Hgreatest)]);
      [apply Hno in HTmin; lia|].
    cbn [mbind option_bind]. eexists. split; [reflexivity|]. right. unfold idx.
    assert (Roff : 0 ≤ off < lo) by (destruct HT; assumption).
    assert (Sr : S (h * lo + off)) by (destruct HT as (? & ? & ?); assumption).
    split; [assumption|].
    split; [rewrite Hidx; apply idx_lt; [lia|lia|right; lia]|].
    intros y Hy Hxy. destruct (Z.eq_dec y (min V)) as [E|E]; [eauto|].
    destruct (Hbelow y Hy Hxy E) as (i & l0 & -> & Hocc & HTy & [Hih|[-> Hll]]).
    + apply Z.lt_le_incl. apply idx_lt; [destruct HTy; lia|lia|left; lia].
    + apply Hgreatest in HTy; [lia|assumption].
  - assert (Habove : ∀ l0, sub S (min V) lo h l0 → l ≤ l0).
    { intros l0 HT0.
      assert (Hcm : min c ≠ -1)
        by (intros E; exact (proj1 (repr_empty _ _ _ Hrc) E _ HT0)).
      destruct (repr_min _ _ _ Hrc Hcm) as [_ Hle]. apply Hle in HT0.
      apply andb_false_iff in Hin as [H1|H1].
      - apply negb_false_iff, Z.eqb_eq in H1. lia.
      - rewrite Z.gtb_ltb in H1. apply Z.ltb_ge in H1. lia. }
    clear Hin.
    destruct (IH _ Hlts s _ h Hrs ltac:(lia))
      as (pc & -> & [[-> Hnone]|(Hocc & Hpch & Hgreatest)]); cbn [mbind option_bind].
    + cbn [Z.eqb].
      assert (Honly : ∀ y, S y → y < x → y = min V).
      { intros y Hy Hxy. destruct (Z.eq_dec y (min V)) as [|E]; [assumption|exfalso].
        destruct (Hbelow y Hy Hxy E) as (i & l0 & -> & Hocc & HTy & [Hih|[-> Hll]]).
        - apply Hnone in Hocc. lia.
        - apply Habove in HTy. lia. }
      destruct (negb (min V =? -1) && (x >? min V)) eqn:Hfb.
      * apply andb_prop in Hfb as [H1 H2].
        apply negb_true_iff, Z.eqb_neq in H1. apply Z.gtb_lt in H2.
        destruct (repr_min _ _ _ Hr H1) as [Smn Hle].
        eexists. split; [reflexivity|]. right. split; [assumption|]. split; [assumption|].
        intros y Hy Hxy. apply Honly in Hy; [lia|assumption].
      * eexists. split; [reflexivity|]. left. split; [reflexivity|].
        intros y Hy. destruct (Z_le_gt_dec x y) as [|Hxy]; [assumption|exfalso].
        pose proof (Honly y Hy ltac:(lia)) as E.
        assert (Hmn : min V ≠ -1) by (intros E'; exact (proj1 (repr_empty _ _ _ Hr) E' _ Hy)).
        apply andb_false_iff in Hfb as [H1|H1].
        -- apply negb_false_iff, Z.eqb_eq in H1. lia.
        -- rewrite Z.gtb_ltb in H1. apply Z.ltb_ge in H1. lia.
    + destruct Hocc as (Rpc & lpc & HTpc).
      destruct (Z.eqb_spec pc (-1)) as [E|_]; [lia|].
      destruct (repr_cell _ _ _ pc Hr Hu Rpc) as (c' & -> & Hrc' & _).
      cbn [mbind option_bind].
      assert (Hc'ne : max c' ≠ -1)
        by (intros E; exact (proj1 (repr_max_empty _ _ _ Hrc') E _ HTpc)).
      destruct (repr_max _ _ _ Hrc' Hc'ne) as [HTmax Hcmax].
      assert (Rmax : 0 ≤ max c' < lo) by (destruct HTmax; assumption).
      assert (Sr : S (pc * lo + max c')) by (destruct HTmax as (? & ? & ?); assumption).
      eexists. split; [reflexivity|]. right. unfold idx.
      split; [assumption|].
      split; [rewrite Hidx; apply idx_lt; [lia|lia|left; lia]|].
      intros y Hy Hxy. destruct (Z.eq_dec y (min V)) as [E|E]; [eauto|].
      destruct (Hbelow y Hy Hxy E) as (i & l0 & -> & Hocci & HTy & [Hih|[-> Hll]]);
        [|apply Habove in HTy; lia].
      apply Hgreatest in Hocci; [|assumption].
      destruct (Z.eq_dec i pc) as [->|Hne]; [apply Hcmax in HTy; lia|].
      apply Z.lt_le_incl. apply idx_lt; [destruct HTy; lia|lia|left; lia].
Qed.

(** ** Trees built without deleting an absent key *)

Lemma stored_repr k V S x : repr k V S → (stored V x ↔ S x).
Proof.
  intros Hr. unfold stored. split.
  - intros [Hx Hm]. destruct (vEB_member_repr k V S x Hr Hx) as (b & Hb & Hiff).
    apply Hiff. congruence.
  - intros HS. pose proof (repr_range _ _ _ _ Hr HS) as Hx. split; [assumption|].
    destruct (vEB_member_repr k V S x Hr Hx) as (b & Hb & Hiff).
    rewrite Hb. f_equal. apply Hiff. assumption.
Qed.

Lemma vEB_member_false_repr k V S x :
  repr k V S → 0 ≤ x < u V → ¬ S x → vEB_member V x = Some false.
Proof.
  intros Hr Hx HnS. destruct (vEB_member_repr k V S x Hr Hx) as ([|] & Hb & Hiff);
    [|assumption]. destruct HnS. apply Hiff. reflexivity.
Qed.

Lemma out_of_range_insert V x : ¬ 0 ≤ x < u V → vEB_insert V x = Some V.
Proof.
  intros Hx. rewrite vEB_insert_eq.
  destruct (Z.ltb_spec x 0); [reflexivity|].
  destruct (Z.geb_spec x (u V)); [reflexivity|lia].
Qed.

Lemma out_of_range_delete V x : ¬ 0 ≤ x < u V → vEB_delete V x = Some V.
Proof.
  intros Hx. rewrite vEB_delete_eq.
  destruct (Z.ltb_spec x 0); [reflexivity|].
  destruct (Z.geb_spec x (u V)); [reflexivity|lia].
Qed.

(** On a tree that represents a set, Delete returns for every key, member
    or not (what it returns for an absent key need not represent a set). *)
Lemma vEB_delete_returns k : ∀ V S x, repr k V S → is_Some (vEB_delete V x).
Proof.
  induction k as [k IH] using lt_wf_ind. intros V S x Hr.
  destruct (decide (0 ≤ x < u V)) as [Hx|Hx];
    [|rewrite out_of_range_delete by assumption; eauto].
  destruct (vEB_member_repr k V S x Hr Hx) as ([|] & _ & Hb).
  { destruct (vEB_delete_repr k V S x Hr) as (V' & -> & _); [apply Hb; reflexivity|eauto]. }
  assert (HnS : ¬ S x) by (intros HS; apply Hb in HS; discriminate).
  rewrite vEB_delete_eq. unfold vEB_min, vEB_max.
  destruct (Z.ltb_spec x 0); [lia|]. destruct (Z.geb_spec x (u V)); [lia|]. cbn [orb].
  destruct (Z.eqb_spec (min V) (max V)) as [Heq|Hneq]; [eauto|].
  destruct (Z.eqb_spec (u V) 2) as [Hu2|Hu2]; [eauto|].
  pose proof (repr_wf _ _ _ Hr) as Hwf.
  assert (Hu : 2 < u V) by (pose proof (wf_u_ge _ _ Hwf); lia).
  assert (Hmn : min V ≠ -1).
  { intros E. pose proof (proj1 (repr_empty _ _ _ Hr) E) as He.
    apply Hneq. rewrite E. symmetry. apply (repr_max_empty _ _ _ Hr). assumption. }
  destruct (repr_min _ _ _ Hr Hmn) as [Smn _].
  assert (Hmx : max V ≠ -1) by (intros E; exact (proj1 (repr_max_empty _ _ _ Hr) E _ Smn)).
  destruct (repr_max _ _ _ Hr Hmx) as [Smx _].
  destruct (Z.eqb_spec x (min V)) as [->|_]; [contradiction|].
  cbn [mbind option_bind].
  destruct (repr_descend _ _ _ _ Hr Hu Hx) as (Hlt & _ & _ & _ & c0 & -> & Hrc0 & _).
  destruct (repr_summary _ _ _ Hr Hu) as (Hlts & s & -> & _ & Hrs).
  cbn [mbind option_bind].
  destruct (IH _ Hlt c0 _ (low V x) Hrc0) as [c ->]. cbn [mbind option_bind].
  assert (Hxm : (x =? max V) = false) by (apply Z.eqb_neq; congruence).
  rewrite Hxm.
  destruct (min c =? -1); [|eauto].
  destruct (IH _ Hlts s _ (high V x) Hrs) as [s' ->]. cbn [mbind option_bind]. eauto.
Qed.

(** Every built tree represents a set. *)
Lemma built_repr V : built V → ∃ k S, repr k V S.
Proof.
  induction 1 as [U V Hc|V x V' _ (k & S & Hr) Hins|V x V' _ (k & S & Hr) Hm Hdel].
  - destruct (vEB_create_repr _ _ Hc) as (k & _ & Hr). eauto.
  - destruct (decide (0 ≤ x < u V)) as [Hx|Hx].
    + destruct (vEB_insert_repr k V S x Hr Hx) as (V1 & Hins' & Hr').
      exists k. eexists. replace V' with V1 by congruence. exact Hr'.
    + rewrite out_of_range_insert in Hins by assumption. injection Hins as <-. eauto.
  - destruct (decide (0 ≤ x < u V)) as [Hx|Hx].
    + assert (HS : S x) by (apply (stored_repr _ _ _ _ Hr); split; assumption).
      destruct (vEB_delete_repr k V S x Hr HS) as (V1 & Hdel' & Hr').
      exists k. eexists. replace V' with V1 by congruence. exact Hr'.
    + rewrite out_of_range_delete in Hdel by assumption. injection Hdel as <-. eauto.
Qed.

Lemma built_reachable V : built V → reachable V.
Proof.
  induction 1; [eapply reachable_create|eapply reachable_insert|eapply reachable_delete];
    eauto.
Qed.

(** Every node of a tree that represents a set represents one. *)
Lemma repr_node_of k V S N : repr k V S → node_of N V → ∃ k' S', repr k' N S'.
Proof.
  intros Hr Hn. revert k S Hr.
  induction Hn as [V|N V s Hs _ IH|N V c Hc _ IH]; intros k S Hr; [eauto| |].
  - destruct Hr; fields; [discriminate|]. injection Hs as <-. eauto.
  - destruct Hr as [|k S mn mx s cl Hk Hrg He Hlen Hcl Hs]; fields; [inversion Hc|].
    apply list_elem_of_lookup in Hc as [n Hn].
    eapply IH. apply (Hcl (Z.of_nat n)). apply cell_Some.
    rewrite Nat2Z.id. split; [lia|assumption].
Qed.

(** On a built tree: Insert makes the key a member, Delete after it makes
    the key absent. *)
Lemma built_insert_delete V x :
  built V → 0 ≤ x < u V →
  ∃ V1 V2, vEB_insert V x = Some V1 ∧ vEB_member V1 x = Some true ∧
           vEB_delete V1 x = Some V2 ∧ vEB_member V2 x = Some false.
Proof.
  intros HV Hx. destruct (built_repr V HV) as (k & S & Hr).
  destruct (vEB_insert_repr k V S x Hr Hx) as (V1 & Hins & Hr1).
  pose proof (wf_u _ _ (repr_wf _ _ _ Hr)) as HuV.
  pose proof (wf_u _ _ (repr_wf _ _ _ Hr1)) as HuV1.
  assert (Hx1 : 0 ≤ x < u V1) by lia.
  assert (HS1 : (λ y, S y ∨ y = x) x) by (right; reflexivity).
  destruct (vEB_delete_repr k V1 _ x Hr1 HS1) as (V2 & Hdel & Hr2).
  pose proof (wf_u _ _ (repr_wf _ _ _ Hr2)) as HuV2.
  exists V1, V2. repeat split; try assumption.
  - apply (stored_repr _ _ _ x Hr1). assumption.
  - apply (vEB_member_false_repr _ _ _ _ Hr2); [lia|]. cbn beta. tauto.
Qed.

(** X17.  On a tree built without deleting an absent key, Successor of a
    key of the universe, stored or not, answers with the least stored key
    above it, or with the sentinel when no stored key is above it. *)
Lemma built_successor V x :
  built V → 0 ≤ x < u V →
  ∃ r, vEB_successor V x = Some r ∧
       ((r = -1 ∧ ∀ y, stored V y → y ≤ x) ∨
        (stored V r ∧ x < r ∧ ∀ y, stored V y → x < y → r ≤ y)).
Proof.
  intros HV Hx. destruct (built_repr V HV) as (k & S & Hr).
  destruct (vEB_successor_repr k V S x Hr Hx) as (r & Hs & Hspec).
  exists r. split; [assumption|].
  destruct Hspec as [[-> Hno]|(HS & Hlt & Hleast)]; [left|right].
  - split; [reflexivity|]. intros y Hy. apply Hno. apply (stored_repr _ _ _ _ Hr). assumption.
  - split; [apply (stored_repr _ _ _ _ Hr); assumption|]. split; [assumption|].
    intros y Hy. apply Hleast. apply (stored_repr _ _ _ _ Hr). assumption.
Qed.

(** X18.  On a tree built without deleting an absent key, Predecessor of
    a key of the universe, stored or not, answers with the greatest stored
    key below it, or with the sentinel when no stored key is below it. *)
Lemma built_predecessor V x :
  built V → 0 ≤ x < u V →
  ∃ r, vEB_predecessor V x = Some r ∧
       ((r = -1 ∧ ∀ y, stored V y → x ≤ y) ∨
        (stored V r ∧ r < x ∧ ∀ y, stored V y → y < x → y ≤ r)).
Proof.
  intros HV Hx. destruct (built_repr V HV) as (k & S & Hr).
  destruct (vEB_predecessor_repr k V S x Hr Hx) as (r & Hs & Hspec).
  exists r. split; [assumption|].
  destruct Hspec as [[-> Hno]|(HS & Hlt & Hgreatest)]; [left|right].
  - split; [reflexivity|]. intros y Hy. apply Hno. apply (stored_repr _ _ _ _ Hr). assumption.
  - split; [apply (stored_repr _ _ _ _ Hr); assumption|]. split; [assumption|].
    intros y Hy. apply Hgreatest. apply (stored_repr _ _ _ _ Hr). assumption.
Qed.

(** X19.  On a tree built without deleting an absent key, in every node
    with [u > 2] the summary holds [i] exactly when cell [i] of the cluster
    array holds a key, which is when the cell's [min] is not the
    sentinel. *)
Lemma built_summary V N s i c :
  built V → node_of N V → 2 < u N →
  summary N = Some s → cell (cluster N) i = Some c →
  (stored s i ↔ min c ≠ -1) ∧ (min c ≠ -1 ↔ ∃ l, stored c l).
Proof.
  intros HV HN Hu Hs Hc. destruct (built_repr V HV) as (k & S & Hr).
  destruct (repr_node_of _ _ _ _ Hr HN) as (k' & S' & HrN).
  destruct (repr_summary _ _ _ HrN Hu) as (_ & s0 & Hs0 & _ & Hrs).
  assert (s0 = s) as -> by congruence.
  destruct (repr_node_inv _ _ _ HrN Hu) as (Hcl & _).
  pose proof (Hcl _ _ Hc) as Hrc.
  destruct (wf_cell_Some _ _ _ _ (repr_wf _ _ _ HrN) Hu Hc) as [Hi _].
  assert (Hne : min c ≠ -1 ↔ ∃ l, sub S' (min N) (lower_sqrt N) i l).
  { split.
    - intros Hmn. destruct (repr_min _ _ _ Hrc Hmn) as [HT _]. eauto.
    - intros [l HT] E. exact (proj1 (repr_empty _ _ _ Hrc) E _ HT). }
  split.
  - rewrite (stored_repr _ _ _ i Hrs), Hne. unfold occupied. tauto.
  - rewrite Hne. split; intros [l Hl]; exists l; apply (stored_repr _ _ _ l Hrc); assumption.
Qed.

(** X20.  On a tree built without deleting an absent key, in every node
    [min] and [max] are both the sentinel when the node holds no key, and
    otherwise the least and the greatest key it holds; so [vEB_min] and
    [vEB_max] of the root answer with the extremes of the stored keys. *)
Lemma built_min_max V N :
  built V → node_of N V →
  (min N = -1 ↔ max N = -1) ∧
  (min N = -1 ↔ ∀ y, ¬ stored N y) ∧
  (min N ≠ -1 →
     0 ≤ min N ∧ min N ≤ max N ∧ max N ≤ u N - 1 ∧
     stored N (min N) ∧ stored N (max N) ∧
     ∀ y, stored N y → min N ≤ y ≤ max N).
Proof.
  intros HV HN. destruct (built_repr V HV) as (k & S & Hr).
  destruct (repr_node_of _ _ _ _ Hr HN) as (k' & S' & HrN).
  pose proof (repr_empty _ _ _ HrN) as He. pose proof (repr_max_empty _ _ _ HrN) as He'.
  split; [tauto|]. split.
  - rewrite He. split; intros H y Hy; apply (H y); apply (stored_repr _ _ _ y HrN); assumption.
  - intros Hmn. destruct (repr_min _ _ _ HrN Hmn) as [Smn Hle].
    assert (Hmx : max N ≠ -1) by tauto.
    destruct (repr_max _ _ _ HrN Hmx) as [Smx Hge].
    pose proof (repr_range _ _ _ _ HrN Smn). pose proof (repr_range _ _ _ _ HrN Smx).
    pose proof (Hle _ Smx).
    split; [lia|]. split; [lia|]. split; [lia|].
    split; [apply (stored_repr _ _ _ _ HrN); assumption|].
    split; [apply (stored_repr _ _ _ _ HrN); assumption|].
    intros y Hy. apply (stored_repr _ _ _ _ HrN) in Hy. split; auto.
Qed.

(** ** What Insert and Delete print *)

Lemma stderr_in_cell f cl i :
  Stderr.in_cell f cl i = c ← cell cl i; r ← f c; Some (set_cell cl i r.1, r.2).
Proof.
  unfold Stderr.in_cell, cell, set_cell. destruct (i <? 0); [reflexivity|].
  generalize (Z.to_nat i) as n. induction cl as [|c cl IH]; intros [|n]; simpl; auto.
  - destruct (f c) as [[c' w]|]; reflexivity.
  - rewrite IH. destruct (cl !! n) as [d|]; simpl; [|reflexivity].
    destruct (f d) as [[d' w]|]; reflexivity.
Qed.

Lemma stderr_insert_eq V x :
  Stderr.vEB_insert V x =
  if (x <? 0) || (x >=? u V) then Some (V, [out_of_bounds x (u V)])
  else
    b ← vEB_member V x;
    if b : bool then Some (V, [])
    else if min V =? -1 then Some (vEB_empty_insert V x, [])
    else
      let x' := if x <? min V then min V else x in
      let mn' := if x <? min V then x else min V in
      let mx' := if x' >? max V then x' else max V in
      if u V >? 2 then
        c ← cell (cluster V) (high V x');
        if min c =? -1 then
          r ← (sm ← summary V; Stderr.vEB_insert sm (high V x'));
          Some (mkNode (u V) mn' mx' (Some r.1)
                  (set_cell (cluster V) (high V x') (vEB_empty_insert c (low V x')))
                  (lower_sqrt V) (upper_sqrt V), r.2)
        else
          r ← Stderr.vEB_insert c (low V x');
          Some (mkNode (u V) mn' mx' (summary V)
                  (set_cell (cluster V) (high V x') r.1) (lower_sqrt V) (upper_sqrt V), r.2)
      else Some (mkNode (u V) mn' mx' (summary V) (cluster V) (lower_sqrt V) (upper_sqrt V), []).
Proof.
  destruct V as [U mn mx s cl lo up]. cbn [Stderr.vEB_insert]. unfold high, low.
  cbn [u min max summary cluster lower_sqrt upper_sqrt].
  destruct ((x <? 0) || (x >=? U)); [reflexivity|].
  destruct (vEB_member _ x) as [[|]|]; try reflexivity. cbn [mbind option_bind].
  destruct (mn =? -1); [reflexivity|].
  destruct (x <? mn); cbn zeta;
    (destruct (U >? 2); [|reflexivity]);
    rewrite stderr_in_cell;
    (destruct (cell cl _) as [c|]; [|reflexivity]); cbn [mbind option_bind];
    (destruct (min c =? -1);
      [destruct s as [sm|]; [|reflexivity]; cbn [mbind option_bind];
       destruct (Stderr.vEB_insert sm _) as [[? ?]|]; reflexivity
      |destruct (Stderr.vEB_insert c _) as [[? ?]|]; reflexivity]).
Qed.

Lemma stderr_delete_eq V x :
  Stderr.vEB_delete V x =
  if (x <? 0) || (x >=? u V) then Some (V, [out_of_bounds x (u V)])
  else if min V =? max V then
    Some (mkNode (u V) (-1) (-1) (summary V) (cluster V) (lower_sqrt V) (upper_sqrt V), [])
  else if u V =? 2 then
    let v := if x =? 0 then 1 else 0 in
    Some (mkNode (u V) v v (summary V) (cluster V) (lower_sqrt V) (upper_sqrt V), [])
  else
    x' ← (if x =? min V then
            sm ← summary V;
            c ← cell (cluster V) (vEB_min sm);
            Some (idx V (vEB_min sm) (vEB_min c))
          else Some x);
    let mn' := if x =? min V then x' else min V in
    c0 ← cell (cluster V) (high V x');
    r ← Stderr.vEB_delete c0 (low V x');
    let cl' := set_cell (cluster V) (high V x') r.1 in
    if vEB_min r.1 =? -1 then
      r' ← (sm ← summary V; Stderr.vEB_delete sm (high V x'));
      if x' =? max V then
        if vEB_max r'.1 =? -1 then
          Some (mkNode (u V) mn' mn' (Some r'.1) cl' (lower_sqrt V) (upper_sqrt V),
                r.2 ++ r'.2)
        else
          c' ← cell cl' (vEB_max r'.1);
          Some (mkNode (u V) mn' (idx V (vEB_max r'.1) (vEB_max c')) (Some r'.1) cl'
                  (lower_sqrt V) (upper_sqrt V), r.2 ++ r'.2)
      else Some (mkNode (u V) mn' (max V) (Some r'.1) cl' (lower_sqrt V) (upper_sqrt V),
                 r.2 ++ r'.2)
    else if x' =? max V then
      Some (mkNode (u V) mn' (idx V (high V x') (vEB_max r.1)) (summary V) cl'
              (lower_sqrt V) (upper_sqrt V), r.2)
    else Some (mkNode (u V) mn' (max V) (summary V) cl' (lower_sqrt V) (upper_sqrt V), r.2).
Proof.
  destruct V as [U mn mx s cl lo up].
  cbn [Stderr.vEB_delete]. unfold high, low, idx.
  cbn [u min max summary cluster lower_sqrt upper_sqrt].
  destruct ((x <? 0) || (x >=? U)); [reflexivity|].
  destruct (mn =? mx); [reflexivity|].
  destruct (U =? 2); [reflexivity|].
  match goal with |- (?a ≫= _) = (?b ≫= _) => change b with a; destruct a as [x'|] end;
    [|reflexivity].
  cbn [mbind option_bind]. rewrite stderr_in_cell.
  destruct (cell cl (x' ÷ lo)) as [c0|] eqn:Hc0; [|reflexivity]. cbn [mbind option_bind].
  destruct (Stderr.vEB_delete c0 _) as [[c w]|]; [|reflexivity].
  cbn [mbind option_bind fst snd].
  erewrite cell_set_eq by eassumption. cbn [mbind option_bind].
  reflexivity.
Qed.

Global Arguments Stderr.vEB_insert : simpl never.
Global Arguments Stderr.vEB_delete : simpl never.

(** On every tree of the right shape, Insert returns what the procedure
    without the output returns, and prints one line exactly when the key is
    outside the universe of the root. *)
Lemma stderr_insert_wf k : ∀ V x,
  wf k V →
  Stderr.vEB_insert V x =
  V' ← vEB_insert V x;
  Some (V', if (x <? 0) || (x >=? u V) then [out_of_bounds x (u V)] else []).
Proof.
  induction k as [k IH] using lt_wf_ind. intros V x Hwf.
  rewrite stderr_insert_eq, vEB_insert_eq.
  destruct (Z.ltb_spec x 0) as [|Hx0]; [reflexivity|].
  destruct (Z.geb_spec x (u V)) as [|HxU]; [reflexivity|]. cbn [orb].
  destruct (vEB_member V x) as [[|]|]; [reflexivity| |reflexivity].
  cbn [mbind option_bind].
  pose proof (wf_min _ _ Hwf) as Hmn.
  destruct (Z.eqb_spec (min V) (-1)) as [|Hne]; [reflexivity|]. cbn zeta.
  set (x' := if x <? min V then min V else x).
  assert (Hx' : 0 ≤ x' < u V) by (subst x'; destruct (Z.ltb_spec x (min V)); lia).
  clearbody x'.
  destruct (Z.gtb_spec (u V) 2) as [Hu|Hu]; [|reflexivity].
  destruct (wf_descend _ _ _ Hwf Hu Hx') as (Hlt & c & Hc & Hwfc & Hl).
  destruct (wf_summary _ _ _ Hwf Hu Hx') as (Hlts & s & Hs & Hwfs & Hh).
  rewrite Hc. cbn [mbind option_bind].
  destruct (min c =? -1).
  - rewrite Hs. cbn [mbind option_bind]. rewrite (IH _ Hlts s (high V x') Hwfs).
    destruct (Z.ltb_spec (high V x') 0); [lia|].
    destruct (Z.geb_spec (high V x') (u s)); [lia|]. cbn [orb].
    destruct (vEB_insert s (high V x')); reflexivity.
  - rewrite (IH _ Hlt c (low V x') Hwfc).
    destruct (Z.ltb_spec (low V x') 0); [lia|].
    destruct (Z.geb_spec (low V x') (u c)); [lia|]. cbn [orb].
    destruct (vEB_insert c (low V x')); reflexivity.
Qed.

(** On a tree that represents a set, Delete of a key of the universe
    prints nothing. *)
Lemma stderr_delete_repr k : ∀ V S x,
  repr k V S → 0 ≤ x < u V →
  Stderr.vEB_delete V x = V' ← vEB_delete V x; Some (V', []).
Proof.
  induction k as [k IH] using lt_wf_ind. intros V S x Hr Hx.
  rewrite stderr_delete_eq, vEB_delete_eq.
  destruct (Z.ltb_spec x 0); [lia|]. destruct (Z.geb_spec x (u V)); [lia|]. cbn [orb].
  destruct (Z.eqb_spec (min V) (max V)) as [|Hne]; [reflexivity|].
  destruct (Z.eqb_spec (u V) 2) as [|Hu2]; [reflexivity|].
  assert (Hu : 2 < u V) by (pose proof (wf_u_ge _ _ (repr_wf _ _ _ Hr)); lia).
  assert (Hmn : min V ≠ -1).
  { intros E. apply Hne. rewrite E. symmetry.
    apply (repr_max_empty _ _ _ Hr), (repr_empty _ _ _ Hr), E. }
  set (ox := if x =? min V then _ else Some x).
  assert (Hox : ∃ x', ox = Some x' ∧ 0 ≤ x' < u V).
  { subst ox. destruct (x =? min V); [|eauto].
    destruct (repr_second _ _ _ Hr Hu Hne Hmn) as (s & c & Hs & Hc & HS & _).
    rewrite Hs. cbn [mbind option_bind]. unfold vEB_min. rewrite Hc.
    cbn [mbind option_bind]. eexists. split; [reflexivity|].
    apply (repr_range _ _ _ _ Hr HS). }
  destruct Hox as (x' & -> & Hx'). cbn [mbind option_bind]. cbn zeta.
  destruct (repr_descend _ _ _ x' Hr Hu Hx')
    as (Hlt & _ & Hh & Hl & c0 & Hc0 & Hrc0 & Huc0).
  rewrite Hc0. cbn [mbind option_bind].
  rewrite (IH _ Hlt c0 _ (low V x') Hrc0) by lia.
  destruct (vEB_delete c0 (low V x')) as [c|]; [|reflexivity].
  cbn [mbind option_bind fst snd].
  destruct (vEB_min c =? -1).
  - destruct (repr_summary _ _ _ Hr Hu) as (Hlts & s & Hs & Hus & Hrs).
    rewrite Hs. cbn [mbind option_bind].
    rewrite (IH _ Hlts s _ (high V x') Hrs) by lia.
    destruct (vEB_delete s (high V x')) as [s'|]; [|reflexivity].
    cbn [mbind option_bind fst snd app].
    destruct (x' =? max V); [|reflexivity].
    destruct (vEB_max s' =? -1); [reflexivity|].
    destruct (cell _ (vEB_max s')); reflexivity.
  - destruct (x' =? max V); reflexivity.
Qed.

(** * The test cases of vEBTree.c

    The runs of the test functions, with the results their comments
    expect. *)

Example testcase_empty_tree :
  ask vEB_member (build 16 []) 5 = Some false ∧
  ask vEB_successor (build 16 []) 5 = Some (-1) ∧
  ask vEB_predecessor (build 16 []) 5 = Some (-1).
Proof. repeat split; vm_compute; reflexivity. Qed.

Example testcase_u2_edge :
  ask vEB_member (build 2 [Insert 0]) 0 = Some true ∧
  ask vEB_member (build 2 [Insert 0]) 1 = Some false ∧
  ask vEB_successor (build 2 [Insert 0; Insert 1]) 0 = Some 1 ∧
  ask vEB_predecessor (build 2 [Insert 0; Insert 1]) 1 = Some 0 ∧
  ask vEB_member (build 2 [Insert 0; Insert 1; Delete 1]) 1 = Some false ∧
  min_max (build 2 [Insert 0; Insert 1; Delete 1; Delete 0]) = Some (-1, -1).
Proof. repeat split; vm_compute; reflexivity. Qed.

Example testcase_multiple_min_max_deletion :
  let os := [Insert 1; Insert 5; Insert 10; Insert 15] in
  min_max (build 16 os) = Some (1, 15) ∧
  min_max (build 16 (os ++ [Delete 1])) = Some (5, 15) ∧
  min_max (build 16 (os ++ [Delete 1; Delete 15])) = Some (5, 10) ∧
  min_max (build 16 (os ++ [Delete 1; Delete 15; Delete 10])) = Some (5, 5) ∧
  min_max (build 16 (os ++ [Delete 1; Delete 15; Delete 10; Delete 5])) = Some (-1, -1).
Proof. repeat split; vm_compute; reflexivity. Qed.

Example testcase_large_universe :
  let t := build 1024 [Insert 100; Insert 500; Insert 900] in
  ask vEB_member t 100 = Some true ∧ ask vEB_member t 500 = Some true ∧
  ask vEB_member t 900 = Some true ∧
  ask vEB_successor t 100 = Some 500 ∧ ask vEB_predecessor t 500 = Some 100.
Proof. repeat split; vm_compute; reflexivity. Qed.

Example testcase_full_tree :
  let t := build 16 (map (λ i, Insert (Z.of_nat i)) (seq 0 16)) in
  min_max t = Some (0, 15) ∧
  Forall (λ i, ask vEB_successor t (Z.of_nat i) = Some (Z.of_nat i + 1) ∧
               ask vEB_predecessor t (Z.of_nat i + 1) = Some (Z.of_nat i)) (seq 0 15).
Proof. split; [vm_compute; reflexivity|]. repeat constructor; vm_compute; reflexivity. Qed.

Example testcase_empty_tree_delete :
  min_max (build 16 [Delete 5]) = Some (-1, -1).
Proof. vm_compute; reflexivity. Qed.

Example testcase_u4 :
  let os := [Insert 0; Insert 3] in
  ask vEB_member (build 4 os) 0 = Some true ∧
  ask vEB_member (build 4 os) 3 = Some true ∧
  ask vEB_successor (build 4 os) 0 = Some 3 ∧
  ask vEB_predecessor (build 4 os) 3 = Some 0 ∧
  ask vEB_member (build 4 (os ++ [Delete 3])) 3 = Some false ∧
  min_max (build 4 (os ++ [Delete 3; Delete 0])) = Some (-1, -1).
Proof. repeat split; vm_compute; reflexivity. Qed.

Example testcase_summary_cluster :
  let os := [Insert 2; Insert 5; Insert 9; Insert 12] in
  min_max (build 16 os) = Some (2, 12) ∧
  (V ← build 16 os; s ← summary V; Some (min s)) = Some 1 ∧
  min_max (build 16 (os ++ [Insert 15; Delete 5])) = Some (2, 15).
Proof. repeat split; vm_compute; reflexivity. Qed.

Example testcase_insert_delete_duplicates :
  ask vEB_member (build 16 [Insert 5; Insert 5; Insert 5]) 5 = Some true ∧
  ask vEB_member (build 16 [Insert 5; Insert 5; Insert 5; Delete 5]) 5 = Some false.
Proof. repeat split; vm_compute; reflexivity. Qed.

Example testcase_min_max_boundary :
  let t := build 16 [Insert 0; Insert 15] in
  min_max t = Some (0, 15) ∧
  ask vEB_successor t 0 = Some 15 ∧ ask vEB_predecessor t 15 = Some 0.
Proof. repeat split; vm_compute; reflexivity. Qed.

Example testcase_invalid_U :
  vEB_create 1 = None ∧ vEB_create 6 = None.
Proof. split; reflexivity. Qed.

(** * The claims *)

(** ** Insert, then Delete, then Member *)

(** C1.  The claim fails on a reachable tree: after [vEB_create(4)] and
    the calls Insert 0, Insert 1, Delete 2, Insert 2, Delete 0 (every
    argument in range; Delete 2 is of an absent key), Insert 1 and then
    Delete 1 leave 1 a member. *)
Theorem insert_delete_member_after_absent_delete :
  ∃ V V1 V2,
    build 4 [Insert 0; Insert 1; Delete 2; Insert 2; Delete 0] = Some V ∧
    reachable V ∧
    vEB_insert V 1 = Some V1 ∧ vEB_member V1 1 = Some true ∧
    vEB_delete V1 1 = Some V2 ∧ vEB_member V2 1 = Some true.
Proof.
  eexists _, _, _. split; [vm_compute; reflexivity|].
  split; [apply (build_reachable 4 [Insert 0; Insert 1; Delete 2; Insert 2; Delete 0]);
          vm_compute; reflexivity|].
  repeat split; vm_compute; reflexivity.
Qed.

(** ** Successor and predecessor *)

(** C2.  The claim fails on a reachable tree: after [vEB_create(4)],
    Insert 0, Insert 2 and Delete 1 (an absent key), 2 is still a member
    but the successor of 0 is the sentinel. *)
Theorem successor_after_absent_delete :
  ∃ V,
    build 4 [Insert 0; Insert 2; Delete 1] = Some V ∧ reachable V ∧
    vEB_member V 2 = Some true ∧ vEB_successor V 0 = Some (-1).
Proof.
  eexists. split; [vm_compute; reflexivity|].
  split; [apply (build_reachable 4 [Insert 0; Insert 2; Delete 1]); vm_compute; reflexivity|].
  split; vm_compute; reflexivity.
Qed.

(** ** The summary mirrors the clusters *)

(** C3.  The claim fails on a reachable tree: after [vEB_create(4)],
    Insert 0, Insert 1 and Delete 2 (an absent key), cluster 0 holds a key
    and the summary does not contain 0. *)
Theorem summary_after_absent_delete :
  ∃ V s c,
    build 4 [Insert 0; Insert 1; Delete 2] = Some V ∧ reachable V ∧
    summary V = Some s ∧ cell (cluster V) 0 = Some c ∧
    min c = 1 ∧ vEB_member c 1 = Some true ∧
    vEB_member s 0 = Some false ∧ min s = -1.
Proof.
  eexists _, _, _. split; [vm_compute; reflexivity|].
  split; [apply (build_reachable 4 [Insert 0; Insert 1; Delete 2]); vm_compute; reflexivity|].
  repeat split; vm_compute; reflexivity.
Qed.

(** ** Delete of an absent key *)

(** C4.  The claim fails: the tree of universe 8 built by Insert 0,
    Insert 2 and Insert 4 holds these three keys, 3 is absent, and Delete 3
    removes the member 2. *)
Theorem delete_absent_removes_other_key :
  ∃ V V',
    build 8 [Insert 0; Insert 2; Insert 4] = Some V ∧ built V ∧ reachable V ∧
    vEB_member V 3 = Some false ∧ vEB_member V 2 = Some true ∧
    min V = 0 ∧ max V = 4 ∧
    vEB_delete V 3 = Some V' ∧ vEB_member V' 2 = Some false.
Proof.
  destruct (vEB_create 8) as [V0|] eqn:H0; [|discriminate H0].
  destruct (vEB_insert V0 0) as [V1|] eqn:H1; [|injection H0 as <-; discriminate H1].
  destruct (vEB_insert V1 2) as [V2|] eqn:H2;
    [|injection H0 as <-; injection H1 as <-; discriminate H2].
  destruct (vEB_insert V2 4) as [V3|] eqn:H3;
    [|injection H0 as <-; injection H1 as <-; injection H2 as <-; discriminate H3].
  assert (HV : built V3).
  { eapply built_insert; [|exact H3]. eapply built_insert; [|exact H2].
    eapply built_insert; [|exact H1]. eapply built_create. exact H0. }
  injection H0 as <-. injection H1 as <-. injection H2 as <-. injection H3 as <-.
  eexists _, _. split; [reflexivity|]. split; [exact HV|].
  split; [apply built_reachable; exact HV|].
  repeat split; vm_compute; reflexivity.
Qed.

(** ** Member outside the universe *)

(** C5.  The claim fails on the tree [vEB_create(16)] returns: Member of
    -1 is true (line 93 compares the key with [min], which holds the empty
    sentinel), and Member of 16 reads [cluster[4]] of an array of four
    cells (line 95).  [vEB_member] has no test of the range; [vEB_insert]
    and [vEB_delete] test it (lines 100, 175) and return the tree
    unchanged for both keys. *)
Theorem member_outside_universe_defect :
  ∃ V,
    vEB_create 16 = Some V ∧ reachable V ∧
    (-1 < 0 ∨ u V ≤ -1) ∧ vEB_member V (-1) = Some true ∧
    (16 < 0 ∨ u V ≤ 16) ∧ vEB_member V 16 = None ∧
    high V 16 = 4 ∧ upper_sqrt V = 4 ∧ cell (cluster V) (high V 16) = None ∧
    vEB_insert V (-1) = Some V ∧ vEB_insert V 16 = Some V ∧
    vEB_delete V (-1) = Some V ∧ vEB_delete V 16 = Some V ∧
    Stderr.vEB_insert V 16 = Some (V, [out_of_bounds 16 16]).
Proof.
  eexists. split; [vm_compute; reflexivity|].
  split; [apply (reachable_create 16); vm_compute; reflexivity|].
  split; [left; lia|]. split; [vm_compute; reflexivity|].
  split; [right; vm_compute; discriminate|].
  repeat split; vm_compute; reflexivity.
Qed.

(** Member on the other keys outside the universe.  On every reachable
    tree and for every key below the sentinel or not below the universe
    size: a base case ([u <= 2]) answers false, without any bounds test; in
    a larger tree the descent reads a cell outside a [cluster] array, so
    that the call has no defined result. *)
Theorem member_outside_universe V x :
  reachable V → x < -1 ∨ u V ≤ x →
  vEB_member V x = if u V <=? 2 then Some false else None.
Proof.
  intros HV Hx. destruct (reachable_wf V HV) as [k Hwf].
  eapply vEB_member_outside; eauto.
Qed.

Lemma member_outside_universe_witness :
  ∃ V, vEB_create 2 = Some V ∧ reachable V ∧ (2 < -1 ∨ u V ≤ 2) ∧
       vEB_member V 2 = Some false.
Proof.
  exists (mkNode 2 (-1) (-1) None [] 0 0).
  assert (HV : reachable (mkNode 2 (-1) (-1) None [] 0 0))
    by (apply (reachable_create 2); reflexivity).
  assert (Hx : 2 < -1 ∨ u (mkNode 2 (-1) (-1) None [] 0 0) ≤ 2) by (right; simpl; lia).
  split; [reflexivity|]. split; [exact HV|]. split; [exact Hx|].
  exact (member_outside_universe (mkNode 2 (-1) (-1) None [] 0 0) 2 HV Hx).
Defined.

(** ** Insert is idempotent *)



(** ** Keys out of range *)

(** C7.  With [x < 0] or [x >= u], Insert and Delete print the line
    "Error: Value x out of bounds (U = u)" to stderr and return the tree
    they were given, unchanged in every node.  The line tells the refusal
    from a call that was accepted: on a reachable tree Insert of a key of
    the universe prints nothing, also when the key is already stored, and
    so does Delete on a tree built without deleting an absent key.  After
    [vEB_create(16)], Insert 16 and Insert -1 the tree is the created one,
    with [min] and [max] the sentinel. *)
Theorem out_of_range_no_mutation V x :
  x < 0 ∨ u V ≤ x →
  (Stderr.vEB_insert V x = Some (V, [out_of_bounds x (u V)]) ∧
   Stderr.vEB_delete V x = Some (V, [out_of_bounds x (u V)])) ∧
  (reachable V → ∀ y, 0 ≤ y < u V →
     ∃ V', vEB_insert V y = Some V' ∧ Stderr.vEB_insert V y = Some (V', [])) ∧
  (built V → ∀ y, 0 ≤ y < u V →
     ∃ V', vEB_delete V y = Some V' ∧ Stderr.vEB_delete V y = Some (V', [])) ∧
  vEB_insert V x = Some V ∧ vEB_delete V x = Some V ∧
  ∃ T, vEB_create 16 = Some T ∧ build 16 [Insert 16; Insert (-1)] = Some T ∧
       min T = -1 ∧ max T = -1 ∧
       Stderr.vEB_insert T 16 = Some (T, [out_of_bounds 16 16]) ∧
       Stderr.vEB_insert T (-1) = Some (T, [out_of_bounds (-1) 16]).
Proof.
  intros Hx.
  assert (Hg : (x <? 0) || (x >=? u V) = true).
  { destruct (Z.ltb_spec x 0); [reflexivity|].
    destruct (Z.geb_spec x (u V)); [reflexivity|lia]. }
  split; [|split; [|split; [|split; [|split]]]].
  - rewrite stderr_insert_eq, stderr_delete_eq, Hg. split; reflexivity.
  - intros HV y Hy. destruct (reachable_wf V HV) as [k Hwf].
    destruct (vEB_insert_wf k V y Hwf) as (V' & Hins & _).
    exists V'. split; [exact Hins|].
    rewrite (stderr_insert_wf k V y Hwf), Hins.
    destruct (Z.ltb_spec y 0); [lia|]. destruct (Z.geb_spec y (u V)); [lia|]. reflexivity.
  - intros HV y Hy. destruct (built_repr V HV) as (k & S & Hr).
    destruct (vEB_delete_returns k V S y Hr) as [V' Hdel].
    exists V'. split; [exact Hdel|].
    rewrite (stderr_delete_repr k V S y Hr Hy), Hdel. reflexivity.
  - rewrite vEB_insert_eq, Hg. reflexivity.
  - rewrite vEB_delete_eq, Hg. reflexivity.
  - eexists. split; [vm_compute; reflexivity|].
    repeat split; vm_compute; reflexivity.
Qed.

Lemma out_of_range_no_mutation_witness :
  ∃ V, build 16 [Insert 3] = Some V ∧ (16 < 0 ∨ u V ≤ 16) ∧ (-1 < 0 ∨ u V ≤ -1) ∧
       Stderr.vEB_insert V 16 = Some (V, [out_of_bounds 16 16]) ∧
       Stderr.vEB_delete V (-1) = Some (V, [out_of_bounds (-1) 16]) ∧
       Stderr.vEB_insert V 3 = Some (V, []) ∧
       vEB_insert V 16 = Some V ∧ vEB_delete V (-1) = Some V.
Proof.
  destruct (build 16 [Insert 3]) as [V|] eqn:Hb; [|discriminate Hb].
  assert (H16 : 16 < 0 ∨ u V ≤ 16) by (right; injection Hb as <-; simpl; lia).
  assert (Hm1 : -1 < 0 ∨ u V ≤ -1) by (left; lia).
  assert (E16 : u V = 16) by (injection Hb as <-; reflexivity).
  destruct (out_of_range_no_mutation V 16 H16) as ((Hi & _) & _ & _ & Hi' & _).
  destruct (out_of_range_no_mutation V (-1) Hm1) as ((_ & Hd) & _ & _ & _ & Hd' & _).
  rewrite E16 in Hi, Hd.
  exists V. split; [reflexivity|]. split; [exact H16|]. split; [exact Hm1|].
  split; [exact Hi|]. split; [exact Hd|]. split; [|split; [exact Hi'|exact Hd']].
  injection Hb as <-. vm_compute. reflexivity.
Defined.

(** ** Minimum and maximum *)

(** C8.  The claim fails on a reachable tree: after [vEB_create(4)] and
    Insert 0, Insert 1, Delete 2 (an absent key), Insert 2, Delete 0, the
    root has [min = max = 2] while 1 is a member; a further Delete 3 leaves
    [min = max = -1] with 1 still a member. *)
Theorem min_max_after_absent_delete :
  ∃ V V',
    build 4 [Insert 0; Insert 1; Delete 2; Insert 2; Delete 0] = Some V ∧
    reachable V ∧
    min V = 2 ∧ max V = 2 ∧ vEB_member V 1 = Some true ∧
    vEB_delete V 3 = Some V' ∧ reachable V' ∧
    min V' = -1 ∧ max V' = -1 ∧ vEB_member V' 1 = Some true.
Proof.
  eexists _, _. split; [vm_compute; reflexivity|].
  split; [apply (build_reachable 4 [Insert 0; Insert 1; Delete 2; Insert 2; Delete 0]);
          vm_compute; reflexivity|].
  do 4 (split; [vm_compute; reflexivity|]).
  split; [apply (build_reachable 4
                   [Insert 0; Insert 1; Delete 2; Insert 2; Delete 0; Delete 3]);
          vm_compute; reflexivity|].
  repeat split; vm_compute; reflexivity.
Qed.

(** ** Termination *)

(** C9.  The claim fails for Delete on a reachable tree: after
    [vEB_create(4)], Insert 0, Insert 1 and Delete 2 (an absent key) the
    root has [min = 0], [max = 1] and an empty summary, and Delete 0 takes
    [first = vEB_min(summary) = -1] and reads [cluster[-1]] (line 190), a
    cell before the array: the call neither resolves locally nor recurses
    into a child, and has no defined result. *)
Theorem delete_reads_before_the_array :
  ∃ V s,
    build 4 [Insert 0; Insert 1; Delete 2] = Some V ∧ reachable V ∧
    0 ≤ 0 < u V ∧ 2 < u V ∧ min V = 0 ∧ max V = 1 ∧
    summary V = Some s ∧ vEB_min s = -1 ∧
    cell (cluster V) (vEB_min s) = None ∧
    vEB_delete V 0 = None ∧ Stderr.vEB_delete V 0 = None.
Proof.
  destruct (build 4 [Insert 0; Insert 1; Delete 2]) as [V|] eqn:Hb; [|discriminate Hb].
  pose proof (build_reachable _ _ _ Hb) as HV.
  destruct (summary V) as [s|] eqn:Hs; [|injection Hb as <-; discriminate Hs].
  exists V, s. split; [reflexivity|]. split; [exact HV|].
  injection Hb as <-. injection Hs as <-.
  repeat split; vm_compute; try reflexivity; discriminate.
Qed.

(** Where the recursion does descend.  [vEB_create] returns for every
    power of two from 2 on (when its allocations succeed).  In a
    reachable tree, a node with [u <= 2] has no children, and a node with
    [u > 2] has a summary of universe [upper_sqrt < u] and [upper_sqrt]
    clusters of universe [lower_sqrt < u]; the operations are structural
    recursions into the summary and one cell, so a run descends at most
    [depth V <= log2 u] levels.  Member, Insert, Successor and Predecessor
    return on every key of the universe, and so does Delete on a tree built
    without deleting an absent key. *)
Theorem recursion_descends V N x :
  reachable V → node_of N V → 0 ≤ x < u V →
  (∀ k, (1 ≤ k)%nat → is_Some (vEB_create (pow2 k))) ∧
  (u N ≤ 2 → summary N = None ∧ cluster N = []) ∧
  (2 < u N →
     2 ≤ lower_sqrt N < u N ∧ 2 ≤ upper_sqrt N < u N ∧
     lower_sqrt N * upper_sqrt N = u N ∧
     (∃ s, summary N = Some s ∧ u s = upper_sqrt N) ∧
     Z.of_nat (length (cluster N)) = upper_sqrt N ∧
     (∀ c, c ∈ cluster N → u c = lower_sqrt N)) ∧
  Z.of_nat (depth V) ≤ Z.log2 (u V) ∧
  is_Some (vEB_member V x) ∧ is_Some (vEB_insert V x) ∧
  is_Some (vEB_successor V x) ∧ is_Some (vEB_predecessor V x) ∧
  (built V → is_Some (vEB_delete V x)).
Proof.
  intros HV HN Hx. destruct (reachable_wf V HV) as [k Hwf].
  destruct (wf_node_of _ _ _ Hwf HN) as [k' HwfN].
  split; [|split; [|split; [|split]]].
  - intros j Hj. destruct (vEB_create_wf j Hj) as (T & -> & _). eauto.
  - intros Hu. destruct HwfN as [| j ? ? ? ? Hj]; fields; [auto|].
    pose proof (pow2_gt_2 j Hj). lia.
  - intros Hu.
    destruct (wf_node_inv _ _ HwfN Hu) as (Hk & Hlo & Hup & (s & Hs & Hwfs) & Hlen & Hcl).
    destruct (half_bounds k' Hk) as (H1 & H2 & H3 & H4).
    rewrite Hlo, Hup, (wf_u _ _ HwfN).
    pose proof (pow2_ge_2 _ H1). pose proof (pow2_ge_2 _ H3).
    pose proof (pow2_lt _ _ H2). pose proof (pow2_lt _ _ H4).
    pose proof (pow2_split k' Hk).
    repeat split; try lia.
    + exists s. split; [assumption|]. apply (wf_u _ _ Hwfs).
    + intros c Hc. rewrite Forall_forall in Hcl. apply (wf_u _ _ (Hcl c Hc)).
  - rewrite (wf_u _ _ Hwf). unfold pow2. rewrite Z.log2_pow2 by lia.
    pose proof (wf_depth _ _ Hwf). lia.
  - destruct (vEB_member_total k V x Hwf Hx) as [b ->].
    destruct (vEB_insert_wf k V x Hwf) as (V' & -> & _).
    destruct (vEB_successor_wf k V x Hwf Hx) as (r1 & -> & _).
    destruct (vEB_predecessor_wf k V x Hwf Hx) as (r2 & -> & _).
    do 4 (split; [eauto|]).
    intros Hb. destruct (built_repr V Hb) as (j & S & Hr).
    eapply vEB_delete_returns; eauto.
Qed.

Lemma recursion_descends_witness :
  ∃ V s, vEB_create 16 = Some V ∧ reachable V ∧ node_of V V ∧ 0 ≤ 5 < u V ∧
         summary V = Some s ∧ upper_sqrt V = 4 ∧ u s = 4 ∧ lower_sqrt V = 4 ∧
         Z.of_nat (depth V) ≤ 4 ∧ is_Some (vEB_member V 5).
Proof.
  destruct (vEB_create 16) as [V|] eqn:Hc; [|discriminate Hc].
  assert (HV : reachable V) by (eapply reachable_create; exact Hc).
  assert (Hx : 0 ≤ 5 < u V) by (injection Hc as <-; simpl; lia).
  destruct (recursion_descends V V 5 HV (node_here V) Hx)
    as (_ & _ & Hnode & Hdepth & Hm & _).
  destruct Hnode as (_ & _ & _ & (s & Hs & Hus) & _).
  { injection Hc as <-. simpl. lia. }
  exists V, s. injection Hc as <-.
  split; [reflexivity|]. split; [exact HV|]. split; [apply node_here|].
  split; [exact Hx|]. split; [exact Hs|]. split; [reflexivity|].
  split; [exact Hus|]. split; [reflexivity|]. split; [exact Hdepth|exact Hm].
Defined.

(** ** Delete in a one-element tree *)

(** C10.  When [min = max] (the tree holds one key [e], or none), Delete
    of any key of the universe, equal to [e] or not, returns the tree with
    [min = max = -1] and the same children; if the tree represented a set,
    the result represents the empty set. *)
Theorem delete_single_collapses V e x :
  min V = e → max V = e → 0 ≤ x < u V →
  ∃ V', vEB_delete V x = Some V' ∧ min V' = -1 ∧ max V' = -1 ∧
        summary V' = summary V ∧ cluster V' = cluster V ∧
        (∀ k S, repr k V S → repr k V' (λ _, False)).
Proof.
  intros Hmn Hmx Hx. rewrite vEB_delete_eq.
  destruct (Z.ltb_spec x 0); [lia|]. destruct (Z.geb_spec x (u V)); [lia|].
  cbn [orb]. rewrite Hmn, Hmx, Z.eqb_refl.
  eexists; split; [reflexivity|]. do 4 (split; [reflexivity|]).
  intros k S Hr. apply (repr_clear _ _ _ Hr). intros y Hy.
  destruct (repr_extremes _ _ _ Hr) as [(_ & _ & He)|(_ & _ & Hb)];
    [destruct (He _ Hy)|]. apply Hb in Hy. lia.
Qed.

Lemma delete_single_collapses_witness :
  ∃ V V', build 16 [Insert 5] = Some V ∧ min V = 5 ∧ max V = 5 ∧ 0 ≤ 3 < u V ∧
          vEB_member V 5 = Some true ∧
          vEB_delete V 3 = Some V' ∧ min V' = -1 ∧ max V' = -1 ∧
          vEB_member V' 5 = Some false.
Proof.
  destruct (build 16 [Insert 5]) as [V|] eqn:Hb; [|discriminate Hb].
  assert (Hmn : min V = 5) by (injection Hb as <-; reflexivity).
  assert (Hmx : max V = 5) by (injection Hb as <-; reflexivity).
  assert (Hx : 0 ≤ 3 < u V) by (injection Hb as <-; simpl; lia).
  destruct (delete_single_collapses V 5 3 Hmn Hmx Hx) as (V' & Hd & H1 & H2 & H3 & H4 & _).
  exists V, V'. injection Hb as <-.
  split; [reflexivity|]. split; [exact Hmn|]. split; [exact Hmx|]. split; [exact Hx|].
  split; [reflexivity|]. split; [exact Hd|]. split; [exact H1|]. split; [exact H2|].
  rewrite vEB_member_eq.
  rewrite H1, H2, H4. destruct V' as [U' mn' mx' s' cl' lo' up'].
  vm_compute in Hd. injection Hd as <- _ _ _ _ <- _. reflexivity.
Defined.

(** * Further properties of the code *)

(** ** Construction: what [vEB_create] returns *)

Lemma repr_no_key_delete k V S x :
  repr k V S → (∀ y, ¬ S y) → vEB_delete V x = Some V.
Proof.
  intros Hr He.
  pose proof (proj2 (repr_empty _ _ _ Hr) He) as Hmn.
  pose proof (proj2 (repr_max_empty _ _ _ Hr) He) as Hmx.
  destruct (decide (0 ≤ x < u V)) as [Hx|Hx]; [|apply out_of_range_delete; assumption].
  rewrite vEB_delete_eq.
  destruct (Z.ltb_spec x 0); [lia|]. destruct (Z.geb_spec x (u V)); [lia|]. cbn [orb].
  rewrite Hmn, Hmx. cbn [Z.eqb]. destruct V; fields. subst. reflexivity.
Qed.

(** X2.  The tree [vEB_create(2^k)] returns is empty: [min] and [max] are
    the sentinel, no key of the universe is a member or has a successor or
    a predecessor, Delete of any key returns the same tree, and the first
    Insert writes the key to [min] and [max] of the root and to nothing
    else. *)
Theorem created_tree_is_empty k x :
  (1 ≤ k)%nat → 0 ≤ x < pow2 k →
  ∃ T, vEB_create (pow2 k) = Some T ∧ u T = pow2 k ∧ min T = -1 ∧ max T = -1 ∧
       vEB_member T x = Some false ∧
       vEB_successor T x = Some (-1) ∧ vEB_predecessor T x = Some (-1) ∧
       vEB_delete T x = Some T ∧
       vEB_insert T x =
         Some (mkNode (u T) x x (summary T) (cluster T) (lower_sqrt T) (upper_sqrt T)).
Proof.
  intros Hk Hx.
  destruct (vEB_create_fuel_repr (Z.to_nat (pow2 k)) k) as (T & HT & Hr).
  { pose proof (pow2_fuel k). lia. }
  pose proof (wf_u _ _ (repr_wf _ _ _ Hr)) as Hu.
  assert (He : ∀ y, ¬ (λ _ : Z, False) y) by (intros y []).
  pose proof (proj2 (repr_empty _ _ _ Hr) He) as Hmn.
  pose proof (proj2 (repr_max_empty _ _ _ Hr) He) as Hmx.
  assert (Hm : vEB_member T x = Some false).
  { apply (vEB_member_false_repr _ _ _ _ Hr); [lia|]. intros []. }
  exists T. split; [exact HT|]. split; [exact Hu|]. split; [exact Hmn|].
  split; [exact Hmx|]. split; [exact Hm|]. split; [|split; [|split]].
  - destruct (vEB_successor_repr k T _ x Hr ltac:(lia)) as (r & -> & [[-> _]|([] & _)]).
    reflexivity.
  - destruct (vEB_predecessor_repr k T _ x Hr ltac:(lia)) as (r & -> & [[-> _]|([] & _)]).
    reflexivity.
  - apply (repr_no_key_delete _ _ _ x Hr He).
  - rewrite vEB_insert_eq, Hm, Hmn.
    destruct (Z.ltb_spec x 0); [lia|]. destruct (Z.geb_spec x (u T)); [lia|].
    cbn [orb mbind option_bind Z.eqb]. destruct T; reflexivity.
Qed.

Lemma created_tree_is_empty_witness :
  (1 ≤ 4)%nat ∧ 0 ≤ 5 < pow2 4 ∧
  ∃ T, vEB_create 16 = Some T ∧ vEB_member T 5 = Some false ∧
       vEB_successor T 5 = Some (-1) ∧ vEB_delete T 5 = Some T.
Proof.
  assert (Hk : (1 ≤ 4)%nat) by lia.
  assert (Hx : 0 ≤ 5 < pow2 4) by (vm_compute; split; [discriminate|reflexivity]).
  split; [exact Hk|]. split; [exact Hx|].
  destruct (created_tree_is_empty 4 5 Hk Hx) as (T & HT & _ & _ & _ & Hm & Hs & _ & Hd & _).
  exists T. auto.
Defined.

(** ** The key split: [high], [low] and [idx] *)

(** X3.  In every node of universe above 2 of a tree a caller can
    hold, [high] and [low] split a key of the node's universe into a
    cluster number below [upper_sqrt] and an offset below [lower_sqrt],
    [idx] puts the two together again, and [idx] followed by [high] and
    [low] gives the two parts back: the keys of the node and the pairs
    (cluster, offset) correspond one to one. *)
Theorem key_split_round_trip V N :
  reachable V → node_of N V → 2 < u N →
  u N = upper_sqrt N * lower_sqrt N ∧
  (∀ x, 0 ≤ x < u N →
        0 ≤ high N x < upper_sqrt N ∧ 0 ≤ low N x < lower_sqrt N ∧
        idx N (high N x) (low N x) = x) ∧
  (∀ h l, 0 ≤ h < upper_sqrt N → 0 ≤ l < lower_sqrt N →
          0 ≤ idx N h l < u N ∧ high N (idx N h l) = h ∧ low N (idx N h l) = l).
Proof.
  intros HV HN Hu. destruct (reachable_wf V HV) as (k & Hwf).
  destruct (wf_node_of _ _ _ Hwf HN) as (k' & HwfN).
  destruct (wf_u_split _ _ HwfN Hu) as [Hsplit Hlo].
  split; [exact Hsplit|]. split.
  - intros x Hx. destruct (wf_split _ _ _ HwfN Hu Hx) as (Hh & Hl & E). auto.
  - intros h l Hh Hl. unfold high, low, idx.
    destruct (join_split (lower_sqrt N) h l ltac:(lia) Hl) as [-> ->].
    split; [|auto]. rewrite Hsplit. nia.
Qed.

Lemma key_split_round_trip_witness :
  ∃ V, build 16 [Insert 3; Delete 7] = Some V ∧ 2 < u V ∧
       idx V (high V 13) (low V 13) = 13 ∧ high V (idx V 3 1) = 3.
Proof.
  destruct (build 16 [Insert 3; Delete 7]) as [V|] eqn:Hb; [|discriminate Hb].
  assert (Hu : 2 < u V) by (injection Hb as <-; reflexivity).
  assert (H13 : 0 ≤ 13 < u V) by (injection Hb as <-; vm_compute; split; [discriminate|reflexivity]).
  assert (H3 : 0 ≤ 3 < upper_sqrt V) by (injection Hb as <-; vm_compute; split; [discriminate|reflexivity]).
  assert (H1 : 0 ≤ 1 < lower_sqrt V) by (injection Hb as <-; vm_compute; split; [discriminate|reflexivity]).
  destruct (key_split_round_trip V V (build_reachable _ _ _ Hb) (node_here V) Hu)
    as (_ & Hs & Hj).
  exists V. split; [reflexivity|]. split; [exact Hu|]. split.
  - apply (Hs 13 H13).
  - apply (Hj 3 1 H3 H1).
Defined.

(** ** The shape is fixed at construction *)

Lemma skeleton_create_fuel fuel : ∀ U T,
  vEB_create_fuel fuel U = Some T → skeleton T = T.
Proof.
  induction fuel as [|fuel IH]; intros U T; [discriminate|].
  rewrite create_step_eq.
  destruct (U <? 2); [discriminate|].
  destruct (negb _); [discriminate|].
  destruct (U <=? 2); [intros [= <-]; reflexivity|]. cbn zeta.
  destruct (vEB_create_fuel fuel (Z.shiftl 1 (log2_int U - _))) as [s|] eqn:Hs;
    [|discriminate].
  cbn [mbind option_bind].
  destruct (create_clusters _ _) as [cl|] eqn:Hcl; [|discriminate].
  cbn [mbind option_bind]. intros [= <-].
  cbn [skeleton fmap option_fmap option_map]. rewrite (IH _ _ Hs).
  apply create_clusters_inv in Hcl as [[_ ->]|(c & Hc & ->)]; [reflexivity|].
  rewrite fmap_replicate, (IH _ _ Hc). reflexivity.
Qed.

Lemma skeleton_cells (k : nat) cl cl' :
  (∀ c c', wf k c → wf k c' → skeleton c = skeleton c') →
  length cl = length cl' → Forall (wf k) cl → Forall (wf k) cl' →
  skeleton <$> cl = skeleton <$> cl'.
Proof.
  intros IH Hlen Hcl. revert cl' Hlen.
  induction Hcl as [|c cl Hc _ IHcl]; intros [|c' cl'] Hlen Hcl'; try discriminate;
    [reflexivity|].
  apply Forall_cons in Hcl' as [Hc' Hcl']. cbn [fmap list_fmap].
  f_equal; [apply IH; assumption|]. apply IHcl; [|assumption].
  simpl in Hlen. lia.
Qed.

(** Two trees of one universe differ in [min] and [max] fields only. *)
Lemma skeleton_wf k : ∀ V V', wf k V → wf k V' → skeleton V = skeleton V'.
Proof.
  induction k as [k IH] using lt_wf_ind. intros V V' Hwf Hwf'.
  destruct Hwf as [mn mx ? ?|k mn mx s cl Hk Hmn Hmx Hs Hlen Hcl].
  - inversion Hwf'; subst; [reflexivity|lia].
  - inversion Hwf' as [|k0 mn' mx' s' cl' Hk' Hmn' Hmx' Hs' Hlen' Hcl']; subst; [lia|].
    pose proof (half_bounds k Hk) as (? & ? & ? & ?).
    cbn [skeleton fmap option_fmap option_map].
    rewrite (IH _ ltac:(eassumption) _ _ Hs Hs').
    rewrite (skeleton_cells (k / 2) cl cl'); auto; [|congruence].
    intros c c'. apply IH. assumption.
Qed.

(** X4.  [vEB_insert] and [vEB_delete] write to [min] and [max] fields
    only: whatever calls made a tree, its universe sizes, square roots,
    summary and cluster arrays are those of the tree [vEB_create] returned,
    so no call allocates, frees or moves a node. *)
Theorem shape_is_fixed_at_creation V :
  reachable V →
  ∃ T, vEB_create (u V) = Some T ∧ skeleton V = T ∧
       ∀ x V', vEB_insert V x = Some V' ∨ vEB_delete V x = Some V' →
               u V' = u V ∧ skeleton V' = T.
Proof.
  intros HV. destruct (reachable_wf V HV) as (k & Hwf).
  destruct (vEB_create_wf k (wf_k _ _ Hwf)) as (T & HT & HwfT).
  assert (Hskel : ∀ W, wf k W → skeleton W = T).
  { intros W HW. rewrite (skeleton_wf k W T HW HwfT).
    eapply skeleton_create_fuel. exact HT. }
  exists T. rewrite (wf_u _ _ Hwf). split; [exact HT|]. split; [auto|].
  intros x V' Hop.
  assert (HV' : wf k V').
  { destruct Hop as [Hins|Hdel].
    - destruct (vEB_insert_wf k V x Hwf) as (V1 & Hins' & Hwf' & _). congruence.
    - exact (vEB_delete_wf k V x V' Hwf Hdel). }
  split; [apply (wf_u _ _ HV')|auto].
Qed.

Lemma shape_is_fixed_at_creation_witness :
  ∃ V, build 16 [Insert 3; Insert 9; Delete 7] = Some V ∧
       Some (skeleton V) = vEB_create 16.
Proof.
  destruct (build 16 [Insert 3; Insert 9; Delete 7]) as [V|] eqn:Hb; [|discriminate Hb].
  destruct (shape_is_fixed_at_creation V (build_reachable _ _ _ Hb)) as (T & HT & Hs & _).
  assert (Hu : u V = 16) by (injection Hb as <-; reflexivity).
  exists V. split; [reflexivity|]. rewrite Hs, <- HT, Hu. reflexivity.
Defined.

(** ** Teardown: the blocks [vEB_free] releases *)

Lemma blocks_cells (m : nat) cl :
  Forall (λ c, blocks c = m) cl →
  foldr (λ c n, blocks c + n)%nat O cl = (length cl * m)%nat.
Proof.
  induction 1 as [|c cl Hc _ IH]; cbn [foldr length]; [reflexivity|].
  rewrite IH, Hc. lia.
Qed.

(** The number of blocks depends on the universe only, and is linear in
    it. *)
Lemma blocks_wf k : ∀ V,
  wf k V →
  pow2 k - 1 ≤ Z.of_nat (blocks V) ≤ 3 * pow2 k - 5 ∧
  ∀ V', wf k V' → blocks V' = blocks V.
Proof.
  induction k as [k IH] using lt_wf_ind. intros V Hwf.
  destruct Hwf as [mn mx ? ?|k mn mx s cl Hk Hmn Hmx Hs Hlen Hcl].
  - split; [rewrite pow2_1; cbn [blocks from_option]; lia|].
    intros V' Hwf'. inversion Hwf'; subst; [reflexivity|lia].
  - pose proof (half_bounds k Hk) as (? & ? & ? & ?).
    destruct (IH _ ltac:(eassumption) _ Hs) as [Hbs Hsame_s].
    pose proof (pow2_pos (k - k / 2)) as Hup. pose proof (pow2_pos (k / 2)) as Hlo.
    assert (Hc0 : ∃ c0, wf (k / 2) c0).
    { destruct cl as [|c0 cl]; [cbn [length] in Hlen; lia|].
      apply Forall_cons in Hcl as [? _]. eauto. }
    destruct Hc0 as (c0 & Hc0).
    destruct (IH (k / 2)%nat ltac:(lia) _ Hc0) as [Hbc Hsame_c].
    assert (Hnode : ∀ mn' mx' s' cl', wf (k - k / 2) s' →
              length cl' = Z.to_nat (pow2 (k - k / 2)) → Forall (wf (k / 2)) cl' →
              blocks (mkNode (pow2 k) mn' mx' (Some s') cl' (pow2 (k / 2)) (pow2 (k - k / 2)))
              = (1 + blocks s + (1 + Z.to_nat (pow2 (k - k / 2)) * blocks c0))%nat).
    { intros mn' mx' s' cl' Hs' Hlen' Hcl'. cbn [blocks from_option].
      rewrite (Hsame_s s' Hs').
      assert (Hsum : foldr (λ c n, blocks c + n)%nat O cl'
                     = (Z.to_nat (pow2 (k - k / 2)) * blocks c0)%nat).
      { rewrite (blocks_cells (blocks c0)), Hlen'; [reflexivity|].
        eapply Forall_impl; [exact Hcl'|]. intros c Hc. apply Hsame_c, Hc. }
      destruct cl' as [|c' cl']; [cbn [length] in Hlen'; lia|].
      rewrite Hsum. reflexivity. }
    split.
    + rewrite (Hnode mn mx s cl Hs Hlen Hcl).
      pose proof (pow2_split k Hk) as Hsplit.
      pose proof (pow2_ge_2 (k / 2) ltac:(lia)).
      pose proof (pow2_ge_2 (k - k / 2) ltac:(lia)).
      rewrite !Nat2Z.inj_add, Nat2Z.inj_mul, Z2Nat.id by lia. cbn [Z.of_nat Pos.of_succ_nat].
      nia.
    + intros V' Hwf'.
      inversion Hwf' as [|k0 mn' mx' s' cl' Hk' Hmn' Hmx' Hs' Hlen' Hcl']; subst; [lia|].
      rewrite (Hnode mn mx s cl Hs Hlen Hcl). apply Hnode; assumption.
Qed.

Lemma free_loop_ext f g l :
  (∀ i, i ∈ l → f i = g i) → free_loop f l = free_loop g l.
Proof.
  induction l as [|i l IH]; intros E; [reflexivity|].
  cbn [free_loop]. rewrite IH.
  - rewrite (E i); [reflexivity|]. apply list_elem_of_here.
  - intros j Hj. apply E. apply list_elem_of_further. assumption.
Qed.

Lemma free_loop_bind f (g : nat → list block) l :
  (∀ i, i ∈ l → f i = Some (g i)) → free_loop f l = Some (l ≫= g).
Proof.
  induction l as [|i l IH]; intros E; [reflexivity|].
  cbn [free_loop]. rewrite (E i) by apply list_elem_of_here.
  rewrite IH by (intros j Hj; apply E, list_elem_of_further, Hj). reflexivity.
Qed.

Lemma vEB_free_eq V :
  vEB_free V =
  cells ←
    match cluster V with
    | [] => Some []
    | _ =>
      bs ← free_loop (λ i, bs ← cell (cluster V) (Z.of_nat i) ≫= vEB_free;
                           Some (fmap (M:=list) (under (cluster_of i)) bs))
             (seq 0 (Z.to_nat (upper_sqrt V)));
      Some (bs ++ [array_block []])
    end;
  sm ← match summary V with
       | None => Some []
       | Some sm => bs ← vEB_free sm; Some (fmap (M:=list) (under summary_of) bs)
       end;
  Some (cells ++ sm ++ [node_block []]).
Proof.
  destruct V as [u0 mn mx s cl lo up]. cbn [vEB_free cluster summary upper_sqrt].
  destruct cl as [|c cl]; [reflexivity|].
  rewrite (free_loop_ext
             (λ i, bs ← on_cell vEB_free (c :: cl) (Z.of_nat i);
                   Some (fmap (M:=list) (under (cluster_of i)) bs))
             (λ i, bs ← cell (c :: cl) (Z.of_nat i) ≫= vEB_free;
                   Some (fmap (M:=list) (under (cluster_of i)) bs))); [reflexivity|].
  intros i _. rewrite on_cell_cell. reflexivity.
Qed.

Global Arguments vEB_free : simpl never.

Lemma under_inj e b b' : under e b = under e b' → b = b'.
Proof. destruct b, b'; cbn [under]; congruence. Qed.

Lemma under_edge e e' b b' : under e b = under e' b' → e = e'.
Proof. destruct b, b'; cbn [under]; congruence. Qed.

Lemma under_not_root e b : under e b ≠ node_block [] ∧ under e b ≠ array_block [].
Proof. destruct b; cbn [under]; split; discriminate. Qed.

Lemma has_block_inv V b :
  has_block V b →
  b = node_block [] ∨ (cluster V ≠ [] ∧ b = array_block []) ∨
  (∃ s b', summary V = Some s ∧ has_block s b' ∧ b = under summary_of b') ∨
  (∃ i c b', cluster V !! i = Some c ∧ has_block c b' ∧ b = under (cluster_of i) b').
Proof.
  destruct 1 as [V|V Hne|V s b Hs Hb|V i c b Hc Hb]; [auto|auto| |].
  - right. right. left. eauto.
  - right. right. right. eauto 6.
Qed.

Lemma length_bind_cells (g : nat → list block) cl : ∀ a,
  (∀ i c, cl !! i = Some c → length (g (a + i)%nat) = blocks c) →
  length (seq a (length cl) ≫= g) = foldr (λ c n, blocks c + n)%nat O cl.
Proof.
  induction cl as [|c cl IH]; intros a H; [reflexivity|].
  cbn [length seq foldr]. rewrite bind_cons, length_app, (IH (S a)).
  - rewrite <- (H O c eq_refl), Nat.add_0_r. reflexivity.
  - intros i c' Hc'. replace (S a + i)%nat with (a + S i)%nat by lia. apply H. exact Hc'.
Qed.

(** On a tree of the right shape [vEB_free] returns, and the blocks it
    releases are the blocks of the tree, each once. *)
Lemma vEB_free_wf k : ∀ V,
  wf k V →
  ∃ l, vEB_free V = Some l ∧ NoDup l ∧ (∀ b, b ∈ l ↔ has_block V b) ∧
       length l = blocks V.
Proof.
  induction k as [k IH] using lt_wf_ind. intros V Hwf.
  destruct Hwf as [mn mx ? ?|k mn mx s cl Hk Hmn Hmx Hs Hlen Hcl].
  - exists [node_block []]. split; [reflexivity|]. split; [apply NoDup_singleton|].
    split; [|reflexivity]. intros b. rewrite list_elem_of_singleton. split.
    + intros ->. constructor.
    + intros Hb. apply has_block_inv in Hb as [Hb|[[Hne _]|[(s & b' & Hs & _)|(i & c & b' & Hc & _)]]];
        [assumption| | |].
      * destruct Hne. reflexivity.
      * discriminate Hs.
      * cbn [cluster] in Hc. rewrite lookup_nil in Hc. discriminate Hc.
  - pose proof (half_bounds k Hk) as (? & ? & ? & ?).
    pose proof (pow2_pos (k - k / 2)) as Hup.
    destruct (IH _ ltac:(eassumption) _ Hs) as (ls & Hfs & Hnds & Hins & Hlens).
    set (g := λ i : nat,
           match cl !! i with
           | Some c => match vEB_free c with
                       | Some bs => fmap (M:=list) (under (cluster_of i)) bs
                       | None => []
                       end
           | None => []
           end).
    assert (Hcell : ∀ i c, cl !! i = Some c →
              ∃ lc, vEB_free c = Some lc ∧ NoDup lc ∧ (∀ b, b ∈ lc ↔ has_block c b) ∧
                    length lc = blocks c ∧ g i = fmap (M:=list) (under (cluster_of i)) lc).
    { intros i c Hc. rewrite Forall_forall in Hcl.
      destruct (IH (k / 2)%nat ltac:(lia) c (Hcl c (list_elem_of_lookup_2 _ _ _ Hc)))
        as (lc & Hf & Hnd & Hin & Hl).
      exists lc. unfold g. rewrite Hc, Hf. auto. }
    assert (Hg : ∀ i b, b ∈ g i →
              ∃ c b', cl !! i = Some c ∧ has_block c b' ∧ b = under (cluster_of i) b').
    { intros i b Hb. unfold g in Hb. destruct (cl !! i) as [c|] eqn:Hc;
        [|apply elem_of_nil in Hb; destruct Hb].
      destruct (Hcell i c Hc) as (lc & Hf & _ & Hin & _ & _). rewrite Hf in Hb.
      apply list_elem_of_fmap in Hb as (b' & -> & Hb'). exists c, b'.
      split; [reflexivity|]. split; [apply Hin, Hb'|reflexivity]. }
    assert (Hloop : free_loop (λ i, bs ← cell cl (Z.of_nat i) ≫= vEB_free;
                                    Some (fmap (M:=list) (under (cluster_of i)) bs))
                      (seq 0 (Z.to_nat (pow2 (k - k / 2)))) =
                    Some (seq 0 (length cl) ≫= g)).
    { rewrite <- Hlen. apply free_loop_bind. intros i Hi. apply elem_of_seq in Hi.
      destruct (lookup_lt_is_Some_2 cl i ltac:(lia)) as [c Hc].
      destruct (Hcell i c Hc) as (lc & Hf & _ & _ & _ & ->).
      assert (cell cl (Z.of_nat i) = Some c) as ->.
      { apply cell_Some. rewrite Nat2Z.id. split; [lia|exact Hc]. }
      cbn [mbind option_bind]. rewrite Hf. reflexivity. }
    assert (Hne : cl ≠ []).
    { intros ->. cbn [length] in Hlen. lia. }
    exists (((seq 0 (length cl) ≫= g) ++ [array_block []]) ++
            fmap (M:=list) (under summary_of) ls ++ [node_block []]).
    split; [|split; [|split]].
    + rewrite vEB_free_eq. cbn [cluster summary upper_sqrt]. rewrite Hloop, Hfs.
      destruct cl as [|c cl]; [destruct Hne; reflexivity|]. reflexivity.
    + apply NoDup_app. split; [|split].
      * apply NoDup_app. split; [|split; [|apply NoDup_singleton]].
        -- apply NoDup_bind; [| |apply NoDup_seq].
           ++ intros i j b _ _ Hi Hj.
              destruct (Hg i b Hi) as (_ & b1 & _ & _ & ->).
              destruct (Hg j _ Hj) as (_ & b2 & _ & _ & E).
              apply under_edge in E. congruence.
           ++ intros i Hi. apply elem_of_seq in Hi.
              destruct (lookup_lt_is_Some_2 cl i ltac:(lia)) as [c Hc].
              destruct (Hcell i c Hc) as (lc & _ & Hnd & _ & _ & ->).
              apply NoDup_fmap_2; [|exact Hnd]. intros b1 b2. apply under_inj.
        -- intros b Hb. apply list_elem_of_bind in Hb as (i & Hb & _).
           destruct (Hg i b Hb) as (_ & b' & _ & _ & ->).
           rewrite list_elem_of_singleton. apply under_not_root.
      * intros b Hb Hb'. apply elem_of_app in Hb' as [Hb'|Hb'].
        -- apply list_elem_of_fmap in Hb' as (b2 & -> & _).
           apply elem_of_app in Hb as [Hb|Hb].
           ++ apply list_elem_of_bind in Hb as (i & Hb & _).
              destruct (Hg i _ Hb) as (_ & b1 & _ & _ & E).
              apply under_edge in E. discriminate E.
           ++ apply list_elem_of_singleton in Hb. exact (proj2 (under_not_root _ _) Hb).
        -- apply list_elem_of_singleton in Hb'. subst b.
           apply elem_of_app in Hb as [Hb|Hb].
           ++ apply list_elem_of_bind in Hb as (i & Hb & _).
              destruct (Hg i _ Hb) as (_ & b1 & _ & _ & E).
              symmetry in E. exact (proj1 (under_not_root _ _) E).
           ++ apply list_elem_of_singleton in Hb. discriminate Hb.
      * apply NoDup_app. split; [|split; [|apply NoDup_singleton]].
        -- apply NoDup_fmap_2; [|exact Hnds]. intros b1 b2. apply under_inj.
        -- intros b Hb. apply list_elem_of_fmap in Hb as (b' & -> & _).
           rewrite list_elem_of_singleton. apply under_not_root.
    + intros b. rewrite !elem_of_app, !list_elem_of_singleton. split.
      * intros [[Hb| ->]|[Hb| ->]].
        -- apply list_elem_of_bind in Hb as (i & Hb & _).
           destruct (Hg i b Hb) as (c & b' & Hc & Hb' & ->).
           apply (block_cluster _ i c); assumption.
        -- constructor. assumption.
        -- apply list_elem_of_fmap in Hb as (b' & -> & Hb').
           apply (block_summary _ s); [reflexivity|]. apply Hins, Hb'.
        -- constructor.
      * intros Hb.
        apply has_block_inv in Hb as [->|[[_ ->]|[(s' & b' & Hs' & Hb' & ->)|(i & c & b' & Hc & Hb' & ->)]]];
          [auto|auto| |].
        -- right. left. cbn [summary] in Hs'. injection Hs' as <-.
           apply list_elem_of_fmap. exists b'. split; [reflexivity|]. apply Hins, Hb'.
        -- left. left. cbn [cluster] in Hc. apply list_elem_of_bind. exists i. split.
           ++ destruct (Hcell i c Hc) as (lc & _ & _ & Hin & _ & ->).
              apply list_elem_of_fmap. exists b'. split; [reflexivity|]. apply Hin, Hb'.
           ++ apply elem_of_seq. pose proof (lookup_lt_Some _ _ _ Hc). lia.
    + rewrite !length_app, length_fmap, Hlens. cbn [length blocks from_option].
      rewrite (length_bind_cells g cl O).
      * destruct cl as [|c cl]; [destruct Hne; reflexivity|]. lia.
      * intros i c Hc. cbn [Nat.add].
        destruct (Hcell i c Hc) as (lc & _ & _ & _ & Hl & ->).
        rewrite length_fmap. exact Hl.
Qed.

(** X5.  [vEB_free] returns on every tree a caller can hold and passes to
    [free] every block of the tree, the struct of each node and each
    cluster array, and each of them once: its loop stays inside the array
    and skips no cell.  The number of blocks is that of the tree
    [vEB_create] returns for the universe, whatever was inserted or deleted
    since, and lies between [u - 1] and [3u - 5]. *)
Theorem free_releases_every_block V :
  reachable V →
  ∃ l, vEB_free V = Some l ∧ NoDup l ∧ (∀ b, b ∈ l ↔ has_block V b) ∧
       length l = blocks V ∧
       (∃ T, vEB_create (u V) = Some T ∧ blocks T = blocks V) ∧
       u V - 1 ≤ Z.of_nat (blocks V) ≤ 3 * u V - 5.
Proof.
  intros HV. destruct (reachable_wf V HV) as (k & Hwf).
  destruct (vEB_create_wf k (wf_k _ _ Hwf)) as (T & HT & HwfT).
  destruct (vEB_free_wf k V Hwf) as (l & Hl & Hnd & Hin & Hlen).
  destruct (blocks_wf k V Hwf) as [Hb Hsame].
  exists l. rewrite (wf_u _ _ Hwf).
  split; [exact Hl|]. split; [exact Hnd|]. split; [exact Hin|]. split; [exact Hlen|].
  split; [|exact Hb]. exists T. split; [exact HT|]. apply Hsame, HwfT.
Qed.

Lemma free_releases_every_block_witness :
  ∃ V l, build 16 [Insert 3; Insert 9; Delete 7] = Some V ∧ vEB_free V = Some l ∧
         NoDup l ∧ length l = 27%nat ∧ node_block [cluster_of 3; cluster_of 1] ∈ l.
Proof.
  destruct (build 16 [Insert 3; Insert 9; Delete 7]) as [V|] eqn:Hb; [|discriminate Hb].
  destruct (free_releases_every_block V (build_reachable _ _ _ Hb))
    as (l & Hl & Hnd & Hin & Hlen & _).
  exists V, l. split; [reflexivity|]. split; [exact Hl|]. split; [exact Hnd|]. split.
  - rewrite Hlen. injection Hb as <-. vm_compute. reflexivity.
  - apply Hin. injection Hb as <-.
    eapply (block_cluster _ 3 _ (node_block [cluster_of 1])); [reflexivity|].
    eapply (block_cluster _ 1 _ (node_block [])); [reflexivity|]. constructor.
Defined.

(** ** Construction when an allocation fails *)

Lemma alloc_step_eq ok fuel n U :
  Alloc.vEB_create_fuel ok (S fuel) n U =
  if U <? 2 then None
  else if negb (Z.land U (U - 1) =? 0) then None
  else if negb (ok n) then None
  else if U <=? 2 then Some (mkNode U (-1) (-1) None [] 0 0, S n)
  else
    let lg := log2_int U in
    let half := lg ÷ 2 in
    let lo := Z.shiftl 1 half in
    let up := Z.shiftl 1 (lg - half) in
    r ← Alloc.vEB_create_fuel ok fuel (S n) up;
    if negb (ok r.2) then None
    else
      rs ← Alloc.create_clusters (λ m, Alloc.vEB_create_fuel ok fuel m lo)
             (Z.to_nat up) (S r.2);
      Some (mkNode U (-1) (-1) (Some r.1) rs.1 lo up, rs.2).
Proof. reflexivity. Qed.

Lemma alloc_clusters ok create c (bc : nat) :
  (∀ m, create m = if forallb ok (seq m bc) then Some (c, (m + bc)%nat) else None) →
  ∀ j m, Alloc.create_clusters create j m =
         if forallb ok (seq m (j * bc)) then Some (replicate j c, (m + j * bc)%nat)
         else None.
Proof.
  intros Hc. induction j as [|j IH]; intros m.
  - cbn [Alloc.create_clusters Nat.mul seq forallb replicate]. rewrite Nat.add_0_r.
    reflexivity.
  - cbn [Alloc.create_clusters]. rewrite Hc.
    replace (S j * bc)%nat with (bc + j * bc)%nat by lia.
    rewrite seq_app, forallb_app.
    destruct (forallb ok (seq m bc)); [|reflexivity].
    cbn [mbind option_bind fst snd andb]. rewrite IH.
    destruct (forallb ok (seq (m + bc) (j * bc))); [|reflexivity].
    cbn [mbind option_bind fst snd replicate]. do 2 f_equal. lia.
Qed.

(** The run with allocations is the run without, as long as every
    allocation succeeds; it makes one allocation for each block. *)
Lemma alloc_create_fuel ok fuel : ∀ k,
  (1 ≤ k ≤ fuel)%nat →
  ∃ T, vEB_create_fuel fuel (pow2 k) = Some T ∧ wf k T ∧
       ∀ n, Alloc.vEB_create_fuel ok fuel n (pow2 k) =
            if forallb ok (seq n (blocks T)) then Some (T, (n + blocks T)%nat) else None.
Proof.
  induction fuel as [|fuel IH]; intros k Hk; [lia|].
  pose proof (pow2_ge_2 k ltac:(lia)) as H2.
  assert (E1 : (pow2 k <? 2) = false) by (apply Z.ltb_ge; lia).
  assert (E2 : negb (Z.land (pow2 k) (pow2 k - 1) =? 0) = false)
    by (rewrite land_pow2; reflexivity).
  destruct (Z.leb_spec (pow2 k) 2) as [Hle|Hgt].
  - assert (k = 1%nat) as ->.
    { destruct (decide (k = 1%nat)); [assumption|].
      pose proof (pow2_gt_2 k ltac:(lia)). lia. }
    exists (mkNode 2 (-1) (-1) None [] 0 0).
    split; [reflexivity|]. split; [constructor; lia|].
    intros n. rewrite pow2_1, alloc_step_eq.
    cbn [blocks from_option Nat.add seq forallb Z.ltb Z.leb Z.compare Pos.compare
         Pos.compare_cont Z.land Z.sub Z.eqb negb Z.add Z.opp Z.pos_sub Z.pred_double
         Pos.pred_double Pos.land Z.of_N N.succ_double N.double].
    replace (n + 1)%nat with (S n) by lia.
    destruct (ok n); reflexivity.
  - assert (2 ≤ k)%nat as Hk2.
    { destruct (decide (k = 1%nat)) as [->|]; [rewrite pow2_1 in Hgt|]; lia. }
    assert (E3 : (pow2 k <=? 2) = false) by (apply Z.leb_gt; lia).
    destruct (create_sqrt k Hk2) as [Elo Eup].
    pose proof (half_bounds k Hk2).
    destruct (IH (k - k / 2)%nat ltac:(lia)) as (s & Hs & Hwfs & Has).
    destruct (IH (k / 2)%nat ltac:(lia)) as (c & Hc & Hwfc & Hac).
    pose proof (pow2_pos (k - k / 2)) as Hup.
    set (N := Z.to_nat (pow2 (k - k / 2))).
    exists (mkNode (pow2 k) (-1) (-1) (Some s) (replicate N c)
              (pow2 (k / 2)) (pow2 (k - k / 2))).
    split; [|split].
    + rewrite create_step_eq, E1, E2, E3. cbn zeta. rewrite Elo, Eup, Hs, Hc.
      rewrite create_clusters_Some. reflexivity.
    + constructor; auto; try lia.
      * apply length_replicate.
      * apply Forall_replicate. assumption.
    + intros n.
      assert (HbT : blocks (mkNode (pow2 k) (-1) (-1) (Some s) (replicate N c)
                              (pow2 (k / 2)) (pow2 (k - k / 2)))
                    = (1 + (blocks s + (1 + N * blocks c)))%nat).
      { cbn [blocks from_option].
        assert (Hsum : foldr (λ c n, blocks c + n)%nat O (replicate N c)
                       = (N * blocks c)%nat).
        { rewrite (blocks_cells (blocks c)), length_replicate; [reflexivity|].
          apply Forall_replicate. reflexivity. }
        destruct (replicate N c) as [|c' cl'] eqn:Hrep.
        - apply (f_equal length) in Hrep. rewrite length_replicate in Hrep.
          cbn [length] in Hrep. lia.
        - rewrite Hsum. lia. }
      rewrite HbT, alloc_step_eq, E1, E2, E3. cbn zeta. rewrite Elo, Eup.
      rewrite !seq_app, !forallb_app. cbn [seq forallb].
      replace (n + 1)%nat with (S n) by lia.
      replace (S n + blocks s + 1)%nat with (S (S n + blocks s)) by lia.
      destruct (ok n); [|reflexivity]. cbn [negb andb].
      rewrite (Has (S n)).
      destruct (forallb ok (seq (S n) (blocks s))); [|reflexivity].
      cbn [mbind option_bind fst snd andb].
      destruct (ok (S n + blocks s)%nat); [|reflexivity]. cbn [negb andb].
      rewrite (alloc_clusters ok _ c (blocks c) Hac). fold N.
      destruct (forallb ok (seq (S (S n + blocks s)) (N * blocks c))); [|reflexivity].
      cbn [mbind option_bind fst snd]. do 2 f_equal. lia.
Qed.

Lemma alloc_guards ok fuel n U r :
  Alloc.vEB_create_fuel ok fuel n U = Some r → 2 ≤ U ∧ Z.land U (U - 1) = 0.
Proof.
  destruct fuel as [|fuel]; [discriminate|]. rewrite alloc_step_eq.
  destruct (Z.ltb_spec U 2); [discriminate|].
  destruct (Z.eqb_spec (Z.land U (U - 1)) 0); [|discriminate]. auto.
Qed.

Lemma alloc_create ok n U T :
  vEB_create U = Some T →
  Alloc.vEB_create ok n U =
  if forallb ok (seq n (blocks T)) then Some (T, (n + blocks T)%nat) else None.
Proof.
  intros HT. destruct (vEB_create_inv _ _ HT) as (k & Hwf & ->).
  destruct (alloc_create_fuel ok (Z.to_nat (pow2 k)) k) as (T' & HT' & _ & Ha).
  { pose proof (wf_k _ _ Hwf). pose proof (pow2_fuel k). lia. }
  unfold vEB_create in HT. assert (T' = T) as -> by congruence. apply Ha.
Qed.

Lemma forallb_seq ok n m :
  forallb ok (seq n m) = true ↔ ∀ i, (i < m)%nat → ok (n + i)%nat = true.
Proof.
  rewrite forallb_forall. split.
  - intros H i Hi. apply H. apply in_seq. lia.
  - intros H x Hx. apply in_seq in Hx. replace x with (n + (x - n))%nat by lia.
    apply H. lia.
Qed.

(** X1.  [vEB_create(U)] returns a tree exactly when [U >= 2], [U & (U - 1)]
    is 0, that is, [U] is a power of two from 2 on, and every allocation
    of the run succeeds; it exits on a wrong size and at the first [malloc]
    or [calloc] that fails.  The run makes one allocation for each block of
    the tree, and the tree it returns is the one of the run in which every
    allocation succeeds. *)
Theorem create_returns_iff_size_and_memory ok n U :
  (is_Some (Alloc.vEB_create ok n U) ↔
     (2 ≤ U ∧ Z.land U (U - 1) = 0) ∧
     ∃ T, vEB_create U = Some T ∧ ∀ i, (i < blocks T)%nat → ok (n + i)%nat = true) ∧
  (∀ T m, Alloc.vEB_create ok n U = Some (T, m) →
          vEB_create U = Some T ∧ m = (n + blocks T)%nat) ∧
  fst <$> Alloc.vEB_create (λ _, true) n U = vEB_create U ∧
  (is_Some (vEB_create U) ↔ 2 ≤ U ∧ Z.land U (U - 1) = 0) ∧
  (2 ≤ U ∧ Z.land U (U - 1) = 0 ↔ ∃ k, (1 ≤ k)%nat ∧ U = pow2 k).
Proof.
  assert (Hpure : ∀ ok' n' r, Alloc.vEB_create ok' n' U = Some r →
                              ∃ T, vEB_create U = Some T).
  { intros ok' n' r Hr. apply alloc_guards in Hr.
    apply vEB_create_defined in Hr as [T HT]. eauto. }
  split; [|split; [|split; [|split]]].
  - split.
    + intros [r Hr]. split; [exact (alloc_guards _ _ _ _ _ Hr)|].
      destruct (Hpure _ _ _ Hr) as [T HT]. exists T. split; [exact HT|].
      rewrite (alloc_create ok n U T HT) in Hr. apply forallb_seq.
      destruct (forallb ok (seq n (blocks T))); [reflexivity|discriminate Hr].
    + intros [_ (T & HT & Hok)]. rewrite (alloc_create ok n U T HT).
      apply forallb_seq in Hok. rewrite Hok. eauto.
  - intros T m Hr. destruct (Hpure _ _ _ Hr) as [T0 HT0].
    rewrite (alloc_create ok n U T0 HT0) in Hr.
    destruct (forallb ok (seq n (blocks T0))); [|discriminate Hr].
    injection Hr as <- <-. auto.
  - destruct (vEB_create U) as [T|] eqn:HT.
    + rewrite (alloc_create _ n U T HT).
      assert (forallb (λ _ : nat, true) (seq n (blocks T)) = true) as ->
        by (apply forallb_seq; reflexivity).
      reflexivity.
    + destruct (Alloc.vEB_create (λ _, true) n U) as [r|] eqn:Hr; [|reflexivity].
      destruct (Hpure _ _ _ Hr) as [T HT']. congruence.
  - apply vEB_create_defined.
  - rewrite <- vEB_create_defined. split.
    + intros [V HV]. destruct (vEB_create_inv _ _ HV) as (k & Hwf & ->).
      exists k. split; [eapply wf_k; eauto|reflexivity].
    + intros (k & Hk & ->). destruct (vEB_create_wf k Hk) as (V & -> & _). eauto.
Qed.

(** ** Insert and Delete on built trees *)

Lemma run_inserts_built xs : ∀ V V',
  built V → run V (Insert <$> xs) = Some V' → built V'.
Proof.
  induction xs as [|x xs IH]; intros V V' HV; cbn [fmap list_fmap run].
  - intros [= <-]. assumption.
  - cbn [step]. destruct (vEB_insert V x) as [V1|] eqn:Hins; [|discriminate].
    cbn [mbind option_bind]. apply IH. eapply built_insert; eauto.
Qed.

Lemma build_inserts_built U xs V : build U (Insert <$> xs) = Some V → built V.
Proof.
  unfold build. destruct (vEB_create U) as [V0|] eqn:Hc; [|discriminate].
  cbn [mbind option_bind]. apply run_inserts_built. eapply built_create; eauto.
Qed.

Lemma built_insert_repr k V S x :
  built V → repr k V S → 0 ≤ x < u V →
  ∃ V', vEB_insert V x = Some V' ∧ built V' ∧ u V' = u V ∧
        repr k V' (λ y, S y ∨ y = x).
Proof.
  intros HV Hr Hx. destruct (vEB_insert_repr k V S x Hr Hx) as (V' & Hins & Hr').
  exists V'. split; [assumption|]. split; [eapply built_insert; eauto|].
  split; [|assumption].
  rewrite (wf_u _ _ (repr_wf _ _ _ Hr)), (wf_u _ _ (repr_wf _ _ _ Hr')). reflexivity.
Qed.

Lemma built_delete_repr k V S x :
  built V → repr k V S → S x →
  ∃ V', vEB_delete V x = Some V' ∧ built V' ∧ u V' = u V ∧
        repr k V' (λ y, S y ∧ y ≠ x).
Proof.
  intros HV Hr Hx. destruct (vEB_delete_repr k V S x Hr Hx) as (V' & Hdel & Hr').
  exists V'. split; [assumption|]. split.
  - eapply built_delete; eauto. apply (stored_repr _ _ _ x Hr). assumption.
  - split; [|assumption].
    rewrite (wf_u _ _ (repr_wf _ _ _ Hr)), (wf_u _ _ (repr_wf _ _ _ Hr')). reflexivity.
Qed.

(** X6.  On a tree built without deleting an absent key, Insert of a key
    of the universe returns a tree of the same universe that holds the key
    and exactly the keys held before: no other key is added or lost. *)
Theorem insert_adds_only_the_key V x :
  built V → 0 ≤ x < u V →
  ∃ V', vEB_insert V x = Some V' ∧ built V' ∧ u V' = u V ∧
        ∀ y, stored V' y ↔ stored V y ∨ y = x.
Proof.
  intros HV Hx. destruct (built_repr V HV) as (k & S & Hr).
  destruct (built_insert_repr k V S x HV Hr Hx) as (V' & Hins & HV' & Hu & Hr').
  exists V'. split; [assumption|]. split; [assumption|]. split; [assumption|].
  intros y. rewrite (stored_repr _ _ _ y Hr'), (stored_repr _ _ _ y Hr). reflexivity.
Qed.

Lemma insert_adds_only_the_key_witness :
  ∃ V V', build 16 (Insert <$> [3; 9]) = Some V ∧ vEB_insert V 12 = Some V' ∧
          (stored V' 9 ↔ stored V 9 ∨ 9 = 12).
Proof.
  destruct (build 16 (Insert <$> [3; 9])) as [V|] eqn:Hb; [|discriminate Hb].
  assert (Hx : 0 ≤ 12 < u V)
    by (injection Hb as <-; vm_compute; split; [discriminate|reflexivity]).
  destruct (insert_adds_only_the_key V 12 (build_inserts_built _ _ _ Hb) Hx)
    as (V' & Hins & _ & _ & Hst).
  exists V, V'. split; [reflexivity|]. split; [exact Hins|]. apply Hst.
Defined.

(** X7.  On a tree built without deleting an absent key, Delete of a
    stored key returns a tree of the same universe that holds exactly the
    other keys held before: the key is gone and no other key is lost. *)
Theorem delete_removes_only_the_key V x :
  built V → stored V x →
  ∃ V', vEB_delete V x = Some V' ∧ built V' ∧ u V' = u V ∧
        ∀ y, stored V' y ↔ stored V y ∧ y ≠ x.
Proof.
  intros HV Hx. destruct (built_repr V HV) as (k & S & Hr).
  apply (stored_repr _ _ _ x Hr) in Hx.
  destruct (built_delete_repr k V S x HV Hr Hx) as (V' & Hdel & HV' & Hu & Hr').
  exists V'. split; [assumption|]. split; [assumption|]. split; [assumption|].
  intros y. rewrite (stored_repr _ _ _ y Hr'), (stored_repr _ _ _ y Hr). reflexivity.
Qed.

Lemma delete_removes_only_the_key_witness :
  ∃ V V', build 16 (Insert <$> [3; 9; 12]) = Some V ∧ vEB_delete V 9 = Some V' ∧
          (stored V' 12 ↔ stored V 12 ∧ 12 ≠ 9).
Proof.
  destruct (build 16 (Insert <$> [3; 9; 12])) as [V|] eqn:Hb; [|discriminate Hb].
  assert (Hx : stored V 9).
  { injection Hb as <-. split; [vm_compute; split; [discriminate|reflexivity]|].
    vm_compute. reflexivity. }
  destruct (delete_removes_only_the_key V 9 (build_inserts_built _ _ _ Hb) Hx)
    as (V' & Hdel & _ & _ & Hst).
  exists V, V'. split; [reflexivity|]. split; [exact Hdel|]. apply Hst.
Defined.

(** ** One tree for one set of keys *)

Lemma extremes_unique S mn mx mn' mx' :
  extremes S mn mx → extremes S mn' mx' → mn = mn' ∧ mx = mx'.
Proof.
  intros [(-> & -> & He)|(H1 & H2 & H3)] [(-> & -> & He')|(H1' & H2' & H3')].
  - auto.
  - destruct (He _ H1').
  - destruct (He' _ H1).
  - pose proof (H3 _ H1'). pose proof (H3 _ H2'). pose proof (H3' _ H1).
    pose proof (H3' _ H2). lia.
Qed.

Lemma repr_unique k : ∀ V S V' S',
  repr k V S → repr k V' S' → (∀ x, S x ↔ S' x) → V = V'.
Proof.
  induction k as [k IH] using lt_wf_ind. intros V S V' S' Hr Hr' E.
  destruct Hr as [S mn mx Hrg He|k S mn mx s cl Hk Hrg He Hlen Hcl Hs].
  - inversion Hr' as [S0 mn' mx' Hrg' He'|]; subst; [|lia].
    apply (extremes_ext S' S) in He'; [|intros x; symmetry; apply E].
    destruct (extremes_unique _ _ _ _ _ He He') as [-> ->]. reflexivity.
  - inversion Hr' as [|k0 S0 mn' mx' s' cl' Hk' Hrg' He' Hlen' Hcl' Hs']; subst; [lia|].
    apply (extremes_ext S' S) in He'; [|intros x; symmetry; apply E].
    destruct (extremes_unique _ _ _ _ _ He He') as [<- <-].
    pose proof (half_bounds k Hk) as (? & ? & ? & ?).
    assert (s = s') as <-.
    { apply (IH (k - k / 2)%nat ltac:(assumption) _ _ _ _ Hs Hs').
      apply occupied_ext. assumption. }
    assert (cl = cl') as <-; [|reflexivity].
    apply list_eq. intros i.
    destruct (cl !! i) as [c|] eqn:Hc.
    + destruct (cl' !! i) as [c'|] eqn:Hc'.
      * f_equal. apply (IH (k / 2)%nat ltac:(assumption) c
                          (sub S mn (pow2 (k / 2)) (Z.of_nat i)) c'
                          (sub S' mn (pow2 (k / 2)) (Z.of_nat i))).
        -- apply Hcl. apply cell_Some. rewrite Nat2Z.id. split; [lia|assumption].
        -- apply Hcl'. apply cell_Some. rewrite Nat2Z.id. split; [lia|assumption].
        -- apply sub_ext. assumption.
      * apply lookup_lt_Some in Hc. apply lookup_ge_None in Hc'. lia.
    + destruct (cl' !! i) as [c'|] eqn:Hc'; [|reflexivity].
      apply lookup_lt_Some in Hc'. apply lookup_ge_None in Hc. lia.
Qed.

(** X8.  The tree is a function of the keys it holds: two trees of the
    same universe, each built without deleting an absent key, that hold the
    same keys are equal in every field of every node, whatever the order of
    the calls that built them. *)
Theorem same_keys_same_tree V V' :
  built V → built V' → u V = u V' → (∀ y, stored V y ↔ stored V' y) → V = V'.
Proof.
  intros HV HV' Hu E.
  destruct (built_repr V HV) as (k & S & Hr).
  destruct (built_repr V' HV') as (k' & S' & Hr').
  assert (k' = k) as ->.
  { apply pow2_inj. rewrite <- (wf_u _ _ (repr_wf _ _ _ Hr)),
      <- (wf_u _ _ (repr_wf _ _ _ Hr')). congruence. }
  apply (repr_unique k V S V' S' Hr Hr').
  intros x. rewrite <- (stored_repr _ _ _ x Hr), <- (stored_repr _ _ _ x Hr'). apply E.
Qed.

Lemma same_keys_same_tree_witness :
  build 16 [Insert 3; Insert 9; Insert 12; Delete 9] = build 16 [Insert 12; Insert 3].
Proof.
  destruct (build 16 [Insert 3; Insert 9; Insert 12]) as [V0|] eqn:Hb0; [|discriminate Hb0].
  destruct (build 16 [Insert 3; Insert 9; Insert 12; Delete 9]) as [V|] eqn:Hb;
    [|discriminate Hb].
  destruct (build 16 [Insert 12; Insert 3]) as [V'|] eqn:Hb'; [|discriminate Hb'].
  f_equal. apply same_keys_same_tree.
  - apply (built_delete V0 9 V).
    + apply (build_inserts_built 16 [3; 9; 12]). exact Hb0.
    + injection Hb0 as <-. vm_compute. reflexivity.
    + injection Hb0 as <-. injection Hb as <-. vm_compute. reflexivity.
  - apply (build_inserts_built 16 [12; 3]). exact Hb'.
  - injection Hb as <-. injection Hb' as <-. reflexivity.
  - injection Hb as <-. injection Hb' as <-. intros y. vm_compute. tauto.
Defined.

(** X9.  On a tree built without deleting an absent key, two Inserts give
    the same tree in either order, and so do two Deletes of stored keys. *)
Theorem calls_commute V x y :
  built V → 0 ≤ x < u V → 0 ≤ y < u V →
  (∃ W, (V1 ← vEB_insert V x; vEB_insert V1 y) = Some W ∧
        (V1 ← vEB_insert V y; vEB_insert V1 x) = Some W) ∧
  (stored V x → stored V y → x ≠ y →
   ∃ W, (V1 ← vEB_delete V x; vEB_delete V1 y) = Some W ∧
        (V1 ← vEB_delete V y; vEB_delete V1 x) = Some W).
Proof.
  intros HV Hx Hy. destruct (built_repr V HV) as (k & S & Hr). split.
  - destruct (built_insert_repr k V S x HV Hr Hx) as (V1 & -> & HV1 & Hu1 & Hr1).
    destruct (built_insert_repr k V1 _ y HV1 Hr1 ltac:(lia)) as (W & HW & _ & _ & HrW).
    destruct (built_insert_repr k V S y HV Hr Hy) as (V2 & -> & HV2 & Hu2 & Hr2).
    destruct (built_insert_repr k V2 _ x HV2 Hr2 ltac:(lia)) as (W' & HW' & _ & _ & HrW').
    cbn [mbind option_bind]. exists W. split; [assumption|]. rewrite HW'. f_equal.
    apply (repr_unique k _ _ _ _ HrW' HrW). intros z. cbn beta. tauto.
  - intros Sx Sy Hne.
    apply (stored_repr _ _ _ x Hr) in Sx. apply (stored_repr _ _ _ y Hr) in Sy.
    destruct (built_delete_repr k V S x HV Hr Sx) as (V1 & -> & HV1 & Hu1 & Hr1).
    destruct (built_delete_repr k V1 _ y HV1 Hr1 ltac:(cbn beta; auto))
      as (W & HW & _ & _ & HrW).
    destruct (built_delete_repr k V S y HV Hr Sy) as (V2 & -> & HV2 & Hu2 & Hr2).
    destruct (built_delete_repr k V2 _ x HV2 Hr2 ltac:(cbn beta; auto))
      as (W' & HW' & _ & _ & HrW').
    cbn [mbind option_bind]. exists W. split; [assumption|]. rewrite HW'. f_equal.
    apply (repr_unique k _ _ _ _ HrW' HrW). intros z. cbn beta. tauto.
Qed.

Lemma calls_commute_witness :
  ∃ V, build 16 (Insert <$> [3; 9]) = Some V ∧
       (V1 ← vEB_insert V 12; vEB_insert V1 5) = (V1 ← vEB_insert V 5; vEB_insert V1 12).
Proof.
  destruct (build 16 (Insert <$> [3; 9])) as [V|] eqn:Hb; [|discriminate Hb].
  assert (Hx : 0 ≤ 12 < u V)
    by (injection Hb as <-; vm_compute; split; [discriminate|reflexivity]).
  assert (Hy : 0 ≤ 5 < u V)
    by (injection Hb as <-; vm_compute; split; [discriminate|reflexivity]).
  destruct (calls_commute V 12 5 (build_inserts_built _ _ _ Hb) Hx Hy)
    as [(W & H1 & H2) _].
  exists V. split; [reflexivity|]. rewrite H1, H2. reflexivity.
Defined.

(** X10.  On a tree built without deleting an absent key, Insert and
    Delete of one key undo each other: Delete after the Insert of an absent
    key, and Insert after the Delete of a stored key, give back the tree as
    it was, in every field of every node. *)
Theorem insert_delete_undo V x :
  built V → 0 ≤ x < u V →
  (¬ stored V x → ∃ V1, vEB_insert V x = Some V1 ∧ vEB_delete V1 x = Some V) ∧
  (stored V x → ∃ V1, vEB_delete V x = Some V1 ∧ vEB_insert V1 x = Some V).
Proof.
  intros HV Hx. destruct (built_repr V HV) as (k & S & Hr).
  rewrite (stored_repr _ _ _ x Hr). split; intros HS.
  - destruct (built_insert_repr k V S x HV Hr Hx) as (V1 & Hins & HV1 & Hu1 & Hr1).
    destruct (built_delete_repr k V1 _ x HV1 Hr1 ltac:(cbn beta; auto))
      as (V2 & Hdel & _ & _ & Hr2).
    exists V1. split; [assumption|]. rewrite Hdel. f_equal.
    apply (repr_unique k _ _ _ _ Hr2 Hr). intros z. cbn beta.
    destruct (Z.eq_dec z x) as [->|]; tauto.
  - destruct (built_delete_repr k V S x HV Hr HS) as (V1 & Hdel & HV1 & Hu1 & Hr1).
    destruct (built_insert_repr k V1 _ x HV1 Hr1 ltac:(lia)) as (V2 & Hins & _ & _ & Hr2).
    exists V1. split; [assumption|]. rewrite Hins. f_equal.
    apply (repr_unique k _ _ _ _ Hr2 Hr). intros z. cbn beta.
    destruct (Z.eq_dec z x) as [->|]; tauto.
Qed.

Lemma insert_delete_undo_witness :
  ∃ V V1, build 16 (Insert <$> [3; 9]) = Some V ∧
          vEB_delete V 9 = Some V1 ∧ vEB_insert V1 9 = Some V.
Proof.
  destruct (build 16 (Insert <$> [3; 9])) as [V|] eqn:Hb; [|discriminate Hb].
  assert (Hx : 0 ≤ 9 < u V)
    by (injection Hb as <-; vm_compute; split; [discriminate|reflexivity]).
  assert (Hs : stored V 9).
  { split; [exact Hx|]. injection Hb as <-. vm_compute. reflexivity. }
  destruct (insert_delete_undo V 9 (build_inserts_built _ _ _ Hb) Hx) as [_ Hback].
  destruct (Hback Hs) as (V1 & Hdel & Hins).
  exists V, V1. split; [reflexivity|]. split; assumption.
Defined.

(** X11.  [vEB_create] followed by Inserts of a list of keys returns a
    tree that holds exactly the keys of the list that lie in the universe:
    keys outside it are refused one by one and the run goes on. *)
Theorem inserts_store_the_list k xs :
  (1 ≤ k)%nat →
  ∃ V, build (pow2 k) (Insert <$> xs) = Some V ∧ u V = pow2 k ∧
       ∀ y, stored V y ↔ y ∈ xs ∧ 0 ≤ y < pow2 k.
Proof.
  intros Hk. unfold build.
  destruct (vEB_create_fuel_repr (Z.to_nat (pow2 k)) k) as (T & HT & Hr).
  { pose proof (pow2_fuel k). lia. }
  fold (vEB_create (pow2 k)) in HT. rewrite HT. cbn [mbind option_bind].
  assert (Hgen : ∀ xs V S, repr k V S →
            ∃ V', run V (Insert <$> xs) = Some V' ∧
                  repr k V' (λ y, S y ∨ (y ∈ xs ∧ 0 ≤ y < pow2 k))).
  { clear. induction xs as [|x xs IH]; intros V S Hr; cbn [fmap list_fmap run step].
    - exists V. split; [reflexivity|]. apply (repr_ext _ _ _ Hr). intros y.
      rewrite elem_of_nil. tauto.
    - pose proof (wf_u _ _ (repr_wf _ _ _ Hr)) as Hu.
      destruct (decide (0 ≤ x < u V)) as [Hx|Hx].
      + destruct (vEB_insert_repr k V S x Hr Hx) as (V1 & -> & Hr1).
        cbn [mbind option_bind]. destruct (IH V1 _ Hr1) as (V' & -> & Hr').
        exists V'. split; [reflexivity|]. apply (repr_ext _ _ _ Hr'). intros y.
        rewrite elem_of_cons. cbn beta. split; [|tauto].
        intros [[HS| ->]|[Hin Hy]]; [tauto| |tauto]. right. split; [auto|lia].
      + rewrite out_of_range_insert by assumption. cbn [mbind option_bind].
        destruct (IH V S Hr) as (V' & -> & Hr').
        exists V'. split; [reflexivity|]. apply (repr_ext _ _ _ Hr'). intros y.
        rewrite elem_of_cons. split; [tauto|].
        intros [HS|[[ ->|Hin] Hy]]; [tauto| |tauto]. lia. }
  destruct (Hgen xs T _ Hr) as (V & HV & HrV).
  exists V. split; [assumption|]. split; [apply (wf_u _ _ (repr_wf _ _ _ HrV))|].
  intros y. rewrite (stored_repr _ _ _ y HrV). tauto.
Qed.

Lemma inserts_store_the_list_witness :
  (1 ≤ 4)%nat ∧
  ∃ V, build 16 (Insert <$> [9; 16; 3; -1; 9]) = Some V ∧ stored V 3 ∧ ¬ stored V 16.
Proof.
  assert (Hk : (1 ≤ 4)%nat) by lia. split; [exact Hk|].
  destruct (inserts_store_the_list 4 [9; 16; 3; -1; 9] Hk) as (V & HV & _ & Hst).
  exists V. split; [exact HV|]. split.
  - apply Hst. split; [|vm_compute; split; [discriminate|reflexivity]].
    apply list_elem_of_further, list_elem_of_further, list_elem_of_here.
  - intros H16. apply Hst in H16 as [_ [_ Hlt]]. vm_compute in Hlt. discriminate Hlt.
Defined.

(** ** Successor, Predecessor and the extremes *)

(** X12.  On a tree built without deleting an absent key, Successor and
    Predecessor are inverse on stored keys: the predecessor of the
    successor of a stored key is the key, and the successor of its
    predecessor is the key. *)
Theorem successor_predecessor_inverse V x y :
  built V → stored V x →
  (vEB_successor V x = Some y → y ≠ -1 → vEB_predecessor V y = Some x) ∧
  (vEB_predecessor V x = Some y → y ≠ -1 → vEB_successor V y = Some x).
Proof.
  intros HV Hx. destruct (built_repr V HV) as (k & S & Hr).
  apply (stored_repr _ _ _ x Hr) in Hx. pose proof (repr_range _ _ _ _ Hr Hx) as Hxr.
  split; intros Hq Hy.
  - destruct (vEB_successor_repr k V S x Hr Hxr) as (r & Hs & Hspec).
    assert (r = y) as -> by congruence.
    destruct Hspec as [[-> _]|(Sy & Hlt & Hleast)]; [lia|].
    destruct (vEB_predecessor_repr k V S y Hr (repr_range _ _ _ _ Hr Sy))
      as (p & Hp & [[-> Hno]|(Sp & Hplt & Hgreatest)]).
    + pose proof (Hno x Hx). lia.
    + rewrite Hp. f_equal. pose proof (Hgreatest x Hx Hlt) as Hxp.
      destruct (Z.eq_dec p x) as [|Hne]; [assumption|].
      pose proof (Hleast p Sp ltac:(lia)). lia.
  - destruct (vEB_predecessor_repr k V S x Hr Hxr) as (r & Hs & Hspec).
    assert (r = y) as -> by congruence.
    destruct Hspec as [[-> _]|(Sy & Hlt & Hgreatest)]; [lia|].
    destruct (vEB_successor_repr k V S y Hr (repr_range _ _ _ _ Hr Sy))
      as (p & Hp & [[-> Hno]|(Sp & Hplt & Hleast)]).
    + pose proof (Hno x Hx). lia.
    + rewrite Hp. f_equal. pose proof (Hleast x Hx Hlt) as Hxp.
      destruct (Z.eq_dec p x) as [|Hne]; [assumption|].
      pose proof (Hgreatest p Sp ltac:(lia)). lia.
Qed.

Lemma successor_predecessor_inverse_witness :
  ∃ V, build 16 (Insert <$> [3; 9; 12]) = Some V ∧
       vEB_successor V 3 = Some 9 ∧ vEB_predecessor V 9 = Some 3.
Proof.
  destruct (build 16 (Insert <$> [3; 9; 12])) as [V|] eqn:Hb; [|discriminate Hb].
  assert (Hx : stored V 3).
  { injection Hb as <-. split; [vm_compute; split; [discriminate|reflexivity]|].
    vm_compute. reflexivity. }
  assert (Hs : vEB_successor V 3 = Some 9) by (injection Hb as <-; vm_compute; reflexivity).
  assert (Hy : 9 ≠ -1) by discriminate.
  destruct (successor_predecessor_inverse V 3 9 (build_inserts_built _ _ _ Hb) Hx)
    as [Hinv _].
  exists V. split; [reflexivity|]. split; [exact Hs|]. exact (Hinv Hs Hy).
Defined.

(** X13.  On a tree built without deleting an absent key that holds a
    key, Delete of the minimum returns a tree whose [min] is what Successor
    answered for the old minimum, and Delete of the maximum a tree whose
    [max] is what Predecessor answered for the old maximum (the sentinel
    when the key was the only one). *)
Theorem delete_extreme_moves_to_neighbour V :
  built V → min V ≠ -1 →
  (∃ V' r, vEB_delete V (min V) = Some V' ∧
           vEB_successor V (min V) = Some r ∧ min V' = r) ∧
  (∃ V' r, vEB_delete V (max V) = Some V' ∧
           vEB_predecessor V (max V) = Some r ∧ max V' = r).
Proof.
  intros HV Hmn. destruct (built_repr V HV) as (k & S & Hr).
  destruct (repr_min _ _ _ Hr Hmn) as [Smn Hle].
  assert (Hmx : max V ≠ -1).
  { intros E. apply (proj1 (repr_max_empty _ _ _ Hr) E _ Smn). }
  destruct (repr_max _ _ _ Hr Hmx) as [Smx Hge].
  split.
  - destruct (vEB_delete_repr k V S (min V) Hr Smn) as (V' & Hdel & Hr').
    destruct (vEB_successor_repr k V S (min V) Hr (repr_range _ _ _ _ Hr Smn))
      as (r & Hs & Hspec).
    exists V', r. split; [assumption|]. split; [assumption|].
    destruct Hspec as [[-> Hno]|(Sr & Hlt & Hleast)].
    + apply (repr_empty _ _ _ Hr'). intros y [Sy Hne]. cbn beta in *.
      pose proof (Hno y Sy). pose proof (Hle y Sy). lia.
    + destruct (Z.eq_dec (min V') (-1)) as [E|Hne].
      * exfalso. apply (proj1 (repr_empty _ _ _ Hr') E r). cbn beta. split; [assumption|lia].
      * destruct (repr_min _ _ _ Hr' Hne) as [[Sm Hm] Hle'].
        pose proof (Hle' r ltac:(cbn beta; split; [assumption|lia])).
        pose proof (Hle _ Sm).
        pose proof (Hleast _ Sm ltac:(lia)). lia.
  - destruct (vEB_delete_repr k V S (max V) Hr Smx) as (V' & Hdel & Hr').
    destruct (vEB_predecessor_repr k V S (max V) Hr (repr_range _ _ _ _ Hr Smx))
      as (r & Hs & Hspec).
    exists V', r. split; [assumption|]. split; [assumption|].
    destruct Hspec as [[-> Hno]|(Sr & Hlt & Hgreatest)].
    + apply (repr_max_empty _ _ _ Hr'). intros y [Sy Hne]. cbn beta in *.
      pose proof (Hno y Sy). pose proof (Hge y Sy). lia.
    + destruct (Z.eq_dec (max V') (-1)) as [E|Hne].
      * exfalso. apply (proj1 (repr_max_empty _ _ _ Hr') E r). cbn beta.
        split; [assumption|lia].
      * destruct (repr_max _ _ _ Hr' Hne) as [[Sm Hm] Hge'].
        pose proof (Hge' r ltac:(cbn beta; split; [assumption|lia])).
        pose proof (Hge _ Sm).
        pose proof (Hgreatest _ Sm ltac:(lia)). lia.
Qed.

Lemma delete_extreme_moves_to_neighbour_witness :
  ∃ V V', build 16 (Insert <$> [3; 9; 12]) = Some V ∧
          vEB_delete V 3 = Some V' ∧ min V' = 9.
Proof.
  destruct (build 16 (Insert <$> [3; 9; 12])) as [V|] eqn:Hb; [|discriminate Hb].
  assert (Hmn : min V ≠ -1) by (injection Hb as <-; vm_compute; discriminate).
  assert (E3 : min V = 3) by (injection Hb as <-; vm_compute; reflexivity).
  assert (Hs : vEB_successor V 3 = Some 9) by (injection Hb as <-; vm_compute; reflexivity).
  destruct (delete_extreme_moves_to_neighbour V (build_inserts_built _ _ _ Hb) Hmn)
    as [(V' & r & Hdel & Hsucc & Hr) _].
  rewrite E3 in Hdel, Hsucc.
  exists V, V'. split; [reflexivity|]. split; [exact Hdel|]. congruence.
Defined.

(** X14.  Successor and Predecessor do not test the range of the key.  On
    a tree built without deleting an absent key and of universe above 2,
    Successor of a negative key answers [min] when the tree holds a key,
    and Successor of [-1] answers [min] also when it is empty, so it gives
    the first key; Predecessor of a key from [u] on answers [max] when the
    tree holds a key, and on the empty tree Predecessor of [u] reads
    [cluster[upper_sqrt]], one cell past the array.  In a tree of
    universe 2 both answer the sentinel for every key outside the
    universe, whatever the tree holds. *)
Theorem neighbours_from_outside V x :
  built V →
  (2 < u V →
     (x < 0 → min V ≠ -1 → vEB_successor V x = Some (min V)) ∧
     vEB_successor V (-1) = Some (min V) ∧
     (u V ≤ x → max V ≠ -1 → vEB_predecessor V x = Some (max V)) ∧
     (min V = -1 → vEB_predecessor V (u V) = None)) ∧
  (u V ≤ 2 → ¬ 0 ≤ x < u V →
     vEB_successor V x = Some (-1) ∧ vEB_predecessor V x = Some (-1)).
Proof.
  intros HV. destruct (built_repr V HV) as (k & S & Hr).
  pose proof (repr_wf _ _ _ Hr) as Hwf.
  pose proof (wf_min _ _ Hwf) as Hmn. pose proof (wf_max _ _ Hwf) as Hmx.
  pose proof (wf_u_ge _ _ Hwf) as Hu2.
  assert (Hsucc_neg : 2 < u V → ∀ z, z < 0 → min V ≠ -1 → vEB_successor V z = Some (min V)).
  { intros Hu z Hz Hne. rewrite vEB_successor_eq.
    destruct (Z.leb_spec (u V) 2); [lia|].
    destruct (Z.eqb_spec (min V) (-1)); [lia|].
    destruct (Z.ltb_spec z (min V)); [reflexivity|lia]. }
  split.
  - intros Hu. split; [apply Hsucc_neg; assumption|]. split; [|split].
    + destruct (Z.eq_dec (min V) (-1)) as [E|Hne]; [|apply Hsucc_neg; [assumption|lia|assumption]].
      rewrite vEB_successor_eq, E.
      destruct (Z.leb_spec (u V) 2); [lia|]. cbn [Z.eqb negb andb].
      destruct (wf_node_inv _ _ Hwf Hu) as (Hk & Hlo & Hup & _).
      pose proof (pow2_ge_2 (k / 2) ltac:(pose proof (half_bounds k Hk); lia)) as Hlo2.
      pose proof (pow2_pos (k - k / 2)) as Hup0.
      assert (Hh : high V (-1) = 0).
      { unfold high. rewrite Hlo. apply Z.quot_small_iff; lia. }
      rewrite Hh.
      pose proof (proj1 (repr_empty _ _ _ Hr) E) as He.
      destruct (repr_cell _ _ _ 0 Hr Hu ltac:(lia)) as (c & Hc & Hrc & _).
      rewrite Hc. cbn [mbind option_bind].
      assert (Hcmx : vEB_max c = -1).
      { apply (repr_max_empty _ _ _ Hrc). intros l (_ & HS & _). exact (He _ HS). }
      rewrite Hcmx. cbn [Z.eqb negb andb].
      destruct (repr_summary _ _ _ Hr Hu) as (_ & s & Hs & Hus & Hrs).
      rewrite Hs. cbn [mbind option_bind].
      destruct (vEB_successor_repr _ s _ 0 Hrs ltac:(lia))
        as (r & -> & [[-> _]|((_ & l & _ & HS & _) & _)]); [reflexivity|].
      destruct (He _ HS).
    + intros Hx Hne. rewrite vEB_predecessor_eq.
      destruct (Z.leb_spec (u V) 2); [lia|].
      destruct (Z.eqb_spec (max V) (-1)); [lia|]. cbn [negb andb].
      destruct (Z.gtb_spec x (max V)); [reflexivity|lia].
    + intros E. rewrite vEB_predecessor_eq.
      destruct (Z.leb_spec (u V) 2); [lia|].
      pose proof (proj1 (repr_empty _ _ _ Hr) E) as He.
      rewrite (proj2 (repr_max_empty _ _ _ Hr) He). cbn [Z.eqb negb andb].
      destruct (wf_node_inv _ _ Hwf Hu) as (Hk & Hlo & Hup & _ & Hlen & _).
      destruct (wf_u_split _ _ Hwf Hu) as [Hsplit Hlo0].
      assert (Hh : high V (u V) = upper_sqrt V).
      { unfold high. rewrite Hsplit. apply Z.quot_mul. lia. }
      rewrite Hh, cell_None_ge by lia. reflexivity.
  - intros Hu Hx. assert (u V = 2) as E2 by lia.
    rewrite vEB_successor_eq, vEB_predecessor_eq.
    destruct (Z.leb_spec (u V) 2); [|lia].
    destruct (Z.eqb_spec x 0); [lia|]. destruct (Z.eqb_spec x 1); [lia|].
    split; reflexivity.
Qed.

Lemma neighbours_from_outside_witness :
  ∃ V, build 16 (Insert <$> [3; 9]) = Some V ∧
       vEB_successor V (-1) = Some 3 ∧ vEB_predecessor V 16 = Some 9.
Proof.
  destruct (build 16 (Insert <$> [3; 9])) as [V|] eqn:Hb; [|discriminate Hb].
  assert (Hu : 2 < u V) by (injection Hb as <-; reflexivity).
  assert (E3 : min V = 3) by (injection Hb as <-; reflexivity).
  assert (E9 : max V = 9) by (injection Hb as <-; reflexivity).
  assert (E16 : u V = 16) by (injection Hb as <-; reflexivity).
  destruct (neighbours_from_outside V 16 (build_inserts_built _ _ _ Hb))
    as [Hout _].
  destruct (Hout Hu) as (_ & Hs & Hp & _).
  exists V. split; [reflexivity|]. rewrite <- E3, <- E9. split; [exact Hs|].
  apply Hp; [rewrite E16; discriminate|rewrite E9; discriminate].
Defined.

(** ** What Delete of an absent key cannot do *)

Lemma delete_absent_member k : ∀ V S x V',
  repr k V S → 0 ≤ x < u V → ¬ S x → vEB_delete V x = Some V' →
  u V' = u V ∧ ∀ y, 0 ≤ y < u V → vEB_member V' y = Some true → S y.
Proof.
  induction k as [k IH] using lt_wf_ind. intros V S x V' Hr Hx HnS.
  rewrite vEB_delete_eq.
  destruct (Z.ltb_spec x 0); [lia|]. destruct (Z.geb_spec x (u V)); [lia|]. cbn [orb].
  pose proof (repr_extremes _ _ _ Hr) as Hext.
  destruct (Z.eqb_spec (min V) (max V)) as [Heq|Hne].
  { intros [= <-]. split; [reflexivity|]. intros y Hy Hm. exfalso.
    assert (Hone : ∀ z, S z → z = min V).
    { intros z Sz. destruct Hext as [(_ & _ & He)|(_ & _ & Hb)]; [destruct (He _ Sz)|].
      pose proof (Hb _ Sz). lia. }
    pose proof (repr_clear _ _ _ Hr Hone) as Hr0.
    rewrite (vEB_member_false_repr _ _ _ y Hr0) in Hm; [discriminate|exact Hy|tauto]. }
  assert (Smn : S (min V) ∧ S (max V)).
  { destruct Hext as [(? & ? & _)|(? & ? & _)]; [lia|auto]. }
  destruct Smn as [Smn Smx].
  pose proof (repr_range _ _ _ _ Hr Smn) as Hmnr.
  pose proof (repr_range _ _ _ _ Hr Smx) as Hmxr.
  destruct (Z.eqb_spec (u V) 2) as [Hu2|Hu2].
  { exfalso. apply HnS.
    destruct (Z.eq_dec x (min V)) as [->|]; [assumption|].
    replace x with (max V) by lia. assumption. }
  assert (Hu : 2 < u V) by (pose proof (wf_u_ge _ _ (repr_wf _ _ _ Hr)); lia).
  destruct (Z.eqb_spec x (min V)) as [->|Hxmn]; [tauto|].
  cbn [mbind option_bind]. cbn zeta.
  destruct (repr_descend _ _ _ x Hr Hu Hx) as (Hlt & Hxs & Hh & Hl & c0 & Hc0 & Hrc0 & Huc0).
  rewrite Hc0. cbn [mbind option_bind].
  destruct (vEB_delete c0 (low V x)) as [c|] eqn:Hdel; [|discriminate].
  cbn [mbind option_bind].
  destruct (IH _ Hlt c0 _ (low V x) c Hrc0 ltac:(lia)) as [Huc Hsub]; [|exact Hdel|].
  { intros (_ & HS & _). apply HnS. rewrite Hxs. exact HS. }
  destruct (Z.eqb_spec x (max V)) as [->|Hxmx]; [tauto|].
  intros HV'.
  assert (Hfields : u V' = u V ∧ min V' = min V ∧ max V' = max V ∧
                    lower_sqrt V' = lower_sqrt V ∧
                    cluster V' = set_cell (cluster V) (high V x) c).
  { destruct (vEB_min c =? -1).
    - destruct (sm ← summary V; vEB_delete sm (high V x)) as [s'|]; [|discriminate].
      cbn [mbind option_bind] in HV'. injection HV' as <-. auto.
    - injection HV' as <-. auto. }
  destruct Hfields as (EU & Emn & Emx & Elo & Ecl).
  split; [exact EU|]. intros y Hy. rewrite vEB_member_eq, Emn, Emx, EU.
  destruct (Z.eqb_spec y (min V)) as [->|Hymn]; [intros _; assumption|].
  destruct (Z.eqb_spec y (max V)) as [->|Hymx]; [intros _; assumption|].
  cbn [orb]. destruct (Z.leb_spec (u V) 2); [lia|].
  unfold high, low. rewrite Elo, Ecl. fold (high V y) (low V y).
  destruct (repr_descend _ _ _ y Hr Hu Hy) as (_ & Hys & Hhy & Hly & cy & Hcy & Hrcy & Hucy).
  destruct (Z.eq_dec (high V y) (high V x)) as [Ehx|Nhx].
  - rewrite Ehx, (cell_set_eq _ _ _ _ Hc0). cbn [mbind option_bind]. intros Hm.
    destruct (Hsub (low V y) ltac:(lia) Hm) as (_ & HS & _).
    rewrite Hys, Ehx. exact HS.
  - rewrite cell_set_ne by lia. rewrite Hcy. cbn [mbind option_bind]. intros Hm.
    destruct (vEB_member_repr _ cy _ (low V y) Hrcy ltac:(lia)) as (b & Hb & Hiff).
    assert (b = true) as Hbt by congruence.
    destruct (proj1 Hiff Hbt) as (_ & HS & _). rewrite Hys. exact HS.
Qed.

(** X15.  On a tree built without deleting an absent key, Delete returns
    for every key and never adds one: whatever key is given, stored or
    absent, inside the universe or outside, every key the tree holds
    afterwards was held before. *)
Theorem delete_never_adds_a_key V x :
  built V →
  ∃ V', vEB_delete V x = Some V' ∧ u V' = u V ∧ ∀ y, stored V' y → stored V y.
Proof.
  intros HV. destruct (built_repr V HV) as (k & S & Hr).
  destruct (decide (0 ≤ x < u V)) as [Hx|Hx].
  - destruct (vEB_delete_returns k V S x Hr) as [V' Hdel].
    exists V'. split; [exact Hdel|].
    destruct (vEB_member_repr k V S x Hr Hx) as ([|] & Hb & Hiff).
    + destruct (vEB_delete_repr k V S x Hr (proj1 Hiff eq_refl)) as (V1 & Hdel1 & Hr1).
      assert (V1 = V') as -> by congruence.
      split.
      { rewrite (wf_u _ _ (repr_wf _ _ _ Hr)), (wf_u _ _ (repr_wf _ _ _ Hr1)). reflexivity. }
      intros y Hy. apply (stored_repr _ _ _ y Hr1) in Hy as [Hy _].
      apply (stored_repr _ _ _ y Hr). exact Hy.
    + assert (HnS : ¬ S x) by (intros HS; apply Hiff in HS; discriminate).
      destruct (delete_absent_member k V S x V' Hr Hx HnS Hdel) as [EU Hsub].
      split; [exact EU|]. intros y [Hy Hm]. apply (stored_repr _ _ _ y Hr).
      apply Hsub; [lia|exact Hm].
  - exists V. rewrite out_of_range_delete by assumption. auto.
Qed.

Lemma delete_never_adds_a_key_witness :
  ∃ V V', build 16 (Insert <$> [3; 9; 12]) = Some V ∧ vEB_delete V 10 = Some V' ∧
          (stored V' 10 → stored V 10).
Proof.
  destruct (build 16 (Insert <$> [3; 9; 12])) as [V|] eqn:Hb; [|discriminate Hb].
  destruct (delete_never_adds_a_key V 10 (build_inserts_built _ _ _ Hb))
    as (V' & Hdel & _ & Hsub).
  exists V, V'. split; [reflexivity|]. split; [exact Hdel|]. apply Hsub.
Defined.

(** ** Every tree a caller can hold *)

(** X16.  In every tree a caller can hold, also one that has lost keys to
    a Delete of an absent key, every node keeps [min] and [max] at the
    sentinel or inside the node's universe; so for a key of the universe
    Successor and Predecessor answer with the sentinel or a key of the
    universe, and Insert returns a tree in which Member finds the key. *)
Theorem answers_stay_in_the_universe V N x :
  reachable V → node_of N V → 0 ≤ x < u V →
  (-1 ≤ min N < u N ∧ -1 ≤ max N < u N) ∧
  (∃ r, vEB_successor V x = Some r ∧ -1 ≤ r < u V) ∧
  (∃ r, vEB_predecessor V x = Some r ∧ -1 ≤ r < u V) ∧
  (∃ V', vEB_insert V x = Some V' ∧ reachable V' ∧ vEB_member V' x = Some true).
Proof.
  intros HV HN Hx. destruct (reachable_wf V HV) as (k & Hwf).
  destruct (wf_node_of _ _ _ Hwf HN) as (k' & HwfN).
  split; [split; [eapply wf_min|eapply wf_max]; eauto|].
  split; [apply (vEB_successor_wf k); assumption|].
  split; [apply (vEB_predecessor_wf k); assumption|].
  destruct (vEB_insert_wf k V x Hwf) as (V' & Hins & _ & Hm).
  exists V'. split; [assumption|]. split; [|auto].
  eapply reachable_insert; eauto.
Qed.

Lemma answers_stay_in_the_universe_witness :
  ∃ V r, build 16 [Insert 3; Insert 9; Insert 12; Delete 10] = Some V ∧
         vEB_successor V 3 = Some r ∧ -1 ≤ r < 16.
Proof.
  destruct (build 16 [Insert 3; Insert 9; Insert 12; Delete 10]) as [V|] eqn:Hb;
    [|discriminate Hb].
  assert (Hx : 0 ≤ 3 < u V)
    by (injection Hb as <-; vm_compute; split; [discriminate|reflexivity]).
  assert (E16 : u V = 16) by (injection Hb as <-; reflexivity).
  destruct (answers_stay_in_the_universe V V 3 (build_reachable _ _ _ Hb) (node_here V) Hx)
    as (_ & (r & Hs & Hr) & _).
  exists V, r. split; [reflexivity|]. split; [exact Hs|]. rewrite <- E16. exact Hr.
Defined.

(** ** Runs that show the properties of built trees *)

Lemma built_successor_witness :
  ∃ V r, build 16 (Insert <$> [3; 9; 12]) = Some V ∧ vEB_successor V 4 = Some r ∧
         (r = -1 ∨ (stored V r ∧ 4 < r)).
Proof.
  destruct (build 16 (Insert <$> [3; 9; 12])) as [V|] eqn:Hb; [|discriminate Hb].
  assert (Hx : 0 ≤ 4 < u V)
    by (injection Hb as <-; vm_compute; split; [discriminate|reflexivity]).
  destruct (built_successor V 4 (build_inserts_built _ _ _ Hb) Hx) as (r & Hs & Hspec).
  exists V, r. split; [reflexivity|]. split; [exact Hs|].
  destruct Hspec as [[Hr _]|(Hst & Hlt & _)]; [left; exact Hr|right; split; assumption].
Defined.

Lemma built_predecessor_witness :
  ∃ V r, build 16 (Insert <$> [3; 9; 12]) = Some V ∧ vEB_predecessor V 11 = Some r ∧
         (r = -1 ∨ (stored V r ∧ r < 11)).
Proof.
  destruct (build 16 (Insert <$> [3; 9; 12])) as [V|] eqn:Hb; [|discriminate Hb].
  assert (Hx : 0 ≤ 11 < u V)
    by (injection Hb as <-; vm_compute; split; [discriminate|reflexivity]).
  destruct (built_predecessor V 11 (build_inserts_built _ _ _ Hb) Hx) as (r & Hs & Hspec).
  exists V, r. split; [reflexivity|]. split; [exact Hs|].
  destruct Hspec as [[Hr _]|(Hst & Hlt & _)]; [left; exact Hr|right; split; assumption].
Defined.

Lemma built_summary_witness :
  ∃ V s c, build 16 (Insert <$> [3; 9; 12]) = Some V ∧
           summary V = Some s ∧ cell (cluster V) 2 = Some c ∧
           (stored s 2 ↔ min c ≠ -1).
Proof.
  destruct (build 16 (Insert <$> [3; 9; 12])) as [V|] eqn:Hb; [|discriminate Hb].
  assert (Hu : 2 < u V) by (injection Hb as <-; reflexivity).
  destruct (summary V) as [s|] eqn:Hs; [|injection Hb as <-; discriminate Hs].
  destruct (cell (cluster V) 2) as [c|] eqn:Hc; [|injection Hb as <-; discriminate Hc].
  destruct (built_summary V V s 2 c (build_inserts_built _ _ _ Hb) (node_here V) Hu Hs Hc)
    as [Hiff _].
  exists V, s, c. split; [reflexivity|]. split; [exact Hs|]. split; [exact Hc|].
  exact Hiff.
Defined.

Lemma built_min_max_witness :
  ∃ V, build 16 (Insert <$> [3; 9; 12]) = Some V ∧
       (min V = -1 ↔ max V = -1) ∧ (min V = -1 ↔ ∀ y, ¬ stored V y).
Proof.
  destruct (build 16 (Insert <$> [3; 9; 12])) as [V|] eqn:Hb; [|discriminate Hb].
  destruct (built_min_max V V (build_inserts_built _ _ _ Hb) (node_here V))
    as (H1 & H2 & _).
  exists V. split; [reflexivity|]. split; assumption.
Defined.
